(** * dataurl: RFC 2397 data URLs (vincent-petithory/dataurl)

    A shallow embedding of the Go package [dataurl]: the escaper
    (rfc2396-style percent encoding, delegated to [net/url]), the parser
    that folds the lexer's items into a [DataURL], and the serializer
    [WriteTo].

    Conventions.
    - A Go [string] is a [string] (a sequence of 8-bit characters), a Go
      [byte] is an [ascii], a Go [[]byte] is a [list ascii]; where the
      code tells a nil slice from an empty one the slice is an [option].
    - A Go function returning [(v, err)] returns a pair whose second
      component is [option error]; [None] is Go's nil error.
    - [int] and [int64] are 64-bit two's complement integers, modelled in
      [Z] with the wrap-around written out. *)

From Stdlib Require Import ZArith NArith Lia ZifyNat List Ascii String Bool.
From stdpp Require Import base option list strings gmap.

Local Open Scope string_scope.
Local Open Scope list_scope.
Local Open Scope Z_scope.

(** ** Errors *)

(** The error values that flow through the package. *)
Inductive error : Type :=
| EscapeError (s : string)        (* net/url: url.EscapeError *)
| ErrSyntax                       (* strconv.ErrSyntax *)
| CorruptInputError (off : Z)     (* encoding/base64 *)
| errorString (msg : string)      (* errors.New, fmt.Errorf *)
| writeError (code : nat).        (* whatever an io.Writer reports *)

Global Instance error_eq_dec : EqDecision error.
Proof. solve_decision. Defined.

(** ** Bytes and strings *)

Definition byte_val (c : ascii) : N := N_of_ascii c.

Definition in_range (lo hi c : ascii) : bool :=
  (byte_val lo <=? byte_val c)%N && (byte_val c <=? byte_val hi)%N.

Fixpoint contains (s : string) (c : ascii) : bool :=
  match s with
  | EmptyString => false
  | String d s' => Ascii.eqb d c || contains s' c
  end.

(** The double quote, as a byte and as a one-byte string. *)
Definition dquote : ascii := "034"%char.
Definition dq : string := String dquote EmptyString.

(** [[]byte(s)] and [string(b)]. *)
Definition bytes_of_string (s : string) : list ascii := list_ascii_of_string s.
Definition string_of_bytes (b : list ascii) : string := string_of_list_ascii b.

(** ** net/url: escaping at mode [encodePathSegment]

    [url.PathEscape s] is [escape(s, encodePathSegment)] and
    [url.PathUnescape s] is [unescape(s, encodePathSegment)]; the
    definitions below are those two functions of the Go library at that
    mode. *)
Module url.

(** [shouldEscape(c, encodePathSegment)]. *)
Definition shouldEscape (c : ascii) : bool :=
  if in_range "a" "z" c || in_range "A" "Z" c || in_range "0" "9" c then false
  else if contains "-_.~" c then false
  else if contains "$&+,/:;=?@" c then
    Ascii.eqb c "/" || Ascii.eqb c ";" || Ascii.eqb c "," || Ascii.eqb c "?"
  else true.

Definition upperhex : string := "0123456789ABCDEF".

(** [upperhex[i]]. *)
Definition upperhex_at (i : N) : ascii :=
  match String.get (N.to_nat i) upperhex with
  | Some c => c
  | None => "0"%char
  end.

Definition ishex (c : ascii) : bool :=
  in_range "0" "9" c || in_range "a" "f" c || in_range "A" "F" c.

Definition unhex (c : ascii) : N :=
  (if in_range "0" "9" c then byte_val c - byte_val "0"
   else if in_range "a" "f" c then byte_val c - byte_val "a" + 10
   else if in_range "A" "F" c then byte_val c - byte_val "A" + 10
   else 0)%N.

(** First loop of [escape]: the number of bytes to escape. *)
Fixpoint hexCount (s : string) : nat :=
  match s with
  | EmptyString => 0%nat
  | String c s' => ((if shouldEscape c then 1 else 0) + hexCount s')%nat
  end.

(** Second loop of [escape]: [%XX] for a byte to escape, the byte
    itself otherwise. *)
Fixpoint escape_loop (s : string) : string :=
  match s with
  | EmptyString => EmptyString
  | String c s' =>
      if shouldEscape c then
        String "%" (String (upperhex_at (N.shiftr (byte_val c) 4))
                   (String (upperhex_at (N.land (byte_val c) 15))
                           (escape_loop s')))
      else String c (escape_loop s')
  end.

Definition escape (s : string) : string :=
  if Nat.eqb (hexCount s) 0 then s else escape_loop s.

Definition PathEscape (s : string) : string := escape s.

(** The first three bytes of [s] (all of it when it is shorter): the
    payload of an [EscapeError]. *)
Definition first3 (s : string) : string := String.substring 0 3 s.

(** First loop of [unescape]: every [%] is followed by two hex digits;
    the result is the number of [%], or the error. *)
Fixpoint check (s : string) (n : nat) : nat + error :=
  match s with
  | EmptyString => inl n
  | String c s' =>
      if Ascii.eqb c "%" then
        match s' with
        | String a (String b s'') =>
            if ishex a && ishex b then check s'' (S n)
            else inr (EscapeError (first3 s))
        | _ => inr (EscapeError (first3 s))
        end
      else check s' n
  end.

(** Second loop of [unescape], run on checked input only. *)
Fixpoint unescape_loop (s : string) : string :=
  match s with
  | EmptyString => EmptyString
  | String c s' =>
      if Ascii.eqb c "%" then
        match s' with
        | String a (String b s'') =>
            String (ascii_of_N (N.lor (N.shiftl (unhex a) 4) (unhex b)))
                   (unescape_loop s'')
        | _ => EmptyString
        end
      else String c (unescape_loop s')
  end.

Definition unescape (s : string) : string * option error :=
  match check s 0%nat with
  | inr e => ("", Some e)
  | inl n => if Nat.eqb n 0 then (s, None) else (unescape_loop s, None)
  end.

Definition PathUnescape (s : string) : string * option error := unescape s.

End url.

(** ** The escaper *)

Definition Escape (data : list ascii) : string :=
  url.PathEscape (string_of_bytes data).

Definition EscapeString (s : string) : string := url.PathEscape s.

Definition Unescape (s : string) : list ascii * option error :=
  let '(res, err) := url.PathUnescape s in (bytes_of_string res, err).

Definition UnescapeToString (s : string) : string * option error :=
  url.PathUnescape s.


(** ** unicode/utf8 *)

Definition byteZ (c : ascii) : Z := Z.of_N (byte_val c).
Definition byte_of_Z (z : Z) : ascii := ascii_of_N (Z.to_N (z mod 256)).

Module utf8.

Definition RuneError : Z := 65533.
Definition RuneSelf : Z := 128.
Definition MaxRune : Z := 1114111.
Definition surrogateMin : Z := 55296.
Definition surrogateMax : Z := 57343.
Definition rune1Max : Z := 127.
Definition rune2Max : Z := 2047.
Definition rune3Max : Z := 65535.
Definition locb : Z := 128.
Definition hicb : Z := 191.

(** An entry of the table [first]: ASCII, invalid, or the size of the
    encoding with the range accepted for its second byte. *)
Inductive lead : Type :=
| lead_as
| lead_xx
| lead_sz (size : nat) (lo hi : Z).

Definition first (b : Z) : lead :=
  if b <? 128 then lead_as
  else if b <? 194 then lead_xx
  else if b <? 224 then lead_sz 2%nat locb hicb
  else if b =? 224 then lead_sz 3%nat 160 hicb
  else if b <? 237 then lead_sz 3%nat locb hicb
  else if b =? 237 then lead_sz 3%nat locb 159
  else if b <? 240 then lead_sz 3%nat locb hicb
  else if b =? 240 then lead_sz 4%nat 144 hicb
  else if b <? 244 then lead_sz 4%nat locb hicb
  else if b =? 244 then lead_sz 4%nat locb 143
  else lead_xx.

Definition outside (lo hi : Z) (c : ascii) : bool :=
  (byteZ c <? lo) || (hi <? byteZ c).

Definition DecodeRuneInString (s : string) : Z * nat :=
  match s with
  | EmptyString => (RuneError, 0%nat)
  | String s0 t0 =>
      match first (byteZ s0) with
      | lead_as => (byteZ s0, 1%nat)
      | lead_xx => (RuneError, 1%nat)
      | lead_sz sz lo hi =>
          if (String.length s <? sz)%nat then (RuneError, 1%nat) else
          match t0 with
          | EmptyString => (RuneError, 1%nat)
          | String s1 t1 =>
              if outside lo hi s1 then (RuneError, 1%nat)
              else if (sz <=? 2)%nat then
                (Z.lor (Z.shiftl (Z.land (byteZ s0) 31) 6) (Z.land (byteZ s1) 63), 2%nat)
              else
                match t1 with
                | EmptyString => (RuneError, 1%nat)
                | String s2 t2 =>
                    if outside locb hicb s2 then (RuneError, 1%nat)
                    else if (sz <=? 3)%nat then
                      (Z.lor (Z.lor (Z.shiftl (Z.land (byteZ s0) 15) 12)
                                    (Z.shiftl (Z.land (byteZ s1) 63) 6))
                             (Z.land (byteZ s2) 63), 3%nat)
                    else
                      match t2 with
                      | EmptyString => (RuneError, 1%nat)
                      | String s3 _ =>
                          if outside locb hicb s3 then (RuneError, 1%nat)
                          else
                            (Z.lor (Z.lor (Z.lor
                               (Z.shiftl (Z.land (byteZ s0) 7) 18)
                               (Z.shiftl (Z.land (byteZ s1) 63) 12))
                               (Z.shiftl (Z.land (byteZ s2) 63) 6))
                               (Z.land (byteZ s3) 63), 4%nat)
                      end
                end
          end
      end
  end.

Fixpoint ValidString (s : string) : bool :=
  match s with
  | EmptyString => true
  | String s0 t0 =>
      match first (byteZ s0) with
      | lead_as => ValidString t0
      | lead_xx => false
      | lead_sz sz lo hi =>
          if (String.length s <? sz)%nat then false else
          match t0 with
          | EmptyString => false
          | String s1 t1 =>
              if outside lo hi s1 then false
              else if (sz =? 2)%nat then ValidString t1
              else
                match t1 with
                | EmptyString => false
                | String s2 t2 =>
                    if outside locb hicb s2 then false
                    else if (sz =? 3)%nat then ValidString t2
                    else
                      match t2 with
                      | EmptyString => false
                      | String s3 t3 =>
                          if outside locb hicb s3 then false else ValidString t3
                      end
                end
          end
      end
  end.

Definition ValidRune (r : Z) : bool :=
  ((0 <=? r) && (r <? surrogateMin)) || ((surrogateMax <? r) && (r <=? MaxRune)).

(** [uint32(r)] of a rune. *)
Definition uint32 (r : Z) : Z := r mod 2 ^ 32.

(** The bytes [AppendRune] appends for [r]. *)
Definition AppendRune (r : Z) : list ascii :=
  let i := uint32 r in
  if i <=? rune1Max then [byte_of_Z r]
  else if i <=? rune2Max then
    [byte_of_Z (Z.lor 192 (Z.shiftr r 6));
     byte_of_Z (Z.lor 128 (Z.land r 63))]
  else
    let three (r : Z) :=
      [byte_of_Z (Z.lor 224 (Z.shiftr r 12));
       byte_of_Z (Z.lor 128 (Z.land (Z.shiftr r 6) 63));
       byte_of_Z (Z.lor 128 (Z.land r 63))] in
    if (MaxRune <? i) || ((surrogateMin <=? i) && (i <=? surrogateMax))
    then three RuneError
    else if i <=? rune3Max then three r
    else
      [byte_of_Z (Z.lor 240 (Z.shiftr r 18));
       byte_of_Z (Z.lor 128 (Z.land (Z.shiftr r 12) 63));
       byte_of_Z (Z.lor 128 (Z.land (Z.shiftr r 6) 63));
       byte_of_Z (Z.lor 128 (Z.land r 63))].

End utf8.

(** ** strconv: [Unquote] *)

Definition str_drop (n : nat) (s : string) : string :=
  String.substring n (String.length s - n) s.
Definition str_take (n : nat) (s : string) : string := String.substring 0 n s.

(** [strings.IndexByte]: the first position of [c] in [s]. *)
Fixpoint index (s : string) (c : ascii) : option nat :=
  match s with
  | EmptyString => None
  | String d s' => if Ascii.eqb d c then Some 0%nat else S <$> index s' c
  end.

(** A rune is an [int32]. *)
Definition int32 (z : Z) : Z := (z + 2 ^ 31) mod 2 ^ 32 - 2 ^ 31.

Module strconv.

Definition unhex (b : ascii) : option Z :=
  if in_range "0" "9" b then Some (byteZ b - byteZ "0")
  else if in_range "a" "f" b then Some (byteZ b - byteZ "a" + 10)
  else if in_range "A" "F" b then Some (byteZ b - byteZ "A" + 10)
  else None.

(** The loop of [UnquoteChar] over the [n] hex digits of [\x], [\u], [\U]. *)
Fixpoint hexdigits (n : nat) (s : string) (v : Z) : option (Z * string) :=
  match n with
  | O => Some (v, s)
  | S n' =>
      match s with
      | EmptyString => None
      | String c s' =>
          match unhex c with
          | None => None
          | Some x => hexdigits n' s' (int32 (Z.lor (Z.shiftl v 4) x))
          end
      end
  end.

(** The loop of [UnquoteChar] over the two remaining octal digits. *)
Fixpoint octdigits (n : nat) (s : string) (v : Z) : option (Z * string) :=
  match n with
  | O => Some (v, s)
  | S n' =>
      match s with
      | EmptyString => None
      | String c s' =>
          let x := byteZ c - byteZ "0" in
          if (x <? 0) || (7 <? x) then None
          else octdigits n' s' (Z.lor (Z.shiftl v 3) x)
      end
  end.

(** [UnquoteChar(s, quote)]: the rune, whether it is multibyte, and the
    tail; [None] is [ErrSyntax]. *)
Definition UnquoteChar (s : string) (quote : ascii) : option (Z * bool * string) :=
  match s with
  | EmptyString => None
  | String c0 t0 =>
      if Ascii.eqb c0 quote && (Ascii.eqb quote "'" || Ascii.eqb quote dquote) then None
      else if utf8.RuneSelf <=? byteZ c0 then
        let '(r, size) := utf8.DecodeRuneInString s in
        Some (r, true, str_drop size s)
      else if negb (Ascii.eqb c0 "\") then Some (byteZ c0, false, t0)
      else
        match t0 with
        | EmptyString => None
        | String c t =>
            if Ascii.eqb c "a" then Some (7, false, t)
            else if Ascii.eqb c "b" then Some (8, false, t)
            else if Ascii.eqb c "f" then Some (12, false, t)
            else if Ascii.eqb c "n" then Some (10, false, t)
            else if Ascii.eqb c "r" then Some (13, false, t)
            else if Ascii.eqb c "t" then Some (9, false, t)
            else if Ascii.eqb c "v" then Some (11, false, t)
            else if Ascii.eqb c "x" || Ascii.eqb c "u" || Ascii.eqb c "U" then
              let n := if Ascii.eqb c "x" then 2%nat
                       else if Ascii.eqb c "u" then 4%nat else 8%nat in
              match hexdigits n t 0 with
              | None => None
              | Some (v, t') =>
                  if Ascii.eqb c "x" then Some (v, false, t')
                  else if utf8.ValidRune v then Some (v, true, t')
                  else None
              end
            else if in_range "0" "7" c then
              match octdigits 2 t (byteZ c - byteZ "0") with
              | None => None
              | Some (v, t') => if 255 <? v then None else Some (v, false, t')
              end
            else if Ascii.eqb c "\" then Some (byteZ "\", false, t)
            else if Ascii.eqb c "'" || Ascii.eqb c dquote then
              if Ascii.eqb c quote then Some (byteZ c, false, t) else None
            else None
        end
  end.

(** The loop of [unquote] over a quoted body with escape sequences: the
    bytes gathered and what is left of the input, or [None] for
    [ErrSyntax]. Every round consumes a byte, so the length of the input
    is fuel enough. *)
Fixpoint unquote_loop (fuel : nat) (inp : string) (quote : ascii)
    (buf : list ascii) : option (list ascii * string) :=
  match fuel with
  | O => Some (buf, inp)
  | S fuel' =>
      match inp with
      | EmptyString => Some (buf, inp)
      | String c0 _ =>
          if Ascii.eqb c0 quote then Some (buf, inp)
          else
            match UnquoteChar inp quote with
            | None => None
            | Some (r, multibyte, rem) =>
                if Ascii.eqb c0 "010" then None
                else
                  let buf' :=
                    if (r <? utf8.RuneSelf) || negb multibyte
                    then buf ++ [byte_of_Z r]
                    else buf ++ utf8.AppendRune r in
                  if Ascii.eqb quote "'" then Some (buf', rem)
                  else unquote_loop fuel' rem quote buf'
            end
      end
  end.

(** [unquote(in, true)]: the unquoted string, the rest of the input and
    the error. *)
Definition unquote (inp : string) : string * string * option error :=
  match inp with
  | String quote (String _ _ as in1) =>
      match index in1 quote with
      | None => ("", inp, Some ErrSyntax)
      | Some e =>
          let end_ := (e + 2)%nat in
          if Ascii.eqb quote "`" then
            let body := str_take e in1 in
            if negb (contains (str_take end_ inp) "013") then
              (body, str_drop end_ inp, None)
            else
              (string_of_bytes
                 (filter (fun c => c <> "013"%char) (bytes_of_string body)),
               str_drop end_ inp, None)
          else if Ascii.eqb quote dquote || Ascii.eqb quote "'" then
            let body := str_take e in1 in
            let plain :=
              negb (contains (str_take end_ inp) "\")
              && negb (contains (str_take end_ inp) "010") in
            let valid :=
              if Ascii.eqb quote dquote then utf8.ValidString body
              else
                let '(r, n) := utf8.DecodeRuneInString body in
                (1 + n + 1 =? end_)%nat
                && (negb (r =? utf8.RuneError) || negb (n =? 1)%nat) in
            if plain && valid then (body, str_drop end_ inp, None)
            else
              match unquote_loop (String.length in1) in1 quote [] with
              | None => ("", inp, Some ErrSyntax)
              | Some (buf, String c rest) =>
                  if Ascii.eqb c quote then (string_of_bytes buf, rest, None)
                  else ("", inp, Some ErrSyntax)
              | Some (_, EmptyString) => ("", inp, Some ErrSyntax)
              end
          else ("", inp, Some ErrSyntax)
      end
  | _ => ("", inp, Some ErrSyntax)
  end.

Definition Unquote (s : string) : string * option error :=
  let '(out, rem, err) := unquote s in
  if (0 <? String.length rem)%nat then ("", Some ErrSyntax) else (out, err).

End strconv.

(** ** encoding/base64: [StdEncoding] *)

Module base64.

Definition encodeStd : string :=
  "ABCDEFGHIJKLMNOPQRSTUVWXYZabcdefghijklmnopqrstuvwxyz0123456789+/".

Definition padChar : ascii := "="%char.

(** [enc.encode[i]]. *)
Definition encode_at (i : Z) : ascii :=
  match String.get (Z.to_nat i) encodeStd with
  | Some c => c
  | None => "A"%char
  end.

(** [enc.decodeMap[c]]: the value of [c], 255 outside the alphabet. *)
Definition decodeMap (c : ascii) : Z :=
  match index encodeStd c with
  | Some i => Z.of_nat i
  | None => 255
  end.

Definition val3 (a b c : Z) : Z :=
  Z.lor (Z.lor (Z.shiftl a 16) (Z.shiftl b 8)) c.

Definition sextet (val : Z) (shift : Z) : ascii :=
  encode_at (Z.land (Z.shiftr val shift) 63).

(** [enc.Encode]: three bytes to four characters, the last block padded. *)
Fixpoint Encode (src : list ascii) : list ascii :=
  match src with
  | [] => []
  | [a] =>
      let val := Z.shiftl (byteZ a) 16 in
      [sextet val 18; sextet val 12; padChar; padChar]
  | [a; b] =>
      let val := Z.lor (Z.shiftl (byteZ a) 16) (Z.shiftl (byteZ b) 8) in
      [sextet val 18; sextet val 12; sextet val 6; padChar]
  | a :: b :: c :: rest =>
      let val := val3 (byteZ a) (byteZ b) (byteZ c) in
      sextet val 18 :: sextet val 12 :: sextet val 6 :: sextet val 0
        :: Encode rest
  end.

Definition is_newline (c : ascii) : bool :=
  Ascii.eqb c "010" || Ascii.eqb c "013".

(** "skip over newlines": the input left and the index reached. *)
Fixpoint skip_newlines (src : list ascii) (si : Z) : list ascii * Z :=
  match src with
  | c :: rest => if is_newline c then skip_newlines rest (si + 1) else (src, si)
  | [] => ([], si)
  end.

(** What [decodeQuantum] returns: the input left from the new index
    [nsi] on, the bytes written to [dst] (their number is [n]) and the
    error. *)
Record quantum : Type := Quantum {
  q_rest : list ascii;
  q_nsi : Z;
  q_out : list ascii;
  q_err : option error
}.

(** "Convert 4x 6bit source bytes into 3 bytes": the [dlen - 1] bytes of
    a quantum of [dlen] characters ([StdEncoding] is not strict). *)
Definition convert (dbuf : list Z) : list ascii :=
  let d (i : nat) := nth i dbuf 0 in
  let val := Z.lor (Z.lor (Z.lor (Z.shiftl (d 0%nat) 18) (Z.shiftl (d 1%nat) 12))
                          (Z.shiftl (d 2%nat) 6)) (d 3%nat) in
  take (length dbuf - 1)
       [byte_of_Z (Z.shiftr val 16); byte_of_Z (Z.shiftr val 8); byte_of_Z val].

(** The end of a padded quantum: newlines are skipped and anything after
    them is trailing garbage. *)
Definition padded_end (rest : list ascii) (si : Z) (dbuf : list Z) : quantum :=
  let '(r, s) := skip_newlines rest si in
  Quantum r s (convert dbuf)
          (match r with [] => None | _ => Some (CorruptInputError s) end).

(** [decodeQuantum(dst, src, si)]; [src] is the input from [si] on and
    [dbuf] holds the [j] values read so far. *)
Fixpoint decodeQuantum (src : list ascii) (si : Z) (dbuf : list Z) : quantum :=
  match src with
  | [] =>
      match dbuf with
      | [] => Quantum [] si [] None
      | _ => Quantum [] si [] (Some (CorruptInputError (si - Z.of_nat (length dbuf))))
      end
  | c :: rest =>
      let si := si + 1 in
      let out := decodeMap c in
      if negb (out =? 255) then
        let dbuf := dbuf ++ [out] in
        if (length dbuf =? 4)%nat then Quantum rest si (convert dbuf) None
        else decodeQuantum rest si dbuf
      else if is_newline c then decodeQuantum rest si dbuf
      else if negb (Ascii.eqb c padChar) then
        Quantum rest si [] (Some (CorruptInputError (si - 1)))
      else
        match length dbuf with
        | 0%nat | 1%nat => Quantum rest si [] (Some (CorruptInputError (si - 1)))
        | 2%nat =>
            let '(rest2, si2) := skip_newlines rest si in
            match rest2 with
            | [] => Quantum [] si2 [] (Some (CorruptInputError si2))
            | c2 :: rest3 =>
                if negb (Ascii.eqb c2 padChar) then
                  Quantum rest2 si2 [] (Some (CorruptInputError (si2 - 1)))
                else padded_end rest3 (si2 + 1) dbuf
            end
        | _ => padded_end rest si dbuf
        end
  end.

(** The loop of [enc.Decode]; a quantum consumes a character, so the
    length of the input is fuel enough. *)
Fixpoint Decode (fuel : nat) (src : list ascii) (si : Z) (dst : list ascii)
    : list ascii * option error :=
  match fuel with
  | O => (dst, None)
  | S fuel' =>
      match src with
      | [] => (dst, None)
      | _ =>
          let q := decodeQuantum src si [] in
          match q_err q with
          | Some e => (dst ++ q_out q, Some e)
          | None => Decode fuel' (q_rest q) (q_nsi q) (dst ++ q_out q)
          end
      end
  end.

(** [StdEncoding.DecodeString]. *)
Definition DecodeString (s : string) : list ascii * option error :=
  Decode (String.length s) (bytes_of_string s) 0 [].

End base64.

(** ** Items and the lexer *)

(** The kinds of items the lexer sends, as [parse] and the tests name
    them. *)
Inductive itemType : Type :=
| itemError
| itemEOF
| itemDataPrefix
| itemMediaType
| itemMediaSep
| itemMediaSubType
| itemParamSemicolon
| itemParamAttr
| itemParamEqual
| itemLeftStringQuote
| itemRightStringQuote
| itemParamVal
| itemBase64Enc
| itemDataComma
| itemData.

Global Instance itemType_eq_dec : EqDecision itemType.
Proof. solve_decision. Defined.

Record item : Type := mkItem { t : itemType; val : string }.

Global Instance item_eq_dec : EqDecision item.
Proof. solve_decision. Defined.

(** Modelled from the spec: [item.String], declared with the lexer, which
    is not among the sources. The spec gives it for an Error item only,
    "the token's message", and [parse] calls it on Error items only; that
    case is the one modelled. *)
Definition item_String (i : item) : string := val i.

(** Modelled from the spec: the constant [dataPrefix] of the lexer, the
    "literal data:" that state 1 expects. *)
Definition dataPrefix : string := "data:".

(** Modelled from the spec: "letters, digits", the part the two
    character classes of the lexer share. *)
Definition isLetterOrDigit (c : ascii) : bool :=
  in_range "a" "z" c || in_range "A" "Z" c || in_range "0" "9" c.

(** Modelled from the spec: the token charset of the lexer, "letters,
    digits, and + - .". *)
Definition isTokenChar (c : ascii) : bool :=
  isLetterOrDigit c || Ascii.eqb c "+" || Ascii.eqb c "-" || Ascii.eqb c ".".

(** Modelled from the spec: the charset of an attribute name, "letters,
    digits, -". *)
Definition isAttrChar (c : ascii) : bool :=
  isLetterOrDigit c || Ascii.eqb c "-".

(** [acc] with [c] added at its end. *)
Definition snoc (acc : string) (c : ascii) : string :=
  acc ++ String c EmptyString.

(** Modelled from the spec: the states of the lexer between the prefix
    and the comma (states 2 to 4 of section 4.2); [acc] is the text of
    the item being read. *)
Inductive lexState : Type :=
| inMediaType (acc : string)
| inMediaSubType (acc : string)
| inParamAttr (acc : string)
| atParamVal
| inQuotedVal (acc : string)
| inQuotedEscape (acc : string)
| afterQuotedVal
| inParamVal (acc : string).

(** Modelled from the spec: state 5 of the lexer, "Comma": DataComma,
    then all that remains as one Data item, then EOF. The package's
    lexer test expects no Data item when nothing remains. *)
Definition lexData (rest : string) : list item :=
  mkItem itemDataComma ","
    :: match rest with
       | EmptyString => [mkItem itemEOF ""]
       | _ => [mkItem itemData rest; mkItem itemEOF ""]
       end.

(** Modelled from the spec: states 2 to 4 of the lexer (section 4.2), one
    character at a time with no backtracking.
    - A type or subtype is one or more characters of the token charset;
      [data:xxx;] is refused, as the package's tests and section 8 have
      it. With no type at all the lexer goes on to the parameters.
    - An attribute name is one or more characters of its charset; the
      name [base64] right before the comma is the Base64 marker.
    - A quoted value runs to the first double quote that no backslash
      precedes and keeps its backslashes; an unquoted value is the run
      of characters up to the next [;] or [,], whatever they are (the
      spec's own example has a [%] in one) and even if there is none.
    - A violation sends one Error item and ends the sequence. Only the
      message "invalid character for media type" is given by the spec
      and by the package's tests; the other messages are this model's.
    - When the input ends before the comma the sequence ends with
      neither EOF nor Error (section 9: the reference treats it as an
      internal fault). *)
Fixpoint lexFrom (st : lexState) (s : string) : list item :=
  match s with
  | EmptyString => []
  | String c rest =>
      let sep :=
        if Ascii.eqb c ";"
        then mkItem itemParamSemicolon ";" :: lexFrom (inParamAttr "") rest
        else lexData rest in
      let isSep := Ascii.eqb c ";" || Ascii.eqb c "," in
      match st with
      | inMediaType acc =>
          if isTokenChar c then lexFrom (inMediaType (snoc acc c)) rest
          else if Ascii.eqb c "/" && negb (String.eqb acc "") then
            mkItem itemMediaType acc :: mkItem itemMediaSep "/"
              :: lexFrom (inMediaSubType "") rest
          else if isSep && String.eqb acc "" then sep
          else [mkItem itemError "invalid character for media type"]
      | inMediaSubType acc =>
          if isTokenChar c then lexFrom (inMediaSubType (snoc acc c)) rest
          else if isSep && negb (String.eqb acc "") then
            mkItem itemMediaSubType acc :: sep
          else [mkItem itemError "invalid character for media subtype"]
      | inParamAttr acc =>
          if isAttrChar c then lexFrom (inParamAttr (snoc acc c)) rest
          else if Ascii.eqb c "=" && negb (String.eqb acc "") then
            mkItem itemParamAttr acc :: mkItem itemParamEqual "="
              :: lexFrom atParamVal rest
          else if Ascii.eqb c "," && String.eqb acc "base64" then
            mkItem itemBase64Enc acc :: lexData rest
          else [mkItem itemError "invalid character for parameter attribute"]
      | atParamVal =>
          if Ascii.eqb c dquote then
            mkItem itemLeftStringQuote dq :: lexFrom (inQuotedVal "") rest
          else if isSep then mkItem itemParamVal "" :: sep
          else lexFrom (inParamVal (String c EmptyString)) rest
      | inQuotedVal acc =>
          if Ascii.eqb c "\" then lexFrom (inQuotedEscape (snoc acc c)) rest
          else if Ascii.eqb c dquote then
            mkItem itemParamVal acc :: mkItem itemRightStringQuote dq
              :: lexFrom afterQuotedVal rest
          else lexFrom (inQuotedVal (snoc acc c)) rest
      | inQuotedEscape acc => lexFrom (inQuotedVal (snoc acc c)) rest
      | afterQuotedVal =>
          if isSep then sep
          else [mkItem itemError "invalid character after parameter value"]
      | inParamVal acc =>
          if isSep then mkItem itemParamVal acc :: sep
          else lexFrom (inParamVal (snoc acc c)) rest
      end
  end.

(** Modelled from the spec: state 1 of the lexer, "Prefix". *)
Definition lex (input : string) : list item :=
  if String.prefix dataPrefix input
  then mkItem itemDataPrefix dataPrefix
         :: lexFrom (inMediaType "") (str_drop (String.length dataPrefix) input)
  else [mkItem itemError "expected data: prefix"].

(** ** The data model *)

Definition EncodingBase64 : string := "base64".
Definition EncodingASCII : string := "ascii".

Record MediaType : Type := mkMediaType {
  Type_ : string;
  Subtype : string;
  Params : gmap string string
}.

Definition defaultMediaType : MediaType :=
  mkMediaType "text" "plain" {[ "charset" := "US-ASCII" ]}.

(** [Data] is a slice: [None] is nil. *)
Record DataURL : Type := mkDataURL {
  MediaType_ : MediaType;
  Encoding : string;
  Data : option (list ascii)
}.

Definition ContentType (mt : MediaType) : string :=
  Type_ mt ++ "/" ++ Subtype mt.

(** The loop of [MediaType.String] over the entries of [Params], in the
    order [kvs] in which the runtime ranges over the map. *)
Fixpoint params_String (kvs : list (string * string)) : string :=
  match kvs with
  | [] => ""
  | (k, v) :: kvs' => ";" ++ k ++ "=" ++ EscapeString v ++ params_String kvs'
  end.

(** An order in which [range mt.Params] may visit the entries: Go leaves
    the order unspecified. *)
Definition range_order (mt : MediaType) (kvs : list (string * string)) : Prop :=
  kvs ≡ₚ map_to_list (Params mt).

(** [MediaType.String], ranging over [Params] in the order [kvs]. *)
Definition MediaType_String (kvs : list (string * string)) (mt : MediaType) : string :=
  ContentType mt ++ params_String kvs.

(** ** The parser *)

Inductive encodedDataReader : Type :=
| asciiDataReader
| base64DataReader.

(** Calling a reader: the slice (nil on failure) and the error. *)
Definition read_data (r : encodedDataReader) (s : string)
    : option (list ascii) * option error :=
  match r with
  | asciiDataReader =>
      let '(us, err) := Unescape s in
      match err with
      | Some e => (None, Some e)
      | None => (Some us, None)
      end
  | base64DataReader =>
      let '(data, err) := base64.DecodeString s in
      match err with
      | Some e => (None, Some e)
      | None => (Some data, None)
      end
  end.

(** The parser without its lexer: the items of [p.l.items] are the list
    given to [parse]. A nil [encodedDataReaderFn] is [None]. *)
Record parser : Type := mkParser {
  du : DataURL;
  currentAttr : string;
  unquoteParamVal : bool;
  encodedDataReaderFn : option encodedDataReader
}.

Definition set_du (p : parser) (d : DataURL) : parser :=
  mkParser d (currentAttr p) (unquoteParamVal p) (encodedDataReaderFn p).

Definition set_MediaType (d : DataURL) (mt : MediaType) : DataURL :=
  mkDataURL mt (Encoding d) (Data d).

Inductive panic : Type :=
| EOFNotFound          (* panic("EOF not found") *)
| nilDereference.      (* a call of a nil function value *)

(** What one round of the loop of [parse] does. *)
Inductive flow : Type :=
| Next (p : parser)
| Return (p : parser) (err : option error)
| Panics (x : panic).

(** The body of the loop of [parse]: the switch on [item.t]. *)
Definition parse_item (p : parser) (it : item) : flow :=
  let mt := MediaType_ (du p) in
  match t it with
  | itemError => Return p (Some (errorString (item_String it)))
  | itemMediaType =>
      Next (set_du p (set_MediaType (du p)
              (mkMediaType (val it) (Subtype mt) (delete "charset" (Params mt)))))
  | itemMediaSubType =>
      Next (set_du p (set_MediaType (du p)
              (mkMediaType (Type_ mt) (val it) (Params mt))))
  | itemParamAttr =>
      Next (mkParser (du p) (val it) (unquoteParamVal p) (encodedDataReaderFn p))
  | itemLeftStringQuote =>
      Next (mkParser (du p) (currentAttr p) true (encodedDataReaderFn p))
  | itemParamVal =>
      let '(p, (us, err)) :=
        if unquoteParamVal p then
          (mkParser (du p) (currentAttr p) false (encodedDataReaderFn p),
           strconv.Unquote (dq ++ val it ++ dq))
        else (p, UnescapeToString (val it)) in
      match err with
      | Some e => Return p (Some e)
      | None =>
          Next (set_du p (set_MediaType (du p)
                  (mkMediaType (Type_ mt) (Subtype mt)
                               (<[ currentAttr p := us ]> (Params mt)))))
      end
  | itemBase64Enc =>
      Next (mkParser (mkDataURL mt EncodingBase64 (Data (du p)))
                     (currentAttr p) (unquoteParamVal p) (Some base64DataReader))
  | itemDataComma =>
      match encodedDataReaderFn p with
      | None => Next (mkParser (du p) (currentAttr p) (unquoteParamVal p)
                               (Some asciiDataReader))
      | Some _ => Next p
      end
  | itemData =>
      match encodedDataReaderFn p with
      | None => Panics nilDereference
      | Some fn =>
          let '(reader, err) := read_data fn (val it) in
          match err with
          | Some e => Return p (Some e)
          | None => Next (set_du p (mkDataURL mt (Encoding (du p)) reader))
          end
      end
  | itemEOF =>
      match Data (du p) with
      | None => Return (set_du p (mkDataURL mt (Encoding (du p)) (Some []))) None
      | Some _ => Return p None
      end
  | _ => Next p
  end.

(** What a call of [parse] ends in. *)
Inductive outcome : Type :=
| Returned (p : parser) (err : option error)
| Panicked (x : panic).

(** [parser.parse]: the loop over the items; when they run out the
    function panics. *)
Fixpoint parse (p : parser) (items : list item) : outcome :=
  match items with
  | [] => Panicked EOFNotFound
  | it :: items' =>
      match parse_item p it with
      | Next p' => parse p' items'
      | Return p' err => Returned p' err
      | Panics x => Panicked x
      end
  end.

(** The state in which [DecodeString] starts its parser. *)
Definition newParser : parser :=
  mkParser (mkDataURL defaultMediaType EncodingASCII None) "" false None.

(** What a call of [DecodeString] ends in: its two results, or a panic. *)
Inductive decoded : Type :=
| Result (du : option DataURL) (err : option error)
| Panic (x : panic).

(** [DecodeString] from the items of [lex(s)] on. *)
Definition DecodeItems (items : list item) : decoded :=
  match parse newParser items with
  | Returned p (Some err) => Result None (Some err)
  | Returned p None => Result (Some (du p)) None
  | Panicked x => Panic x
  end.

Definition DecodeString (s : string) : decoded := DecodeItems (lex s).

(** ** The serializer *)

(** [int64(z)]: two's complement wrap-around on 64 bits. *)
Definition int64 (z : Z) : Z := (z + 2 ^ 63) mod 2 ^ 64 - 2 ^ 63.

(** [n += int64(ni)]. *)
Definition add64 (n ni : Z) : Z := int64 (n + ni).

(** The payload of a [DataURL] as a sequence of bytes: a nil slice has
    none. *)
Definition data_bytes (d : DataURL) : list ascii := default [] (Data d).

Section Writer.

(** An [io.Writer]: a sink of type [W] whose [Write] takes the sink and
    the bytes and gives the sink afterwards, [n] and [err]. Nothing is
    assumed of it. *)
Context {W : Type}.
Variable Write : W -> list ascii -> W * (Z * option error).

(** [fmt.Fprint(w, s)] for one string operand: one call of [w.Write]. *)
Definition Fprint (w : W) (s : string) : W * (Z * option error) :=
  Write w (bytes_of_string s).

(** The size of the next chunk [encoder.Write] encodes: [len(e.out)/4*3]
    bytes, or what is left rounded down to whole triples. *)
Definition chunk_size (p : list ascii) : nat :=
  if (length p <? 768)%nat then (length p - length p mod 3)%nat else 768%nat.

(** [encoder.Write(p)] on a new encoder (its buffer is empty and it has no
    error, so the leading fringe is not entered): the loop over the
    "large interior chunks", each encoded and written to [w]. The
    results are the sink, [n], the error and the bytes kept in [e.buf].
    Every round takes at least three bytes, so the length of [p] is fuel
    enough. *)
Fixpoint encoder_Write_loop (fuel : nat) (w : W) (p : list ascii) (n : Z)
    : W * (Z * option error) * list ascii :=
  match fuel with
  | O => (w, (n + Z.of_nat (length p), None), p)
  | S fuel' =>
      if (length p <? 3)%nat then (w, (n + Z.of_nat (length p), None), p)
      else
        let nn := chunk_size p in
        let '(w', (_, err)) := Write w (base64.Encode (take nn p)) in
        match err with
        | Some e => (w', (n, Some e), [])
        | None => encoder_Write_loop fuel' w' (drop nn p) (n + Z.of_nat nn)
        end
  end.

Definition encoder_Write (w : W) (p : list ascii)
    : W * (Z * option error) * list ascii :=
  encoder_Write_loop (length p) w p 0.

(** [encoder.Close()] after a [Write] that did not fail: the bytes left
    in the buffer are encoded and written. *)
Definition encoder_Close (w : W) (buf : list ascii) : W * option error :=
  if (0 <? length buf)%nat then
    let '(w', (_, err)) := Write w (base64.Encode buf) in (w', err)
  else (w, None).

(** [DataURL.WriteTo(w)], with [kvs] the order in which
    [MediaType.String] ranges over [Params]: the sink afterwards, [n]
    and [err]. *)
Definition WriteTo (kvs : list (string * string)) (d : DataURL) (w : W)
    : W * (Z * option error) :=
  let n := 0 in
  let '(w, (ni, _)) := Fprint w "data:" in
  let n := add64 n ni in
  let '(w, (ni, _)) := Fprint w (MediaType_String kvs (MediaType_ d)) in
  let n := add64 n ni in
  let '(w, n) :=
    if String.eqb (Encoding d) EncodingBase64 then
      let '(w, (ni, _)) := Fprint w ";base64" in (w, add64 n ni)
    else (w, n) in
  let '(w, (ni, _)) := Fprint w "," in
  let n := add64 n ni in
  if String.eqb (Encoding d) EncodingBase64 then
    let '(w, (ni, err), buf) := encoder_Write w (data_bytes d) in
    match err with
    | Some e => (w, (n, Some e))
    | None => let '(w, _) := encoder_Close w buf in (w, (n, None))
    end
  else if String.eqb (Encoding d) EncodingASCII then
    let '(w, (ni, _)) := Fprint w (Escape (data_bytes d)) in
    (w, (add64 n ni, None))
  else
    (w, (n, Some (errorString ("dataurl: invalid encoding " ++ Encoding d)))).

End Writer.

(** [bytes.Buffer.Write]: the bytes are appended and all of them count. *)
Definition Buffer_Write (b p : list ascii) : list ascii * (Z * option error) :=
  (b ++ p, (Z.of_nat (length p), None)).

(** [DataURL.String]: [WriteTo] into a new buffer. *)
Definition DataURL_String (kvs : list (string * string)) (d : DataURL) : string :=
  string_of_bytes (fst (WriteTo Buffer_Write kvs d [])).

(** ** What the specification says of the escaper *)

(** The unreserved set of the specification: "ASCII letters, digits, and
    the literal characters -_.!~*'()". *)
Definition unreserved (c : ascii) : bool :=
  isLetterOrDigit c || contains "-_.!~*'()" c.

(** The value of a hex digit, upper or lower case. *)
Definition hex_value (c : ascii) : option N :=
  match index "0123456789abcdef" c with
  | Some i => Some (N.of_nat i)
  | None => N.of_nat <$> index "0123456789ABCDEF" c
  end.

Definition is_hex_digit (c : ascii) : bool := bool_decide (is_Some (hex_value c)).

(** [%XX] with upper case hex digits, as the specification writes an
    escaped byte. *)
Definition percent_XX (c : ascii) : string :=
  String "%" (String (url.upperhex_at (byte_val c / 16))
             (String (url.upperhex_at (byte_val c mod 16)) EmptyString)).

(** [escape] as the specification states it: the unreserved bytes are
    left as they are and every other byte is written [%XX]. *)
Fixpoint spec_escape (b : list ascii) : string :=
  match b with
  | [] => ""
  | c :: b' =>
      (if unreserved c then String c EmptyString else percent_XX c)
        ++ spec_escape b'
  end.

(** "A byte sequence consisting only of unreserved characters or valid
    [%XX] escapes". *)
Fixpoint escaped_form (s : string) : bool :=
  match s with
  | EmptyString => true
  | String c s' =>
      if Ascii.eqb c "%" then
        match s' with
        | String a (String b s'') =>
            is_hex_digit a && is_hex_digit b && escaped_form s''
        | _ => false
        end
      else unreserved c && escaped_form s'
  end.

(** Two hex digits start [s]. *)
Definition two_hex (s : string) : Prop :=
  exists a b s', s = String a (String b s')
                 /\ is_hex_digit a = true /\ is_hex_digit b = true.

(** Some [%] of [s] is not followed by two hex digits. *)
Definition bad_percent (s : string) : Prop :=
  exists pre post : string, s = (pre ++ String "%" post)%string /\ ~ two_hex post.

(** [unescape] as the specification states it, on an input without a bad
    [%]: every [%XX] becomes the byte of value [XX], every other
    character stays. *)
Fixpoint spec_unescape (s : string) : list ascii :=
  match s with
  | EmptyString => []
  | String c s' =>
      if Ascii.eqb c "%" then
        match s' with
        | String a (String b s'') =>
            ascii_of_N (16 * default 0%N (hex_value a) + default 0%N (hex_value b))
              :: spec_unescape s''
        | _ => []
        end
      else c :: spec_unescape s'
  end.

(** ** What the specification says of the parser *)

(** The parser after the loop of [parse] has gone through [items] without
    returning; [None] when it returned or panicked on the way. *)
Fixpoint rounds (p : parser) (items : list item) : option parser :=
  match items with
  | [] => Some p
  | it :: items' =>
      match parse_item p it with
      | Next p' => rounds p' items'
      | _ => None
      end
  end.

Definition params_of (p : parser) : gmap string string :=
  Params (MediaType_ (du p)).

Definition is_kind (k : itemType) (it : item) : bool :=
  bool_decide (t it = k).

(** An explicit [charset] parameter appears among [items]: a ParamAttr
    item [charset] and, before any other ParamAttr item, a ParamVal
    item. *)
Definition explicit_charset (items : list item) : Prop :=
  exists l1 l2 l3 v,
    items = l1 ++ mkItem itemParamAttr "charset" :: l2 ++ mkItem itemParamVal v :: l3
    /\ forallb (fun it => negb (is_kind itemParamAttr it)) l2 = true.


(** The last ParamAttr item of [items] is [charset]: a value that comes
    next is stored under that name. *)
Definition charset_pending (items : list item) : Prop :=
  exists l1 l2,
    items = l1 ++ mkItem itemParamAttr "charset" :: l2
    /\ forallb (fun it => negb (is_kind itemParamAttr it)) l2 = true.

(** A MediaType item is among [items]. *)
Definition has_MediaType (items : list item) : bool :=
  existsb (is_kind itemMediaType) items.


(** ** What the serializer needs of a parsed value *)

Fixpoint all_chars (P : ascii -> bool) (s : string) : bool :=
  match s with
  | EmptyString => true
  | String c s' => P c && all_chars P s'
  end.

(** A type or subtype as the lexer reads one: one or more characters of
    the token charset. *)
Definition token_text (s : string) : bool :=
  negb (String.eqb s "") && all_chars isTokenChar s.

(** An attribute name as the lexer reads one. *)
Definition attr_text (s : string) : bool :=
  negb (String.eqb s "") && all_chars isAttrChar s.

(** The items of a lexer that [parse] can turn into a value that can be
    written back: types, subtypes and attribute names are well formed
    and a value comes after an attribute name ([attr] tells whether one
    has been seen). *)
Fixpoint wf_items (attr : bool) (items : list item) : bool :=
  match items with
  | [] => true
  | it :: items' =>
      match t it with
      | itemMediaType | itemMediaSubType => token_text (val it) && wf_items attr items'
      | itemParamAttr => attr_text (val it) && wf_items true items'
      | itemParamVal => attr && wf_items attr items'
      | _ => wf_items attr items'
      end
  end.

(** The values [DecodeString] returns: the type and subtype are token
    texts, the parameter names are attribute texts, the encoding is one
    of the two constants and the data is not nil. *)
Record wf_DataURL (d : DataURL) : Prop := {
  wf_Type : token_text (Type_ (MediaType_ d)) = true;
  wf_Subtype : token_text (Subtype (MediaType_ d)) = true;
  wf_Params : forall k v, Params (MediaType_ d) !! k = Some v -> attr_text k = true;
  wf_Encoding : Encoding d = EncodingASCII \/ Encoding d = EncodingBase64;
  wf_Data : is_Some (Data d)
}.

(** What the lexer has checked of the text it is gathering. *)
Definition state_ok (st : lexState) : bool :=
  match st with
  | inMediaType acc | inMediaSubType acc => all_chars isTokenChar acc
  | inParamAttr acc => all_chars isAttrChar acc
  | _ => true
  end.

(** The lexer is reading a value: an attribute name has been sent. *)
Definition in_value (st : lexState) : bool :=
  match st with
  | atParamVal | inQuotedVal _ | inQuotedEscape _ | inParamVal _ => true
  | _ => false
  end.

(** The items of one parameter as [MediaType.String] writes it. *)
Definition param_items (kv : string * string) : list item :=
  [mkItem itemParamSemicolon ";"; mkItem itemParamAttr kv.1;
   mkItem itemParamEqual "="; mkItem itemParamVal (EscapeString kv.2)].

(** The parser on its way to a well formed value; [attr] tells whether
    the current attribute has been set. *)
Definition wf_parser (attr : bool) (p : parser) : Prop :=
  token_text (Type_ (MediaType_ (du p))) = true
  /\ token_text (Subtype (MediaType_ (du p))) = true
  /\ (forall k v, params_of p !! k = Some v -> attr_text k = true)
  /\ (Encoding (du p) = EncodingASCII \/ Encoding (du p) = EncodingBase64)
  /\ (attr = true -> attr_text (currentAttr p) = true).

(** ** Auxiliary definitions of the proofs *)

(** The 256 bytes. *)
Definition all_bytes : list ascii := map ascii_of_nat (seq 0 256).

(** A sink that takes nothing and fails every write. *)
Definition failing_Write (w : unit) (p : list ascii) : unit * (Z * option error) :=
  (w, (0, Some (writeError 5))).

(** The number four values of six bits are gathered into. *)
Definition val4 (x0 x1 x2 x3 : Z) : Z :=
  Z.lor (Z.lor (Z.lor (Z.shiftl x0 18) (Z.shiftl x1 12)) (Z.shiftl x2 6)) x3.

(** What the lexer sends from a [;] or [,] on, after a type, subtype or
    value. *)
Definition at_sep (s : string) : list item :=
  match s with
  | EmptyString => []
  | String c rest =>
      if Ascii.eqb c ";"
      then mkItem itemParamSemicolon ";" :: lexFrom (inParamAttr "") rest
      else lexData rest
  end.

Definition isSep (c : ascii) : bool := Ascii.eqb c ";" || Ascii.eqb c ",".

(** [s] starts with a [;] or a [,]. *)
Definition starts_with_sep (s : string) : bool :=
  match s with
  | EmptyString => false
  | String c _ => isSep c
  end.

(** A character [Escape] may write. *)
Definition escaped_char (c : ascii) : bool :=
  negb (isSep c) && negb (Ascii.eqb c dquote).

(** ** What the escaper writes and reads *)

(** The characters [Escape] writes: the bytes [shouldEscape] lets
    through and the [%] of an escape with its upper case hex digits. *)
Definition escape_output_char (c : ascii) : bool :=
  in_range "a" "z" c || in_range "A" "Z" c || in_range "0" "9" c
  || contains "-_.~$&+:=@%" c.

(** The number of [%] in [s]. *)
Fixpoint count_percent (s : string) : nat :=
  match s with
  | EmptyString => 0%nat
  | String c s' => ((if Ascii.eqb c "%" then 1 else 0) + count_percent s')%nat
  end.

(** [s] starts with two hex digits, as [ishex] tells them. *)
Definition starts_two_hex (s : string) : bool :=
  match s with
  | String a (String b _) => url.ishex a && url.ishex b
  | _ => false
  end.

(** ** What the parser needs of its items *)

(** An item that sets the reader of the payload. *)
Definition sets_reader (it : item) : bool :=
  is_kind itemDataComma it || is_kind itemBase64Enc it.

(** An item at which [parse] returns, whatever its state. *)
Definition ends_parse (it : item) : bool :=
  is_kind itemEOF it || is_kind itemError it.

(** Every Data item of [items] comes after an item that sets the reader;
    [seen] tells whether one came before [items]. *)
Fixpoint data_guarded (seen : bool) (items : list item) : bool :=
  match items with
  | [] => true
  | it :: items' =>
      if sets_reader it then data_guarded true items'
      else if is_kind itemData it then seen && data_guarded seen items'
      else data_guarded seen items'
  end.

(** The reader in force after [items], from the start of [DecodeString]:
    base64 once a Base64Enc item came, whatever came before or after. *)
Definition reader_after (items : list item) : option encodedDataReader :=
  if existsb (is_kind itemBase64Enc) items then Some base64DataReader
  else if existsb (is_kind itemDataComma) items then Some asciiDataReader
  else None.

(** The encoding after [items], from the start of [DecodeString]. *)
Definition encoding_after (items : list item) : string :=
  if existsb (is_kind itemBase64Enc) items then EncodingBase64 else EncodingASCII.

(** ** io: readers, [ReadAll] and [Decode] *)

(** The error of a [Read]: [io.EOF], which [ReadAll] takes for the end
    of the input, or another error. *)
Inductive readError : Type :=
| EOF
| readFailure (e : error).

(** What a call of [ReadAll] ends in. It goes on for as long as the
    reader gives no error; the rounds of the loop are counted here, and
    [ReadAllGoesOn] says that those given were not enough. *)
Inductive readAll : Type :=
| ReadAllReturns (b : list ascii) (err : option error)
| ReadAllPanics      (* [b[:len(b)+n]] with [n] past the capacity *)
| ReadAllGoesOn.

(** What a call of [Decode] ends in. *)
Inductive decodedFrom : Type :=
| Decoded (r : decoded)
| ReadPanics
| ReadGoesOn.

Section Reader.

(** An [io.Reader]: [Read r n] is a call of [r.Read(p)] with [len(p) = n]
    and gives the reader afterwards, the bytes put into [p] (their number
    is the [n] that Go's [Read] returns) and the error. Nothing is
    assumed of it. *)
Context {R : Type}.
Variable Read : R -> nat -> R * (list ascii * option readError).

(** The capacity [append] picks for a full slice of the given capacity. *)
Variable grow : nat -> nat.

(** The loop of [io.ReadAll], to which [ioutil.ReadAll] forwards: read
    into the spare capacity [b[len(b):cap(b)]], return at the first
    error ([io.EOF] is a nil error), grow the slice when it is full. *)
Fixpoint ReadAll_loop (fuel : nat) (r : R) (b : list ascii) (cap : nat) : readAll :=
  match fuel with
  | O => ReadAllGoesOn
  | S fuel' =>
      let '(r', (p, err)) := Read r (cap - length b) in
      if (cap - length b <? length p)%nat then ReadAllPanics
      else
        let b := b ++ p in
        match err with
        | Some EOF => ReadAllReturns b None
        | Some (readFailure e) => ReadAllReturns b (Some e)
        | None =>
            ReadAll_loop fuel' r' b (if (length b =? cap)%nat then grow cap else cap)
        end
  end.

(** [ReadAll(r)]: the slice starts empty with capacity 512. *)
Definition ReadAll (fuel : nat) (r : R) : readAll := ReadAll_loop fuel r [] 512.

(** [Decode(r)]. *)
Definition Decode (fuel : nat) (r : R) : decodedFrom :=
  match ReadAll fuel r with
  | ReadAllReturns data (Some err) => Decoded (Result None (Some err))
  | ReadAllReturns data None => Decoded (DecodeString (string_of_bytes data))
  | ReadAllPanics => ReadPanics
  | ReadAllGoesOn => ReadGoesOn
  end.

End Reader.

(** [strings.Reader], the reader the package's tests give to [Decode]:
    the string and the index of the next byte. *)
Module strings.

Record Reader : Type := mkReader { s : string; i : nat }.

Definition NewReader (s : string) : Reader := mkReader s 0.

(** [Reader.Read]: [io.EOF] at the end, else [copy(b, r.s[r.i:])]. *)
Definition Read (r : Reader) (n : nat) : Reader * (list ascii * option readError) :=
  if (String.length (s r) <=? i r)%nat then (r, ([], Some EOF))
  else
    let p := take n (drop (i r) (bytes_of_string (s r))) in
    (mkReader (s r) (i r + length p), (p, None)).

End strings.

(** ** What the readers of the payload refuse *)

(** A character of the alphabet of [StdEncoding]. *)
Definition in_alphabet (c : ascii) : bool := negb (base64.decodeMap c =? 255).

(** ** Quoted values with nothing to unquote *)

(** A value with no backslash, no double quote and no newline that is
    valid UTF-8. *)
Definition plain_quoted (v : string) : bool :=
  negb (contains v "\") && negb (contains v dquote) && negb (contains v "010")
  && utf8.ValidString v.

(** ** The media type the items give *)

(** The value of the last item of kind [k] among [items], [d] when there
    is none. *)
Fixpoint last_val (k : itemType) (d : string) (items : list item) : string :=
  match items with
  | [] => d
  | it :: items' => last_val k (if is_kind k it then val it else d) items'
  end.

(** ** Items that carry no value for the parser *)

(** The items whose kind is not a case of the switch of [parse]: the
    prefix, the separators and the closing quote. *)
Definition is_punctuation (it : item) : bool :=
  is_kind itemDataPrefix it || is_kind itemMediaSep it
  || is_kind itemParamSemicolon it || is_kind itemParamEqual it
  || is_kind itemRightStringQuote it.
(** * Proofs *)

(** ** Bytes *)

Lemma in_all_bytes (c : ascii) : In c all_bytes.
Proof.
  rewrite <- (ascii_nat_embedding c). apply in_map, in_seq.
  pose proof (nat_ascii_bounded c). lia.
Qed.

(** A boolean property of bytes holds of all of them when it holds of
    each of the 256. *)
Lemma forall_bytes (P : ascii -> bool) :
  forallb P all_bytes = true -> forall c, P c = true.
Proof.
  intros H c. rewrite forallb_forall in H. apply H, in_all_bytes.
Qed.

Ltac by_bytes c :=
  revert c; cbv zeta;
  match goal with
  | |- forall c, @?P c = true => apply (forall_bytes P); vm_compute; reflexivity
  end.

Lemma bytes_string_bytes (b : list ascii) :
  bytes_of_string (string_of_bytes b) = b.
Proof. apply list_ascii_of_string_of_list_ascii. Qed.

Lemma string_bytes_string (s : string) :
  string_of_bytes (bytes_of_string s) = s.
Proof. apply string_of_list_ascii_of_string. Qed.

Lemma append_String (c : ascii) (s u : string) :
  (String c s ++ u)%string = String c (s ++ u)%string.
Proof. reflexivity. Qed.

Lemma append_Empty (u : string) : ("" ++ u)%string = u.
Proof. reflexivity. Qed.

Lemma append_assoc (s u v : string) :
  ((s ++ u) ++ v)%string = (s ++ u ++ v)%string.
Proof.
  induction s as [|c s IH]; [done|]. rewrite !append_String. by rewrite IH.
Qed.

(** ** The escaper *)

Lemma shouldEscape_not_percent (c : ascii) :
  implb (negb (url.shouldEscape c)) (negb (Ascii.eqb c "%")) = true.
Proof. by_bytes c. Qed.

Lemma escaped_digits (c : ascii) :
  let hi := url.upperhex_at (N.shiftr (byte_val c) 4) in
  let lo := url.upperhex_at (N.land (byte_val c) 15) in
  url.ishex hi && url.ishex lo
  && Ascii.eqb (ascii_of_N (N.lor (N.shiftl (url.unhex hi) 4) (url.unhex lo))) c
  = true.
Proof. by_bytes c. Qed.

Lemma escape_loop_id (s : string) :
  url.hexCount s = 0%nat -> url.escape_loop s = s.
Proof.
  induction s as [|c s IH]; simpl; [done|].
  destruct (url.shouldEscape c); [done|]. intros H. by rewrite IH.
Qed.

Lemma escape_is_loop (s : string) : url.escape s = url.escape_loop s.
Proof.
  unfold url.escape. destruct (Nat.eqb_spec (url.hexCount s) 0) as [H|H]; [|done].
  by rewrite escape_loop_id.
Qed.

Lemma check_escape_loop (s : string) (n : nat) :
  url.check (url.escape_loop s) n = inl (n + url.hexCount s)%nat.
Proof.
  revert n. induction s as [|c s IH]; intros n; simpl.
  - f_equal. lia.
  - pose proof (escaped_digits c) as Hd. pose proof (shouldEscape_not_percent c) as Hp.
    destruct (url.shouldEscape c); simpl in *.
    + apply andb_prop in Hd as [Hd _]. rewrite Hd, IH. f_equal. lia.
    + apply negb_true_iff in Hp. rewrite Hp, IH. f_equal.
Qed.

Lemma unescape_loop_escape_loop (s : string) :
  url.unescape_loop (url.escape_loop s) = s.
Proof.
  induction s as [|c s IH]; simpl; [done|].
  pose proof (escaped_digits c) as Hd. pose proof (shouldEscape_not_percent c) as Hp.
  destruct (url.shouldEscape c); simpl in *.
  - apply andb_prop in Hd as [_ Hd]. apply Ascii.eqb_eq in Hd. by rewrite Hd, IH.
  - apply negb_true_iff in Hp. by rewrite Hp, IH.
Qed.

(** [PathUnescape] undoes [PathEscape], on every string. *)
Lemma PathUnescape_PathEscape (s : string) :
  url.PathUnescape (url.PathEscape s) = (s, None).
Proof.
  unfold url.PathUnescape, url.PathEscape, url.unescape.
  rewrite escape_is_loop, check_escape_loop. simpl.
  destruct (Nat.eqb_spec (url.hexCount s) 0) as [H|H].
  - by rewrite escape_loop_id.
  - by rewrite unescape_loop_escape_loop.
Qed.

Lemma Unescape_Escape (x : list ascii) : Unescape (Escape x) = (x, None).
Proof.
  unfold Unescape, Escape. rewrite PathUnescape_PathEscape.
  by rewrite bytes_string_bytes.
Qed.

Lemma UnescapeToString_EscapeString (s : string) :
  UnescapeToString (EscapeString s) = (s, None).
Proof. apply PathUnescape_PathEscape. Qed.

(** *** [Unescape] against the specification *)

Lemma ishex_is_hex_digit (c : ascii) : Bool.eqb (url.ishex c) (is_hex_digit c) = true.
Proof. by_bytes c. Qed.

Lemma percent_not_hex : is_hex_digit "%" = false.
Proof. reflexivity. Qed.

Lemma unhex_hex_value (a : ascii) :
  forallb (fun b =>
    implb (url.ishex a && url.ishex b)
      (Ascii.eqb
         (ascii_of_N (N.lor (N.shiftl (url.unhex a) 4) (url.unhex b)))
         (ascii_of_N (16 * default 0%N (hex_value a) + default 0%N (hex_value b)))))
    all_bytes = true.
Proof. by_bytes a. Qed.

Lemma unhex_pair (a b : ascii) :
  url.ishex a = true -> url.ishex b = true ->
  ascii_of_N (N.lor (N.shiftl (url.unhex a) 4) (url.unhex b))
  = ascii_of_N (16 * default 0%N (hex_value a) + default 0%N (hex_value b)).
Proof.
  intros Ha Hb. pose proof (unhex_hex_value a) as H.
  rewrite forallb_forall in H. specialize (H b (in_all_bytes b)).
  rewrite Ha, Hb in H. by apply Ascii.eqb_eq.
Qed.

(** Induction along the way [unescape] reads a string: a plain
    character, a [%] with two characters after it, a [%] with fewer. *)
Lemma percent_ind (P : string -> Prop) :
  P "" ->
  (forall c s, Ascii.eqb c "%" = false -> P s -> P (String c s)) ->
  (forall a b s, P s -> P (String "%" (String a (String b s)))) ->
  P (String "%" "") ->
  (forall a, P (String "%" (String a ""))) ->
  forall s, P s.
Proof.
  intros H0 H1 H2 H3 H4. fix IH 1. intros [|c s]; [exact H0|].
  destruct (Ascii.eqb c "%") eqn:E.
  - apply Ascii.eqb_eq in E. subst c.
    destruct s as [|a [|b s]]; [exact H3|apply H4|apply H2, IH].
  - apply H1; [exact E|apply IH].
Qed.

Lemma bad_percent_cons (c : ascii) (s : string) :
  bad_percent s -> bad_percent (String c s).
Proof.
  intros (pre & post & -> & H). exists (String c pre), post. done.
Qed.

Lemma bad_percent_plain (c : ascii) (s : string) :
  Ascii.eqb c "%" = false -> bad_percent (String c s) -> bad_percent s.
Proof.
  intros Hc (pre & post & E & H). destruct pre as [|d pre]; simpl in E.
  - injection E as -> _. by rewrite Ascii.eqb_refl in Hc.
  - injection E as _ ->. by exists pre, post.
Qed.

Lemma bad_percent_escape (a b : ascii) (s : string) :
  is_hex_digit a = true -> is_hex_digit b = true ->
  bad_percent (String "%" (String a (String b s))) -> bad_percent s.
Proof.
  intros Ha Hb (pre & post & E & H). destruct pre as [|d pre]; simpl in E.
  - injection E as <-. destruct H. by exists a, b, s.
  - injection E as _ E. destruct pre as [|d1 pre]; simpl in E.
    + injection E as -> _. by rewrite percent_not_hex in Ha.
    + injection E as _ E. destruct pre as [|d2 pre]; simpl in E.
      * injection E as -> _. by rewrite percent_not_hex in Hb.
      * injection E as _ ->. by exists pre, post.
Qed.

Lemma bad_percent_here (post : string) :
  ~ two_hex post -> bad_percent (String "%" post).
Proof. intros H. by exists "", post. Qed.

(** What the first loop of [unescape] finds, and what the second then
    builds. *)
Lemma check_spec (s : string) :
  forall n,
    match url.check s n with
    | inl m =>
        ~ bad_percent s /\ (n <= m)%nat
        /\ bytes_of_string (url.unescape_loop s) = spec_unescape s
        /\ (m = n -> url.unescape_loop s = s)
    | inr e => bad_percent s /\ exists x, e = EscapeError x
    end.
Proof.
  induction s as [|c s Hc IH|a b s IH| |a] using percent_ind; intros n.
  - simpl. split_and!; [|lia|done|done].
    intros (pre & post & E & _). by destruct pre.
  - specialize (IH n). simpl. rewrite Hc. destruct (url.check s n) as [m|e].
    + destruct IH as (Hb & Hn & Hs & Hm). split_and!; [|done| |].
      * intros H. by apply Hb, (bad_percent_plain c).
      * simpl. by rewrite Hs.
      * intros E. by rewrite Hm.
    + destruct IH as [Hb He]. split; [by apply bad_percent_cons|done].
  - cbn [url.check url.unescape_loop spec_unescape Ascii.eqb Bool.eqb].
    pose proof (ishex_is_hex_digit a) as Ea. pose proof (ishex_is_hex_digit b) as Eb.
    apply Bool.eqb_prop in Ea, Eb.
    destruct (url.ishex a) eqn:Ha, (url.ishex b) eqn:Hb; simpl;
      try (split; [|by eexists]; apply bad_percent_here;
           intros (a' & b' & s' & [= <- <- <-] & ? & ?); congruence).
    specialize (IH (S n)). destruct (url.check s (S n)) as [m|e].
    + destruct IH as (Hbad & Hn & Hs & Hm). split_and!; [|lia| |lia].
      * intros H. by apply Hbad, (bad_percent_escape a b).
      * simpl. by rewrite Hs, unhex_pair.
    + destruct IH as [Hbad He]. split; [|done].
      by do 3 apply bad_percent_cons.
  - simpl. split; [|by eexists]. apply bad_percent_here.
    by intros (a' & b' & s' & [=] & _).
  - simpl. split; [|by eexists]. apply bad_percent_here.
    by intros (a' & b' & s' & [=] & _).
Qed.

Lemma Escape_cons (c : ascii) (x : list ascii) :
  Escape (c :: x) = (Escape [c] ++ Escape x)%string.
Proof.
  unfold Escape, url.PathEscape. rewrite !escape_is_loop. simpl.
  by destruct (url.shouldEscape c).
Qed.

Lemma Escape_unreserved_byte (c : ascii) :
  implb (negb (contains "!*'()$&+:=@" c))
        (String.eqb (Escape [c]) (spec_escape [c])) = true.
Proof. by_bytes c. Qed.

(** C2 (the code departs from it). [Escape] is [url.PathEscape]: it
    escapes the five characters [!*'()] that the unreserved set of the
    claim leaves alone, and leaves alone the six characters [$&+:=@] that
    the claim escapes; on every other byte it does what the claim says,
    and a space becomes [%20]. *)
Theorem Escape_departs_from_unreserved :
  Escape (bytes_of_string "!*'()") = "%21%2A%27%28%29"
  /\ spec_escape (bytes_of_string "!*'()") = "!*'()"
  /\ Escape (bytes_of_string "$&+:=@") = "$&+:=@"
  /\ spec_escape (bytes_of_string "$&+:=@") = "%24%26%2B%3A%3D%40"
  /\ Escape (bytes_of_string " ") = "%20"
  /\ forall c, contains "!*'()$&+:=@" c = false -> Escape [c] = spec_escape [c].
Proof.
  split_and!; try reflexivity.
  intros c Hc. pose proof (Escape_unreserved_byte c) as H.
  rewrite Hc in H. by apply String.eqb_eq.
Qed.

(** C6. For every byte sequence [x] made only of unreserved characters
    and valid [%XX] escapes, unescaping the escaped [x] gives [x] back,
    with no error. *)
Theorem Unescape_Escape_escaped_form (x : list ascii) :
  escaped_form (string_of_bytes x) = true ->
  Unescape (Escape x) = (x, None).
Proof. intros _. apply Unescape_Escape. Qed.

Lemma Unescape_Escape_escaped_form_witness :
  escaped_form "A%20brief~note" = true
  /\ Unescape (Escape (bytes_of_string "A%20brief~note"))
     = (bytes_of_string "A%20brief~note", None).
Proof.
  split; [reflexivity|].
  apply (Unescape_Escape_escaped_form (bytes_of_string "A%20brief~note")).
  reflexivity.
Defined.

(** C7. [Unescape] fails, with an [EscapeError] and no bytes, exactly
    when some [%] of its input is not followed by two hex digits;
    otherwise it succeeds and gives the input with every [%XX] replaced
    by the byte of value [XX] and every other character, [+] included,
    left as it is. *)
Theorem Unescape_decodes_or_fails (s : string) :
  (bad_percent s <-> exists x, Unescape s = ([], Some (EscapeError x)))
  /\ (~ bad_percent s <-> Unescape s = (spec_unescape s, None))
  /\ spec_unescape "a+b%2Bc" = bytes_of_string "a+b+c".
Proof.
  unfold Unescape, url.PathUnescape, url.unescape.
  pose proof (check_spec s 0) as H. destruct (url.check s 0) as [m|e].
  - destruct H as (Hbad & _ & Hs & Hm).
    assert (E : (if Nat.eqb m 0 then (s, None) else (url.unescape_loop s, @None error))
                = (url.unescape_loop s, None)).
    { destruct (Nat.eqb_spec m 0) as [->|]; [by rewrite Hm|done]. }
    rewrite E, Hs. split_and!; [|done|done].
    split; [done|]. by intros [x [=]].
  - destruct H as (Hbad & x & ->). simpl. split_and!; [|split|done].
    + split; [by exists x|done].
    + done.
    + intros [=].
Qed.

(** ** The parser *)

Lemma rounds_app (p : parser) (l1 l2 : list item) :
  rounds p (l1 ++ l2) = rounds p l1 ≫= fun q => rounds q l2.
Proof.
  revert p. induction l1 as [|it l1 IH]; intros p; simpl; [done|].
  destruct (parse_item p it); simpl; auto.
Qed.

Lemma parse_rounds (p q : parser) (pre rest : list item) :
  rounds p pre = Some q -> parse p (pre ++ rest) = parse q rest.
Proof.
  revert p. induction pre as [|it pre IH]; intros p; simpl.
  - by intros [= ->].
  - destruct (parse_item p it); try done. apply IH.
Qed.

(** A call of [parse] that returns went through some items and returned
    at the next one. *)
Lemma parse_Returned (p p' : parser) (items : list item) (err : option error) :
  parse p items = Returned p' err ->
  exists pre it rest q,
    items = pre ++ it :: rest /\ rounds p pre = Some q
    /\ parse_item q it = Return p' err.
Proof.
  revert p. induction items as [|it items IH]; intros p; simpl; [done|].
  destruct (parse_item p it) as [p1|p1 e1|x] eqn:E; [|intros [= <- <-]|done].
  - intros H. destruct (IH _ H) as (pre & it' & rest & q & -> & Hr & Hi).
    exists (it :: pre), it', rest, q. simpl. by rewrite E.
  - by exists [], it, items, p.
Qed.

(** The cases of the switch of [parse_item], one goal per kind of item
    and per result of the decoder it calls. *)
Ltac item_cases p it :=
  let k := fresh "k" in
  let v := fresh "v" in
  destruct it as [k v]; unfold parse_item; simpl;
  destruct k; simpl;
  repeat match goal with
    | |- context [unquoteParamVal p] => destruct (unquoteParamVal p) eqn:?
    | |- context [strconv.Unquote ?s] =>
        let us := fresh "us" in destruct (strconv.Unquote s) as [us [?|]] eqn:?
    | |- context [UnescapeToString ?s] =>
        let us := fresh "us" in destruct (UnescapeToString s) as [us [?|]] eqn:?
    | |- context [encodedDataReaderFn p] => destruct (encodedDataReaderFn p) eqn:?
    | |- context [read_data ?f ?s] =>
        let us := fresh "us" in destruct (read_data f s) as [us [?|]] eqn:?
    | |- context [Data (du p)] => destruct (Data (du p)) eqn:?
    end; simpl.

(** Only an EOF item makes [parse] return without an error, and the data
    it leaves is not nil. *)
Lemma parse_item_Return_nil (p p' : parser) (it : item) :
  parse_item p it = Return p' None ->
  t it = itemEOF
  /\ MediaType_ (du p') = MediaType_ (du p)
  /\ Encoding (du p') = Encoding (du p)
  /\ Data (du p') = Some (default [] (Data (du p))).
Proof. item_cases p it; intros [=]; by subst. Qed.

(** An item other than Data leaves the data as it is. *)
Lemma parse_item_Data (p p' : parser) (it : item) :
  parse_item p it = Next p' -> is_kind itemData it = false ->
  Data (du p') = Data (du p).
Proof. item_cases p it; intros [=]; by subst. Qed.

Lemma rounds_Data (p q : parser) (pre : list item) :
  rounds p pre = Some q ->
  forallb (fun it => negb (is_kind itemData it)) pre = true ->
  Data (du q) = Data (du p).
Proof.
  revert p. induction pre as [|it pre IH]; intros p; simpl.
  - by intros [= ->].
  - destruct (parse_item p it) as [p1| |] eqn:E; try done.
    intros Hr [Hk Hpre]%andb_prop. apply negb_true_iff in Hk.
    rewrite (IH _ Hr Hpre). by apply (parse_item_Data _ _ it).
Qed.

Lemma DecodeItems_inv (items : list item) (d : DataURL) :
  DecodeItems items = Result (Some d) None ->
  exists p, parse newParser items = Returned p None /\ d = du p.
Proof.
  unfold DecodeItems. destruct (parse newParser items) as [p [e|]|x]; try done.
  intros [= <-]. by exists p.
Qed.

(** C5. When the parser reaches an EOF item without having gone through a
    Data item, whatever the items before it (with or without a comma),
    [parse] returns no error and the result holds the media type and
    encoding gathered so far with an empty, non-nil data; and the data of
    every result [DecodeString] returns without an error is non-nil,
    whatever items its lexer sent. *)
Theorem EOF_without_Data_gives_empty_data :
  (forall (pre rest : list item) (v : string) (q : parser),
      rounds newParser pre = Some q ->
      forallb (fun it => negb (is_kind itemData it)) pre = true ->
      parse newParser (pre ++ mkItem itemEOF v :: rest)
        = Returned (set_du q (mkDataURL (MediaType_ (du q)) (Encoding (du q)) (Some []))) None
      /\ DecodeItems (pre ++ mkItem itemEOF v :: rest)
         = Result (Some (mkDataURL (MediaType_ (du q)) (Encoding (du q)) (Some []))) None)
  /\ (forall (items : list item) (d : DataURL),
         DecodeItems items = Result (Some d) None -> is_Some (Data d))
  /\ DecodeItems [mkItem itemDataPrefix dataPrefix; mkItem itemDataComma ",";
                  mkItem itemEOF ""]
     = Result (Some (mkDataURL defaultMediaType EncodingASCII (Some []))) None
  /\ DecodeItems [mkItem itemDataPrefix dataPrefix; mkItem itemEOF ""]
     = Result (Some (mkDataURL defaultMediaType EncodingASCII (Some []))) None.
Proof.
  assert (A : forall items d, DecodeItems items = Result (Some d) None -> is_Some (Data d)).
  { intros items d (p & Hp & ->)%DecodeItems_inv.
    apply parse_Returned in Hp as (pre & it & rest & q & _ & _ & Hi).
    apply parse_item_Return_nil in Hi as (_ & _ & _ & ->). by eexists. }
  split_and!; [|exact A|reflexivity|reflexivity].
  intros pre rest v q Hr Hpre.
  assert (E : parse newParser (pre ++ mkItem itemEOF v :: rest)
              = Returned (set_du q (mkDataURL (MediaType_ (du q)) (Encoding (du q)) (Some []))) None).
  { rewrite (parse_rounds _ _ _ _ Hr). simpl. unfold parse_item. simpl.
    by rewrite (rounds_Data _ _ _ Hr Hpre). }
  split; [exact E|]. unfold DecodeItems. by rewrite E.
Qed.

Lemma EOF_without_Data_gives_empty_data_witness :
  DecodeItems [mkItem itemDataPrefix dataPrefix; mkItem itemMediaType "image";
               mkItem itemMediaSep "/"; mkItem itemMediaSubType "png";
               mkItem itemDataComma ","; mkItem itemEOF ""]
  = Result (Some (mkDataURL (mkMediaType "image" "png" ∅) EncodingASCII (Some []))) None.
Proof.
  pose proof (proj1 EOF_without_Data_gives_empty_data
    [mkItem itemDataPrefix dataPrefix; mkItem itemMediaType "image";
     mkItem itemMediaSep "/"; mkItem itemMediaSubType "png";
     mkItem itemDataComma ","] [] ""
    (mkParser (mkDataURL (mkMediaType "image" "png" (delete "charset" (Params defaultMediaType)))
                         EncodingASCII None) "" false (Some asciiDataReader))
    eq_refl eq_refl) as [_ H].
  exact H.
Defined.

(** C8. When the parser reaches an Error item, [parse] returns at once
    with the item's message as the error, whatever follows; when a round
    of the loop fails, that first failure is what [DecodeString] returns,
    whatever follows; and whenever [DecodeString] returns an error its
    other result is nil, whatever items its lexer sent: no partly built
    [DataURL] reaches the caller. *)
Theorem Error_item_aborts_parse :
  (forall (pre rest : list item) (msg : string) (q : parser),
      rounds newParser pre = Some q ->
      parse newParser (pre ++ mkItem itemError msg :: rest)
        = Returned q (Some (errorString msg))
      /\ DecodeItems (pre ++ mkItem itemError msg :: rest)
         = Result None (Some (errorString msg)))
  /\ (forall (pre rest : list item) (it : item) (q q' : parser) (e : error),
         rounds newParser pre = Some q ->
         parse_item q it = Return q' (Some e) ->
         DecodeItems (pre ++ it :: rest) = Result None (Some e))
  /\ (forall (items : list item) (d : option DataURL) (e : error),
         DecodeItems items = Result d (Some e) -> d = None).
Proof.
  assert (A : forall items d e, DecodeItems items = Result d (Some e) -> d = None).
  { intros items d e. unfold DecodeItems.
    destruct (parse newParser items) as [p [e'|]|x]; by intros [=]. }
  split_and!; [| |exact A].
  - intros pre rest msg q Hr.
    assert (E : parse newParser (pre ++ mkItem itemError msg :: rest)
                = Returned q (Some (errorString msg))).
    { by rewrite (parse_rounds _ _ _ _ Hr). }
    split; [exact E|]. unfold DecodeItems. by rewrite E.
  - intros pre rest it q q' e Hr Hi. unfold DecodeItems.
    rewrite (parse_rounds _ _ _ _ Hr). simpl. by rewrite Hi.
Qed.

Lemma Error_item_aborts_parse_witness :
  DecodeItems [mkItem itemDataPrefix dataPrefix;
               mkItem itemError "invalid character for media type"]
  = Result None (Some (errorString "invalid character for media type")).
Proof.
  pose proof (proj1 Error_item_aborts_parse
    [mkItem itemDataPrefix dataPrefix] [] "invalid character for media type"
    newParser eq_refl) as [_ H].
  exact H.
Defined.

(** *** The default charset *)

(** What a round that goes on does to the current attribute and to the
    parameters. *)
Lemma parse_item_Next_params (p p' : parser) (it : item) :
  parse_item p it = Next p' ->
  currentAttr p' = (if is_kind itemParamAttr it then val it else currentAttr p)
  /\ match t it with
     | itemMediaType => params_of p' = delete "charset" (params_of p)
     | itemParamVal => exists us, params_of p' = <[currentAttr p := us]> (params_of p)
     | _ => params_of p' = params_of p
     end.
Proof. item_cases p it; intros [=]; subst; simpl; eauto. Qed.

Lemma rounds_snoc (p q : parser) (pre : list item) (it : item) :
  rounds p (pre ++ [it]) = Some q ->
  exists q0, rounds p pre = Some q0 /\ parse_item q0 it = Next q.
Proof.
  rewrite rounds_app. destruct (rounds p pre) as [q0|]; simpl; [|done].
  destruct (parse_item q0 it) eqn:E; try done. intros [= ->]. by exists q0.
Qed.

Ltac assoc_right := repeat (rewrite <- app_assoc || rewrite <- app_comm_cons).

Lemma charset_pending_snoc (pre : list item) (it : item) :
  charset_pending pre -> is_kind itemParamAttr it = false ->
  charset_pending (pre ++ [it]).
Proof.
  intros (l1 & l2 & -> & H) Hk. exists l1, (l2 ++ [it]). split.
  - by assoc_right.
  - rewrite forallb_app, H. simpl. by rewrite Hk.
Qed.

Lemma explicit_charset_snoc (pre : list item) (it : item) :
  explicit_charset pre -> explicit_charset (pre ++ [it]).
Proof.
  intros (l1 & l2 & l3 & v & -> & H). exists l1, l2, (l3 ++ [it]), v.
  split; [|done]. by assoc_right.
Qed.

Lemma charset_pending_value (pre : list item) (v : string) :
  charset_pending pre -> explicit_charset (pre ++ [mkItem itemParamVal v]).
Proof.
  intros (l1 & l2 & -> & H). exists l1, l2, [], v.
  split; [|done]. by assoc_right.
Qed.

(** While the parser goes through items: a current attribute [charset]
    was set by a ParamAttr item, and a [charset] parameter is either the
    default one, no MediaType item having come, or an explicit one. *)
Lemma charset_invariant (pre : list item) (q : parser) :
  rounds newParser pre = Some q ->
  (currentAttr q = "charset" -> charset_pending pre)
  /\ (is_Some (params_of q !! "charset") ->
      has_MediaType pre = false \/ explicit_charset pre).
Proof.
  revert q. induction pre as [|it pre IH] using rev_ind; intros q.
  - intros [= <-]. split; [done|]. by left.
  - intros (q0 & Hr & Hi)%rounds_snoc. destruct (IH _ Hr) as [IHa IHp].
    apply parse_item_Next_params in Hi as [Ha Hp].
    unfold has_MediaType. rewrite existsb_app. simpl. rewrite orb_false_r.
    destruct it as [k v]. unfold is_kind in *. simpl in *.
    assert (Hext : is_Some (params_of q0 !! "charset") ->
                   bool_decide (k = itemMediaType) = false ->
                   existsb (is_kind itemMediaType) pre || bool_decide (k = itemMediaType) = false
                   \/ explicit_charset (pre ++ [mkItem k v])).
    { intros Hs Hk. destruct (IHp Hs) as [H|H].
      - left. unfold has_MediaType in H. by rewrite H, Hk.
      - right. by apply explicit_charset_snoc. }
    destruct k; simpl in *;
      try (rewrite Ha, Hp; split;
           [intros E; by apply charset_pending_snoc; [apply IHa|]
           |intros Hs; by apply Hext]).
    + (* MediaType *)
      rewrite Ha, Hp. split.
      * intros E. by apply charset_pending_snoc; [apply IHa|].
      * rewrite lookup_delete_eq. by intros [? [=]].
    + (* ParamAttr *)
      rewrite Ha, Hp. split.
      * intros ->. by exists pre, [].
      * intros Hs. by apply Hext.
    + (* ParamVal *)
      destruct Hp as [us Hp]. rewrite Ha, Hp. split.
      * intros E. by apply charset_pending_snoc; [apply IHa|].
      * destruct (decide (currentAttr q0 = "charset")) as [E|E].
        -- intros _. right. by apply charset_pending_value, IHa.
        -- rewrite lookup_insert_ne by done. intros Hs. by apply Hext.
Qed.

(** C3. [DecodeString] starts from type [text], subtype [plain] and the
    one parameter [charset=US-ASCII]; a MediaType item sets the type and
    deletes the [charset] parameter; and when a parse that went through a
    MediaType item succeeds with a [charset] parameter in its result, an
    explicit [charset] parameter is among the items it went through. *)
Theorem explicit_type_removes_default_charset :
  MediaType_ (du newParser) = mkMediaType "text" "plain" {[ "charset" := "US-ASCII" ]}
  /\ (forall (p : parser) (v : string),
         exists p', parse_item p (mkItem itemMediaType v) = Next p'
                    /\ Type_ (MediaType_ (du p')) = v
                    /\ params_of p' = delete "charset" (params_of p)
                    /\ params_of p' !! "charset" = None)
  /\ (forall (items : list item) (d : DataURL),
         DecodeItems items = Result (Some d) None ->
         exists pre v rest,
           items = pre ++ mkItem itemEOF v :: rest
           /\ is_Some (rounds newParser pre)
           /\ (has_MediaType pre = true ->
               is_Some (Params (MediaType_ d) !! "charset") ->
               explicit_charset pre)).
Proof.
  split_and!; [done| |].
  - intros p v. eexists. split; [reflexivity|]. simpl. unfold params_of. simpl.
    split_and!; [done|done|]. apply lookup_delete_eq.
  - intros items d (p & Hp & ->)%DecodeItems_inv.
    apply parse_Returned in Hp as (pre & it & rest & q & -> & Hr & Hi).
    apply parse_item_Return_nil in Hi as (Hk & Hm & _ & _).
    destruct it as [k v]. simpl in Hk. subst k.
    exists pre, v, rest. split_and!; [done|by eexists|].
    intros Hmt Hs. destruct (charset_invariant _ _ Hr) as [_ H].
    unfold params_of in H. rewrite <- Hm in H. destruct (H Hs) as [H'|H']; [|done].
    congruence.
Qed.

Lemma explicit_type_removes_default_charset_witness :
  exists pre v rest,
    [mkItem itemDataPrefix dataPrefix; mkItem itemMediaType "text";
     mkItem itemMediaSep "/"; mkItem itemMediaSubType "plain";
     mkItem itemParamSemicolon ";"; mkItem itemParamAttr "charset";
     mkItem itemParamEqual "="; mkItem itemParamVal "utf-8";
     mkItem itemParamSemicolon ";"; mkItem itemBase64Enc "base64";
     mkItem itemDataComma ","; mkItem itemData "aGV5YQ=="; mkItem itemEOF ""]
    = pre ++ mkItem itemEOF v :: rest
    /\ is_Some (rounds newParser pre)
    /\ (has_MediaType pre = true ->
        is_Some (({[ "charset" := "utf-8" ]} : gmap string string) !! "charset") ->
        explicit_charset pre).
Proof.
  assert (H : DecodeItems
                [mkItem itemDataPrefix dataPrefix; mkItem itemMediaType "text";
                 mkItem itemMediaSep "/"; mkItem itemMediaSubType "plain";
                 mkItem itemParamSemicolon ";"; mkItem itemParamAttr "charset";
                 mkItem itemParamEqual "="; mkItem itemParamVal "utf-8";
                 mkItem itemParamSemicolon ";"; mkItem itemBase64Enc "base64";
                 mkItem itemDataComma ","; mkItem itemData "aGV5YQ=="; mkItem itemEOF ""]
              = Result (Some (mkDataURL (mkMediaType "text" "plain" {[ "charset" := "utf-8" ]})
                                        EncodingBase64 (Some (bytes_of_string "heya")))) None).
  { vm_compute. reflexivity. }
  exact (proj2 (proj2 explicit_type_removes_default_charset) _ _ H).
Defined.

(** *** Quoted values: [strconv.Unquote] *)






Lemma str_take_S (n : nat) (c : ascii) (s : string) :
  str_take (S n) (String c s) = String c (str_take n s).
Proof. reflexivity. Qed.

Lemma str_take_0 (s : string) : str_take 0 s = "".
Proof. by destruct s. Qed.

Lemma str_take_app (v s : string) : str_take (String.length v) (v ++ s) = v.
Proof.
  induction v as [|c v IH].
  - apply str_take_0.
  - rewrite append_String. cbn [String.length]. by rewrite str_take_S, IH.
Qed.

Lemma substring_end (s : string) : String.substring (String.length s) 0 s = "".
Proof. induction s as [|c s IH]; [done|]. simpl. exact IH. Qed.

Lemma str_drop_all (s : string) : str_drop (String.length s) s = "".
Proof. unfold str_drop. rewrite Nat.sub_diag. apply substring_end. Qed.

Lemma str_drop_S (n : nat) (c : ascii) (s : string) :
  str_drop (S n) (String c s) = str_drop n s.
Proof. reflexivity. Qed.

Lemma str_drop_0 (s : string) : str_drop 0 s = s.
Proof.
  unfold str_drop. rewrite Nat.sub_0_r.
  induction s as [|c s IH]; [done|]. simpl. by rewrite IH.
Qed.

Lemma str_drop_app (v s : string) : str_drop (String.length v) (v ++ s) = s.
Proof.
  induction v as [|c v IH].
  - rewrite append_Empty. apply str_drop_0.
  - rewrite append_String. cbn [String.length]. by rewrite str_drop_S.
Qed.

Lemma length_append (v s : string) :
  String.length (v ++ s) = (String.length v + String.length s)%nat.
Proof.
  induction v as [|c v IH]; [done|].
  rewrite append_String. cbn [String.length]. by rewrite IH.
Qed.







(** ** The serializer *)

Section WriterFacts.

Context {W : Type}.
Variable Write : W -> list ascii -> W * (Z * option error).

(** An error [encoder.Write] returns is the error of a call of [Write]
    on an encoded chunk of the payload. *)
Lemma encoder_Write_loop_error (fuel : nat) :
  forall (w w' : W) (p buf : list ascii) (n m : Z) (e : error),
    encoder_Write_loop Write fuel w p n = (w', (m, Some e), buf) ->
    exists (w1 : W) (k : nat),
      (Write w1 (base64.Encode (take (chunk_size (drop k p)) (drop k p)))).2.2 = Some e.
Proof.
  induction fuel as [|fuel IH]; intros w w' p buf n m e; simpl; [done|].
  destruct (length p <? 3)%nat; [done|].
  destruct (Write w (base64.Encode (take (chunk_size p) p))) as [w1 [n1 [e1|]]] eqn:E.
  - intros [= <- <- <- <-]. exists w, 0%nat. rewrite drop_0. by rewrite E.
  - intros H. apply IH in H as (w2 & k & H). exists w2, (chunk_size p + k)%nat.
    by rewrite <- drop_drop.
Qed.

(** C10. With the encoding [ascii], [WriteTo] returns a nil error
    whatever the sink answers to its writes; an error it returns is
    either the invalid-encoding error, the encoding being neither
    [ascii] nor [base64], or, the encoding being [base64], the error of
    a write of an encoded chunk of the payload. *)
Theorem WriteTo_discards_write_errors
    (kvs : list (string * string)) (d : DataURL) (w : W) :
  (Encoding d = EncodingASCII -> (WriteTo Write kvs d w).2.2 = None)
  /\ (Encoding d = EncodingBase64 ->
      (length (data_bytes d) < 3)%nat -> (WriteTo Write kvs d w).2.2 = None)
  /\ (forall e : error,
         (WriteTo Write kvs d w).2.2 = Some e ->
         (Encoding d <> EncodingASCII /\ Encoding d <> EncodingBase64
          /\ e = errorString ("dataurl: invalid encoding " +:+ Encoding d))
         \/ (Encoding d = EncodingBase64
             /\ exists (w1 : W) (k : nat),
                 let p := drop k (data_bytes d) in
                 (Write w1 (base64.Encode (take (chunk_size p) p))).2.2 = Some e)).
Proof.
  unfold WriteTo, Fprint.
  destruct (Write w (bytes_of_string "data:")) as [w1 [n1 e1]].
  destruct (Write w1 _) as [w2 [n2 e2]].
  destruct (String.eqb_spec (Encoding d) EncodingBase64) as [Eb|Eb].
  - destruct (Write w2 _) as [w3 [n3 e3]]. destruct (Write w3 _) as [w4 [n4 e4]].
    split_and!.
    + rewrite Eb. discriminate.
    + intros _ Hlen. unfold encoder_Write.
      assert (H : forall fuel n,
                 encoder_Write_loop Write fuel w4 (data_bytes d) n
                 = (w4, (n + Z.of_nat (length (data_bytes d)), None), data_bytes d)).
      { intros [|fuel] n; simpl; [done|].
        by destruct (Nat.ltb_spec (length (data_bytes d)) 3); [|lia]. }
      rewrite H. by destruct (encoder_Close Write w4 (data_bytes d)).
    + intros e. unfold encoder_Write.
      destruct (encoder_Write_loop Write _ w4 _ 0) as [[w5 [n5 [e5|]]] buf] eqn:E.
      * intros [= <-]. right. split; [done|].
        by apply encoder_Write_loop_error in E.
      * by destruct (encoder_Close Write w5 buf).
  - destruct (Write w2 _) as [w3 [n3 e3]].
    destruct (String.eqb_spec (Encoding d) EncodingASCII) as [Ea|Ea].
    + destruct (Write w3 _) as [w4 [n4 e4]]. split_and!; done.
    + split_and!; [done|done|]. intros e [= <-]. by left.
Qed.

End WriterFacts.

Lemma WriteTo_discards_write_errors_witness :
  (WriteTo failing_Write [("charset", "utf-8")]
     (mkDataURL (mkMediaType "text" "plain" {[ "charset" := "utf-8" ]})
                EncodingASCII (Some (bytes_of_string "A brief note"))) tt).2.2 = None
  /\ (WriteTo failing_Write []
        (mkDataURL (mkMediaType "text" "plain" ∅)
                   EncodingBase64 (Some (bytes_of_string "he"))) tt).2.2 = None
  /\ (WriteTo failing_Write []
        (mkDataURL (mkMediaType "text" "plain" ∅)
                   EncodingBase64 (Some (bytes_of_string "heya"))) tt).2.2
     = Some (writeError 5).
Proof.
  split_and!.
  - exact (proj1 (WriteTo_discards_write_errors failing_Write
                    [("charset", "utf-8")]
                    (mkDataURL (mkMediaType "text" "plain" {[ "charset" := "utf-8" ]})
                               EncodingASCII (Some (bytes_of_string "A brief note")))
                    tt) eq_refl).
  - apply (proj1 (proj2 (WriteTo_discards_write_errors failing_Write []
                    (mkDataURL (mkMediaType "text" "plain" ∅)
                               EncodingBase64 (Some (bytes_of_string "he")))
                    tt))); [reflexivity|simpl; lia].
  - reflexivity.
Defined.

(** ** What [DecodeString] returns is well formed *)

Lemma all_chars_app (P : ascii -> bool) (s u : string) :
  all_chars P (s ++ u) = all_chars P s && all_chars P u.
Proof.
  induction s as [|c s IH]; [done|].
  rewrite append_String. simpl. by rewrite IH, andb_assoc.
Qed.

Lemma all_chars_snoc (P : ascii -> bool) (acc : string) (c : ascii) :
  all_chars P (snoc acc c) = all_chars P acc && P c.
Proof. unfold snoc. rewrite all_chars_app. simpl. by rewrite andb_true_r. Qed.

Lemma wf_items_mono (items : list item) :
  wf_items false items = true -> wf_items true items = true.
Proof.
  induction items as [|[k v] items IH]; [done|].
  simpl. destruct k; simpl; try exact IH; try done;
    intros [? ?]%andb_prop; apply andb_true_intro; auto.
Qed.

Lemma wf_items_lexData (b : bool) (rest : string) :
  wf_items b (lexData rest) = true.
Proof. by destruct rest. Qed.

(** The items the lexer sends are well formed. *)
Lemma lexFrom_wf (s : string) :
  forall st, state_ok st = true -> wf_items (in_value st) (lexFrom st s) = true.
Proof.
  induction s as [|c s IH]; intros st Hst; [done|].
  assert (Hsep : forall b,
    wf_items b (if Ascii.eqb c ";"
                then mkItem itemParamSemicolon ";" :: lexFrom (inParamAttr "") s
                else lexData s) = true).
  { intros b. destruct (Ascii.eqb c ";"); [|apply wf_items_lexData].
    simpl. destruct b; [apply wf_items_mono|]; by apply (IH (inParamAttr "")). }
  destruct st as [acc|acc|acc| |acc|acc| |acc]; cbn [lexFrom];
    repeat match goal with
      | |- context [if ?b then _ else _] =>
          lazymatch b with
          | Ascii.eqb c ";" => fail
          | _ => destruct b eqn:?
          end
      end;
    cbn [wf_items t val in_value]; rewrite ?Hsep; try done;
    try (apply (IH (inMediaType _)) || apply (IH (inMediaSubType _))
         || apply (IH (inParamAttr _)) || apply (IH (inQuotedVal _))
         || apply (IH (inQuotedEscape _)) || apply (IH (inParamVal _)));
    cbn [state_ok] in *; rewrite ?all_chars_snoc; unfold token_text, attr_text;
    repeat match goal with
      | H : _ && _ = true |- _ => apply andb_prop in H as [? ?]
      end;
    repeat (apply andb_true_intro; split); try done.
  all: try (by apply (IH (inMediaSubType ""))).
  - by apply (IH atParamVal).
  - apply wf_items_lexData.
  - apply wf_items_mono. by apply (IH afterQuotedVal).
Qed.

Lemma lex_wf (x : string) : wf_items false (lex x) = true.
Proof.
  unfold lex. destruct (String.prefix dataPrefix x); [|done].
  apply (lexFrom_wf _ (inMediaType "")). done.
Qed.

Lemma wf_newParser : wf_parser false newParser.
Proof.
  unfold wf_parser, params_of. simpl. split_and!; try done; [|by left].
  intros k v [<- _]%lookup_singleton_Some. done.
Qed.

(** A round of [parse] on a well formed item keeps the parser well
    formed. *)
Lemma parse_item_wf (b : bool) (p p' : parser) (it : item) (rest : list item) :
  wf_parser b p -> wf_items b (it :: rest) = true ->
  parse_item p it = Next p' ->
  wf_parser (b || is_kind itemParamAttr it) p'
  /\ wf_items (b || is_kind itemParamAttr it) rest = true.
Proof.
  intros (HT & HS & HP & HE & HA) Hit.
  unfold wf_parser, params_of in *. revert Hit.
  item_cases p it; intros Hit [= <-]; unfold is_kind; simpl;
    rewrite ?orb_false_r, ?orb_true_r;
    try (apply andb_prop in Hit as [Hv Hr]);
    (split_and!; try done; try (by right); try (intros ->; by apply HA);
     try (intros k x [_ H]%lookup_delete_Some; by apply (HP k x));
     try (intros k x [[<- _]|[_ H]]%lookup_insert_Some;
          [by apply HA|by apply (HP k x)])).
Qed.

Lemma parse_wf (items : list item) :
  forall (b : bool) (p p' : parser),
    wf_parser b p -> wf_items b items = true ->
    parse p items = Returned p' None -> wf_DataURL (du p').
Proof.
  induction items as [|it items IH]; intros b p p' Hp Hit; simpl; [done|].
  destruct (parse_item p it) as [p1|p1 e1|x] eqn:E; [|intros [= -> ->]|done].
  - destruct (parse_item_wf _ _ _ _ _ Hp Hit E) as (Hp1 & Hr).
    intros H. exact (IH _ p1 p' Hp1 Hr H).
  - apply parse_item_Return_nil in E as (_ & Hm & He & Hd).
    destruct Hp as (HT & HS & HP & HE & _). unfold params_of in HP.
    split; rewrite ?Hm, ?He, ?Hd; eauto.
Qed.

Lemma DecodeString_wf (x : string) (d : DataURL) :
  DecodeString x = Result (Some d) None -> wf_DataURL d.
Proof.
  intros (p & Hp & ->)%DecodeItems_inv.
  apply (parse_wf _ false newParser p wf_newParser (lex_wf x) Hp).
Qed.

(** ** base64: decoding what [Encode] wrote *)

Lemma byteZ_range (c : ascii) : 0 <= byteZ c < 256.
Proof.
  unfold byteZ, byte_val. pose proof (N_ascii_bounded c). lia.
Qed.

Lemma byte_of_byteZ (c : ascii) : byte_of_Z (byteZ c) = c.
Proof.
  unfold byte_of_Z. rewrite Z.mod_small by apply byteZ_range.
  unfold byteZ, byte_val. by rewrite N2Z.id, ascii_N_embedding.
Qed.

Lemma testbit_small (y k i : Z) :
  0 <= y < 2 ^ k -> k <= i -> Z.testbit y i = false.
Proof.
  intros [H0 H1] Hi. destruct (Z.eq_dec y 0) as [->|Hy]; [apply Z.testbit_0_l|].
  apply Z.bits_above_log2; [lia|].
  assert (Z.log2 y < k) by (apply Z.log2_lt_pow2; lia). lia.
Qed.

(** An or of two numbers that share no bit is their sum. *)
Lemma lor_shiftl_add (x y k : Z) :
  0 <= k -> 0 <= y < 2 ^ k -> Z.lor (Z.shiftl x k) y = x * 2 ^ k + y.
Proof.
  intros Hk Hy.
  assert (E : Z.land (Z.shiftl x k) y = 0).
  { apply Z.bits_inj'. intros i Hi. rewrite Z.land_spec, Z.bits_0.
    destruct (Z.lt_ge_cases i k).
    - by rewrite Z.shiftl_spec_low.
    - by rewrite (testbit_small y k i), andb_false_r. }
  rewrite <- Z.lxor_lor, <- Z.add_nocarry_lxor by done.
  by rewrite Z.shiftl_mul_pow2.
Qed.

Lemma lor_mul_add (x y k : Z) :
  0 <= k -> 0 <= y < 2 ^ k -> Z.lor (x * 2 ^ k) y = x * 2 ^ k + y.
Proof.
  intros Hk Hy. rewrite <- (lor_shiftl_add x y k) by done.
  by rewrite Z.shiftl_mul_pow2.
Qed.

Lemma land_63 (x : Z) : Z.land x 63 = x mod 64.
Proof. change 63 with (Z.ones 6). by rewrite Z.land_ones. Qed.

Lemma val3_sum (a b c : Z) :
  0 <= a < 256 -> 0 <= b < 256 -> 0 <= c < 256 ->
  base64.val3 a b c = a * 65536 + b * 256 + c.
Proof.
  intros Ha Hb Hc. unfold base64.val3. rewrite !Z.shiftl_mul_pow2 by lia.
  rewrite (lor_mul_add a (b * 2 ^ 8) 16) by lia.
  replace (a * 2 ^ 16 + b * 2 ^ 8) with ((a * 256 + b) * 2 ^ 8) by lia.
  rewrite (lor_mul_add _ c 8) by lia. lia.
Qed.

Lemma val4_sum (x0 x1 x2 x3 : Z) :
  0 <= x0 < 64 -> 0 <= x1 < 64 -> 0 <= x2 < 64 -> 0 <= x3 < 64 ->
  val4 x0 x1 x2 x3 = x0 * 262144 + x1 * 4096 + x2 * 64 + x3.
Proof.
  intros H0 H1 H2 H3. unfold val4. rewrite !Z.shiftl_mul_pow2 by lia.
  rewrite (lor_mul_add x0 (x1 * 2 ^ 12) 18) by lia.
  replace (x0 * 2 ^ 18 + x1 * 2 ^ 12) with ((x0 * 64 + x1) * 2 ^ 12) by lia.
  rewrite (lor_mul_add _ (x2 * 2 ^ 6) 12) by lia.
  replace ((x0 * 64 + x1) * 2 ^ 12 + x2 * 2 ^ 6)
    with (((x0 * 64 + x1) * 64 + x2) * 2 ^ 6) by lia.
  rewrite (lor_mul_add _ x3 6) by lia. lia.
Qed.

Lemma decodeMap_encode_at (x : Z) :
  0 <= x < 64 -> base64.decodeMap (base64.encode_at x) = x.
Proof.
  intros Hx.
  assert (H : forallb (fun n => base64.decodeMap (base64.encode_at (Z.of_nat n))
                               =? Z.of_nat n) (seq 0 64) = true)
    by (vm_compute; reflexivity).
  rewrite forallb_forall in H. specialize (H (Z.to_nat x)).
  rewrite Z2Nat.id in H by lia. apply Z.eqb_eq, H, in_seq. lia.
Qed.

Lemma sextet_range (val shift : Z) : 0 <= Z.land (Z.shiftr val shift) 63 < 64.
Proof. rewrite land_63. apply Z.mod_pos_bound. lia. Qed.

Lemma decodeMap_sextet (val shift : Z) :
  base64.decodeMap (base64.sextet val shift) = Z.land (Z.shiftr val shift) 63.
Proof. apply decodeMap_encode_at, sextet_range. Qed.

Lemma convert_4 (x0 x1 x2 x3 : Z) :
  base64.convert [x0; x1; x2; x3]
  = [byte_of_Z (Z.shiftr (val4 x0 x1 x2 x3) 16);
     byte_of_Z (Z.shiftr (val4 x0 x1 x2 x3) 8);
     byte_of_Z (val4 x0 x1 x2 x3)].
Proof. reflexivity. Qed.

Lemma convert_3 (x0 x1 x2 : Z) :
  base64.convert [x0; x1; x2]
  = [byte_of_Z (Z.shiftr (val4 x0 x1 x2 0) 16);
     byte_of_Z (Z.shiftr (val4 x0 x1 x2 0) 8)].
Proof. reflexivity. Qed.

Lemma convert_2 (x0 x1 : Z) :
  base64.convert [x0; x1] = [byte_of_Z (Z.shiftr (val4 x0 x1 0 0) 16)].
Proof. reflexivity. Qed.

Ltac divmod := Z.div_mod_to_equations; lia.

(** Three bytes come back from their four sextets. *)
Lemma sextets_bytes (a b c : ascii) :
  let v := base64.val3 (byteZ a) (byteZ b) (byteZ c) in
  let x (shift : Z) := Z.land (Z.shiftr v shift) 63 in
  let w := val4 (x 18) (x 12) (x 6) (x 0) in
  byte_of_Z (Z.shiftr w 16) = a /\ byte_of_Z (Z.shiftr w 8) = b /\ byte_of_Z w = c.
Proof.
  cbv zeta. pose proof (byteZ_range a) as Ha. pose proof (byteZ_range b) as Hb.
  pose proof (byteZ_range c) as Hc.
  rewrite val4_sum by apply sextet_range.
  rewrite !land_63, !Z.shiftr_div_pow2, val3_sum by lia.
  change (2 ^ 18) with 262144. change (2 ^ 12) with 4096. change (2 ^ 6) with 64.
  change (2 ^ 0) with 1. change (2 ^ 16) with 65536. change (2 ^ 8) with 256.
  set (v := byteZ a * 65536 + byteZ b * 256 + byteZ c).
  assert (Hv : (v / 262144) mod 64 * 262144 + (v / 4096) mod 64 * 4096
               + (v / 64) mod 64 * 64 + (v / 1) mod 64 = v).
  { assert (0 <= v < 16777216) by (unfold v; lia). divmod. }
  rewrite Hv. unfold byte_of_Z.
  replace ((v / 65536) mod 256) with (byteZ a) by (unfold v; divmod).
  replace ((v / 256) mod 256) with (byteZ b) by (unfold v; divmod).
  replace (v mod 256) with (byteZ c) by (unfold v; divmod).
  fold (byte_of_Z (byteZ a)). 
  pose proof (byte_of_byteZ a) as Ea. pose proof (byte_of_byteZ b) as Eb.
  pose proof (byte_of_byteZ c) as Ec. unfold byte_of_Z in Ea, Eb, Ec.
  rewrite Z.mod_small in Ea, Eb, Ec by done. by rewrite Ea, Eb, Ec.
Qed.

Lemma sextets_byte_1 (a : ascii) :
  let v := Z.shiftl (byteZ a) 16 in
  let x (shift : Z) := Z.land (Z.shiftr v shift) 63 in
  byte_of_Z (Z.shiftr (val4 (x 18) (x 12) 0 0) 16) = a.
Proof.
  cbv zeta. pose proof (byteZ_range a) as Ha.
  rewrite val4_sum by (apply sextet_range || lia).
  rewrite !land_63, !Z.shiftr_div_pow2, Z.shiftl_mul_pow2 by lia.
  change (2 ^ 18) with 262144. change (2 ^ 12) with 4096. change (2 ^ 16) with 65536.
  etrans; [|apply (byte_of_byteZ a)]. unfold byte_of_Z. do 2 f_equal. divmod.
Qed.

Lemma sextets_bytes_2 (a b : ascii) :
  let v := Z.lor (Z.shiftl (byteZ a) 16) (Z.shiftl (byteZ b) 8) in
  let x (shift : Z) := Z.land (Z.shiftr v shift) 63 in
  let w := val4 (x 18) (x 12) (x 6) 0 in
  byte_of_Z (Z.shiftr w 16) = a /\ byte_of_Z (Z.shiftr w 8) = b.
Proof.
  cbv zeta. pose proof (byteZ_range a) as Ha. pose proof (byteZ_range b) as Hb.
  rewrite val4_sum by (apply sextet_range || lia).
  rewrite !land_63, !Z.shiftr_div_pow2 by lia.
  rewrite !Z.shiftl_mul_pow2 by lia.
  rewrite (lor_mul_add (byteZ a) (byteZ b * 2 ^ 8) 16) by lia.
  change (2 ^ 18) with 262144. change (2 ^ 12) with 4096. change (2 ^ 6) with 64.
  change (2 ^ 16) with 65536. change (2 ^ 8) with 256.
  split; (etrans; [|apply byte_of_byteZ]); unfold byte_of_Z; do 2 f_equal; divmod.
Qed.

Lemma sextet_not_255 (val shift : Z) :
  (Z.land (Z.shiftr val shift) 63 =? 255) = false.
Proof. pose proof (sextet_range val shift). lia. Qed.

Lemma decodeQuantum_4 (v si : Z) (rest : list ascii) :
  base64.decodeQuantum
    (base64.sextet v 18 :: base64.sextet v 12 :: base64.sextet v 6
       :: base64.sextet v 0 :: rest) si []
  = base64.Quantum rest (si + 1 + 1 + 1 + 1)
      (base64.convert [Z.land (Z.shiftr v 18) 63; Z.land (Z.shiftr v 12) 63;
                       Z.land (Z.shiftr v 6) 63; Z.land (Z.shiftr v 0) 63]) None.
Proof.
  cbn [base64.decodeQuantum].
  rewrite !decodeMap_sextet, !sextet_not_255. reflexivity.
Qed.

Lemma decodeQuantum_3 (v si : Z) :
  base64.decodeQuantum
    [base64.sextet v 18; base64.sextet v 12; base64.sextet v 6; base64.padChar] si []
  = base64.Quantum [] (si + 1 + 1 + 1 + 1)
      (base64.convert [Z.land (Z.shiftr v 18) 63; Z.land (Z.shiftr v 12) 63;
                       Z.land (Z.shiftr v 6) 63]) None.
Proof.
  cbn [base64.decodeQuantum].
  rewrite !decodeMap_sextet, !sextet_not_255. reflexivity.
Qed.

Lemma decodeQuantum_2 (v si : Z) :
  base64.decodeQuantum
    [base64.sextet v 18; base64.sextet v 12; base64.padChar; base64.padChar] si []
  = base64.Quantum [] (si + 1 + 1 + 1 + 1)
      (base64.convert [Z.land (Z.shiftr v 18) 63; Z.land (Z.shiftr v 12) 63]) None.
Proof.
  cbn [base64.decodeQuantum].
  rewrite !decodeMap_sextet, !sextet_not_255. reflexivity.
Qed.

(** Induction on a list three elements at a time. *)
Lemma list_ind3 {A : Type} (P : list A -> Prop) :
  P [] -> (forall a, P [a]) -> (forall a b, P [a; b]) ->
  (forall a b c l, P l -> P (a :: b :: c :: l)) ->
  forall l, P l.
Proof.
  intros H0 H1 H2 H3. fix IH 1.
  intros [|a [|b [|c l]]]; [exact H0|apply H1|apply H2|apply H3, IH].
Qed.

(** [Decode] undoes [Encode]. *)
Lemma Decode_Encode (data : list ascii) :
  forall (fuel : nat) (si : Z) (dst : list ascii),
    (length data <= fuel)%nat ->
    base64.Decode fuel (base64.Encode data) si dst = (dst ++ data, None).
Proof.
  induction data as [|a|a b|a b c data IH] using list_ind3; intros fuel si dst Hf.
  - destruct fuel; simpl; by rewrite app_nil_r.
  - destruct fuel as [|fuel]; [simpl in Hf; lia|].
    cbn [base64.Encode base64.Decode]. rewrite decodeQuantum_2.
    cbn [base64.q_err base64.q_out base64.q_rest base64.q_nsi].
    rewrite convert_2, sextets_byte_1. by destruct fuel.
  - destruct fuel as [|fuel]; [simpl in Hf; lia|].
    cbn [base64.Encode base64.Decode]. rewrite decodeQuantum_3.
    cbn [base64.q_err base64.q_out base64.q_rest base64.q_nsi].
    rewrite convert_3. destruct (sextets_bytes_2 a b) as [-> ->]. by destruct fuel.
  - destruct fuel as [|fuel]; [simpl in Hf; lia|].
    cbn [base64.Encode base64.Decode]. rewrite decodeQuantum_4.
    cbn [base64.q_err base64.q_out base64.q_rest base64.q_nsi].
    rewrite convert_4. destruct (sextets_bytes a b c) as (-> & -> & ->).
    rewrite IH by (simpl in Hf; lia). by rewrite <- app_assoc.
Qed.

Lemma length_Encode (data : list ascii) :
  (length data <= length (base64.Encode data))%nat.
Proof.
  induction data as [|a|a b|a b c data IH] using list_ind3; simpl in *; lia.
Qed.

Lemma length_bytes_of_string (s : string) :
  length (bytes_of_string s) = String.length s.
Proof. induction s as [|c s IH]; simpl; [done|]. by rewrite IH. Qed.

Lemma base64_DecodeString_Encode (data : list ascii) :
  base64.DecodeString (string_of_bytes (base64.Encode data)) = (data, None).
Proof.
  unfold base64.DecodeString. rewrite bytes_string_bytes.
  rewrite (Decode_Encode data); [done|].
  rewrite <- length_bytes_of_string, bytes_string_bytes. apply length_Encode.
Qed.

(** ** What [String] writes *)

Ltac natmod := zify; Z.div_mod_to_equations; lia.

Lemma Encode_app (x y : list ascii) :
  (length x mod 3 = 0)%nat ->
  base64.Encode (x ++ y) = base64.Encode x ++ base64.Encode y.
Proof.
  induction x as [|a|a b|a b c x IH] using list_ind3; intros Hx.
  - done.
  - simpl in Hx. discriminate.
  - simpl in Hx. discriminate.
  - cbn [app base64.Encode]. rewrite IH; [done|].
    cbn [length] in Hx. natmod.
Qed.

Lemma chunk_size_spec (p : list ascii) :
  (3 <= length p)%nat ->
  (chunk_size p mod 3 = 0 /\ 3 <= chunk_size p <= length p)%nat.
Proof.
  intros Hp. unfold chunk_size.
  destruct (Nat.ltb_spec (length p) 768); natmod.
Qed.

(** [encoder.Write] into a buffer: the whole triples of [p] are encoded
    and appended; what is left stays in the encoder. *)
Lemma encoder_Write_Buffer (fuel : nat) :
  forall (b p : list ascii) (n : Z),
    (length p <= fuel)%nat ->
    encoder_Write_loop Buffer_Write fuel b p n
    = (b ++ base64.Encode (take (length p - length p mod 3) p),
       (n + Z.of_nat (length p), None),
       drop (length p - length p mod 3) p).
Proof.
  induction fuel as [|fuel IH]; intros b p n Hf.
  - destruct p; [|simpl in Hf; lia]. simpl. by rewrite app_nil_r.
  - cbn [encoder_Write_loop]. destruct (Nat.ltb_spec (length p) 3) as [Hp|Hp].
    + replace (length p - length p mod 3)%nat with 0%nat by natmod.
      simpl. by rewrite app_nil_r, drop_0.
    + destruct (chunk_size_spec p Hp) as [Hm Hc].
      unfold Buffer_Write at 1. rewrite IH by (rewrite length_drop; lia).
      rewrite length_drop, drop_drop.
      replace (length p - chunk_size p - (length p - chunk_size p) mod 3)%nat
        with (length p - length p mod 3 - chunk_size p)%nat by natmod.
      f_equal; [f_equal|].
      * rewrite <- app_assoc. f_equal. rewrite <- Encode_app.
        -- f_equal. rewrite take_take_drop. f_equal. natmod.
        -- rewrite length_take. natmod.
      * f_equal. lia.
      * f_equal. natmod.
Qed.

Lemma encoder_Close_Buffer (b buf : list ascii) :
  encoder_Close Buffer_Write b buf = (b ++ base64.Encode buf, None).
Proof.
  unfold encoder_Close. destruct buf; simpl; [by rewrite app_nil_r|done].
Qed.

Lemma string_of_bytes_app (a b : list ascii) :
  string_of_bytes (a ++ b) = (string_of_bytes a ++ string_of_bytes b)%string.
Proof.
  induction a as [|c a IH]; [done|]. simpl. rewrite append_String. by f_equal.
Qed.

(** The text [String] gives: the prefix, the media type with its
    parameters, the base64 marker if any, the comma and the payload. *)
Lemma DataURL_String_text (kvs : list (string * string)) (d : DataURL) :
  Encoding d = EncodingASCII \/ Encoding d = EncodingBase64 ->
  DataURL_String kvs d
  = ("data:" ++ MediaType_String kvs (MediaType_ d)
     ++ (if String.eqb (Encoding d) EncodingBase64
         then ";base64," ++ string_of_bytes (base64.Encode (data_bytes d))
         else "," ++ Escape (data_bytes d)))%string.
Proof.
  intros He. unfold DataURL_String, WriteTo, Fprint. unfold Buffer_Write at 1 2.
  destruct He as [He|He]; rewrite He; simpl String.eqb; cbv iota.
  - unfold Buffer_Write. cbn [fst]. rewrite !string_of_bytes_app, !string_bytes_string.
    change (string_of_bytes []) with "". by rewrite append_Empty, !append_assoc.
  - unfold Buffer_Write at 1 2. unfold encoder_Write.
    rewrite encoder_Write_Buffer by done. rewrite encoder_Close_Buffer. cbn [fst].
    rewrite <- app_assoc, <- Encode_app, take_drop.
    + rewrite !string_of_bytes_app, !string_bytes_string.
      change (string_of_bytes []) with "". by rewrite append_Empty, !append_assoc.
    + rewrite length_take. natmod.
Qed.

(** *** What [WriteTo] counts *)

Lemma int64_add (a b : Z) : int64 (int64 a + b) = int64 (a + b).
Proof.
  unfold int64. f_equal.
  replace ((a + 2 ^ 63) mod 2 ^ 64 - 2 ^ 63 + b + 2 ^ 63)
    with ((a + 2 ^ 63) mod 2 ^ 64 + b) by lia.
  rewrite Zplus_mod_idemp_l. f_equal. lia.
Qed.

Lemma add64_int64 (a b : Z) : add64 (int64 a) b = int64 (a + b).
Proof. apply int64_add. Qed.

Lemma length_bytes_of_string_Z (s : string) :
  Z.of_nat (length (bytes_of_string s)) = Z.of_nat (String.length s).
Proof. by rewrite length_bytes_of_string. Qed.

(** [WriteTo] into a new buffer: what is written and what is returned,
    for each encoding. *)
Lemma WriteTo_Buffer (kvs : list (string * string)) (d : DataURL) :
  let mt := MediaType_String kvs (MediaType_ d) in
  WriteTo Buffer_Write kvs d []
  = if String.eqb (Encoding d) EncodingBase64 then
      (bytes_of_string ("data:" +:+ mt +:+ ";base64,") ++ base64.Encode (data_bytes d),
       (int64 (Z.of_nat (String.length ("data:" +:+ mt +:+ ";base64,"))), None))
    else if String.eqb (Encoding d) EncodingASCII then
      (bytes_of_string ("data:" +:+ mt +:+ "," +:+ Escape (data_bytes d)),
       (int64 (Z.of_nat (String.length ("data:" +:+ mt +:+ "," +:+ Escape (data_bytes d)))),
        None))
    else
      (bytes_of_string ("data:" +:+ mt +:+ ","),
       (int64 (Z.of_nat (String.length ("data:" +:+ mt +:+ ","))),
        Some (errorString ("dataurl: invalid encoding " +:+ Encoding d)))).
Proof.
  cbv zeta. set (mt := MediaType_String kvs (MediaType_ d)).
  assert (Hb : forall s u : string,
             bytes_of_string (s +:+ u) = bytes_of_string s ++ bytes_of_string u).
  { intros s u. rewrite <- (bytes_string_bytes (_ ++ _)).
    by rewrite string_of_bytes_app, !string_bytes_string. }
  unfold WriteTo, Fprint. unfold Buffer_Write at 1 2. fold mt.
  change (add64 0 ?x) with (add64 (int64 0) x). rewrite !add64_int64.
  destruct (String.eqb (Encoding d) EncodingBase64).
  - unfold Buffer_Write at 1 2. rewrite !add64_int64. unfold encoder_Write.
    rewrite encoder_Write_Buffer by done. rewrite encoder_Close_Buffer.
    rewrite <- app_assoc, <- Encode_app, take_drop by (rewrite length_take; natmod).
    rewrite !Hb, !length_append, !length_bytes_of_string_Z.
    rewrite <- ?app_assoc, ?app_nil_l. repeat f_equal. simpl String.length. lia.
  - unfold Buffer_Write at 1. rewrite !add64_int64.
    destruct (String.eqb (Encoding d) EncodingASCII).
    + unfold Buffer_Write. rewrite !add64_int64.
      rewrite !Hb, !length_append, !length_bytes_of_string_Z.
      rewrite <- ?app_assoc, ?app_nil_l. repeat f_equal. simpl String.length. lia.
    + rewrite !Hb, !length_append, !length_bytes_of_string_Z.
      rewrite <- ?app_assoc, ?app_nil_l. repeat f_equal. simpl String.length. lia.
Qed.

(** C9 (the code departs from it). Into a buffer, [WriteTo] with the
    encoding [base64] writes the header and the encoded payload and
    returns the length of the header alone: for the [DataURL] of [heya]
    it writes the 31 bytes of [data:text/plain;base64,aGV5YQ==] and
    returns 23. With the encoding [ascii] it returns the number of bytes
    written, and the invalid-encoding error is returned exactly when
    the encoding is neither [ascii] nor [base64]. *)
Theorem WriteTo_base64_count_misses_payload :
  WriteTo Buffer_Write []
    (mkDataURL (mkMediaType "text" "plain" ∅) EncodingBase64
               (Some (bytes_of_string "heya"))) []
  = (bytes_of_string "data:text/plain;base64,aGV5YQ==", (23, None))
  /\ Z.of_nat (length (bytes_of_string "data:text/plain;base64,aGV5YQ==")) = 31
  /\ (forall (kvs : list (string * string)) (d : DataURL),
         Encoding d = EncodingBase64 ->
         let header := "data:" +:+ MediaType_String kvs (MediaType_ d) +:+ ";base64," in
         WriteTo Buffer_Write kvs d []
         = (bytes_of_string header ++ base64.Encode (data_bytes d),
            (int64 (Z.of_nat (length (bytes_of_string header))), None)))
  /\ (forall (kvs : list (string * string)) (d : DataURL),
         Encoding d = EncodingASCII ->
         exists out, WriteTo Buffer_Write kvs d []
                     = (out, (int64 (Z.of_nat (length out)), None)))
  /\ (forall (kvs : list (string * string)) (d : DataURL),
         (WriteTo Buffer_Write kvs d []).2.2
         = if String.eqb (Encoding d) EncodingBase64 || String.eqb (Encoding d) EncodingASCII
           then None
           else Some (errorString ("dataurl: invalid encoding " +:+ Encoding d))).
Proof.
  split_and!; try reflexivity.
  - intros kvs d He. cbv zeta. rewrite WriteTo_Buffer, He. simpl String.eqb. cbv iota.
    by rewrite length_bytes_of_string.
  - intros kvs d He. rewrite WriteTo_Buffer, He. simpl String.eqb. cbv iota.
    eexists. by rewrite length_bytes_of_string.
  - intros kvs d. rewrite WriteTo_Buffer.
    destruct (String.eqb (Encoding d) EncodingBase64); [done|].
    by destruct (String.eqb (Encoding d) EncodingASCII).
Qed.

(** ** Lexing what [String] wrote *)

Lemma snoc_append (acc : string) (c : ascii) (w : string) :
  (snoc acc c ++ w)%string = (acc ++ String c w)%string.
Proof. unfold snoc. by rewrite append_assoc. Qed.

Lemma append_Empty_r (s : string) : (s ++ "")%string = s.
Proof. induction s as [|c s IH]; [done|]. rewrite append_String. by rewrite IH. Qed.

Lemma lexFrom_type_run (w : string) :
  forall acc rest,
    all_chars isTokenChar w = true ->
    lexFrom (inMediaType acc) (w ++ rest) = lexFrom (inMediaType (acc ++ w)) rest.
Proof.
  induction w as [|c w IH]; intros acc rest Hw.
  - by rewrite append_Empty, append_Empty_r.
  - simpl in Hw. apply andb_prop in Hw as [Hc Hw].
    rewrite append_String. cbn [lexFrom]. rewrite Hc, IH by done.
    by rewrite snoc_append.
Qed.

Lemma lexFrom_subtype_run (w : string) :
  forall acc rest,
    all_chars isTokenChar w = true ->
    lexFrom (inMediaSubType acc) (w ++ rest)
    = lexFrom (inMediaSubType (acc ++ w)) rest.
Proof.
  induction w as [|c w IH]; intros acc rest Hw.
  - by rewrite append_Empty, append_Empty_r.
  - simpl in Hw. apply andb_prop in Hw as [Hc Hw].
    rewrite append_String. cbn [lexFrom]. rewrite Hc, IH by done.
    by rewrite snoc_append.
Qed.

Lemma lexFrom_attr_run (w : string) :
  forall acc rest,
    all_chars isAttrChar w = true ->
    lexFrom (inParamAttr acc) (w ++ rest) = lexFrom (inParamAttr (acc ++ w)) rest.
Proof.
  induction w as [|c w IH]; intros acc rest Hw.
  - by rewrite append_Empty, append_Empty_r.
  - simpl in Hw. apply andb_prop in Hw as [Hc Hw].
    rewrite append_String. cbn [lexFrom]. rewrite Hc, IH by done.
    by rewrite snoc_append.
Qed.

Lemma lexFrom_val_run (w : string) :
  forall acc rest,
    all_chars escaped_char w = true ->
    lexFrom (inParamVal acc) (w ++ rest) = lexFrom (inParamVal (acc ++ w)) rest.
Proof.
  induction w as [|c w IH]; intros acc rest Hw.
  - by rewrite append_Empty, append_Empty_r.
  - simpl in Hw. apply andb_prop in Hw as [[Hc _]%andb_prop Hw].
    apply negb_true_iff in Hc. unfold isSep in Hc.
    rewrite append_String. cbn [lexFrom]. rewrite Hc, IH by done.
    by rewrite snoc_append.
Qed.

Lemma token_text_nonempty (s : string) :
  token_text s = true -> negb (String.eqb s "") = true /\ all_chars isTokenChar s = true.
Proof. by intros [? ?]%andb_prop. Qed.

Lemma attr_text_nonempty (s : string) :
  attr_text s = true -> negb (String.eqb s "") = true /\ all_chars isAttrChar s = true.
Proof. by intros [? ?]%andb_prop. Qed.

(** The type and the subtype. *)
Lemma lexFrom_type_subtype (T S R : string) :
  token_text T = true -> token_text S = true -> starts_with_sep R = true ->
  lexFrom (inMediaType "") (T ++ "/" ++ S ++ R)
  = mkItem itemMediaType T :: mkItem itemMediaSep "/"
      :: mkItem itemMediaSubType S :: at_sep R.
Proof.
  intros [HT1 HT2]%token_text_nonempty [HS1 HS2]%token_text_nonempty HR.
  rewrite lexFrom_type_run, append_Empty by done.
  rewrite append_String, append_Empty. cbn [lexFrom].
  change (isTokenChar "/") with false. change (Ascii.eqb "/" "/") with true.
  cbv iota. rewrite HT1. cbn [andb].
  rewrite lexFrom_subtype_run, append_Empty by done.
  destruct R as [|c R]; [done|]. cbn [starts_with_sep] in HR. cbn [lexFrom at_sep].
  assert (Hc : isTokenChar c = false).
  { unfold isSep in HR. apply orb_prop in HR as [H|H]; apply Ascii.eqb_eq in H; by subst c. }
  unfold isSep in HR. by rewrite Hc, HR, HS1.
Qed.

(** A parameter name, up to the value. *)
Lemma at_sep_attr (k rest : string) :
  attr_text k = true ->
  at_sep (";" ++ k ++ "=" ++ rest)
  = mkItem itemParamSemicolon ";" :: mkItem itemParamAttr k
      :: mkItem itemParamEqual "=" :: lexFrom atParamVal rest.
Proof.
  intros [Hk1 Hk2]%attr_text_nonempty.
  rewrite append_String, append_Empty. cbn [at_sep].
  change (Ascii.eqb ";" ";") with true. cbv iota.
  rewrite lexFrom_attr_run, append_Empty by done.
  rewrite append_String, append_Empty. cbn [lexFrom].
  change (isAttrChar "=") with false. change (Ascii.eqb "=" "=") with true.
  cbv iota. by rewrite Hk1.
Qed.

(** An unquoted value, up to the next separator. *)
Lemma lexFrom_value (E R : string) :
  all_chars escaped_char E = true -> starts_with_sep R = true ->
  lexFrom atParamVal (E ++ R) = mkItem itemParamVal E :: at_sep R.
Proof.
  intros HE HR. destruct E as [|e E].
  - rewrite append_Empty. destruct R as [|c R]; [done|].
    cbn [starts_with_sep] in HR. cbn [lexFrom at_sep].
    assert (Hq : Ascii.eqb c dquote = false).
    { unfold isSep in HR. apply orb_prop in HR as [H|H]; apply Ascii.eqb_eq in H; by subst c. }
    unfold isSep in HR. by rewrite Hq, HR.
  - cbn [all_chars] in HE. apply andb_prop in HE as [[He1 He2]%andb_prop HE].
    apply negb_true_iff in He1, He2. unfold isSep in He1.
    rewrite append_String. cbn [lexFrom]. rewrite He2, He1.
    rewrite lexFrom_val_run by done. rewrite append_String, append_Empty.
    destruct R as [|c R]; [done|]. cbn [starts_with_sep] in HR. cbn [lexFrom at_sep].
    unfold isSep in HR. by rewrite HR.
Qed.

Lemma at_sep_base64 (payload : string) :
  at_sep (";base64," ++ payload)
  = mkItem itemParamSemicolon ";" :: mkItem itemBase64Enc "base64" :: lexData payload.
Proof. reflexivity. Qed.

Lemma at_sep_comma (payload : string) :
  at_sep ("," ++ payload) = lexData payload.
Proof. reflexivity. Qed.

Lemma escape_loop_chars (c : ascii) :
  (if url.shouldEscape c
   then escaped_char (url.upperhex_at (N.shiftr (byte_val c) 4))
        && escaped_char (url.upperhex_at (N.land (byte_val c) 15))
   else escaped_char c) = true.
Proof. by_bytes c. Qed.

(** [Escape] writes no [;], no [,] and no double quote. *)
Lemma EscapeString_chars (v : string) : all_chars escaped_char (EscapeString v) = true.
Proof.
  unfold EscapeString, url.PathEscape. rewrite escape_is_loop.
  induction v as [|c v IH]; [done|]. simpl.
  pose proof (escape_loop_chars c) as H. destruct (url.shouldEscape c); simpl.
  - apply andb_prop in H as [-> ->]. done.
  - by rewrite H.
Qed.

Lemma Escape_empty (x : list ascii) : Escape x = "" -> x = [].
Proof.
  unfold Escape, url.PathEscape. rewrite escape_is_loop.
  destruct x as [|c x]; [done|]. simpl. by destruct (url.shouldEscape c).
Qed.

Lemma Encode_empty (x : list ascii) : base64.Encode x = [] -> x = [].
Proof. by destruct x as [|a [|b [|c x]]]. Qed.

Lemma starts_with_sep_params (kvs : list (string * string)) (tail : string) :
  starts_with_sep tail = true -> starts_with_sep (params_String kvs ++ tail) = true.
Proof. destruct kvs as [|[k v] kvs]; [by rewrite append_Empty|done]. Qed.

(** The parameters, one after the other. *)
Lemma at_sep_params (kvs : list (string * string)) (tail : string) :
  Forall (fun kv => attr_text kv.1 = true) kvs ->
  starts_with_sep tail = true ->
  at_sep (params_String kvs ++ tail) = concat (map param_items kvs) ++ at_sep tail.
Proof.
  intros Hk Ht. induction Hk as [|[k v] kvs Hk _ IH]; [by rewrite append_Empty|].
  cbn [params_String map concat]. rewrite !append_assoc.
  rewrite at_sep_attr by done.
  rewrite lexFrom_value
    by (apply EscapeString_chars || by apply starts_with_sep_params).
  rewrite IH. reflexivity.
Qed.

Lemma prefix_append (p s : string) : String.prefix p (p ++ s) = true.
Proof.
  induction p as [|c p IH]; [by destruct s|].
  rewrite append_String. simpl. by destruct (ascii_dec c c).
Qed.

(** The items the lexer sends for the text of a well formed value. *)
Lemma lex_DataURL_String (kvs : list (string * string)) (d : DataURL) :
  wf_DataURL d -> range_order (MediaType_ d) kvs ->
  lex (DataURL_String kvs d)
  = mkItem itemDataPrefix dataPrefix
      :: mkItem itemMediaType (Type_ (MediaType_ d))
      :: mkItem itemMediaSep "/"
      :: mkItem itemMediaSubType (Subtype (MediaType_ d))
      :: concat (map param_items kvs)
      ++ (if String.eqb (Encoding d) EncodingBase64
          then mkItem itemParamSemicolon ";" :: mkItem itemBase64Enc "base64"
                 :: lexData (string_of_bytes (base64.Encode (data_bytes d)))
          else lexData (Escape (data_bytes d))).
Proof.
  intros [HT HS HP HE HD] Hkvs. rewrite DataURL_String_text by done.
  unfold lex. rewrite prefix_append. change "data:" with dataPrefix.
  rewrite str_drop_app. unfold MediaType_String, ContentType.
  rewrite !append_assoc.
  assert (Hk : Forall (fun kv => attr_text kv.1 = true) kvs).
  { apply Forall_forall. intros [k v] Hin. apply (HP k v).
    apply elem_of_map_to_list. unfold range_order in Hkvs. by rewrite <- Hkvs. }
  assert (Htail : starts_with_sep
            (if String.eqb (Encoding d) EncodingBase64
             then ";base64," +:+ string_of_bytes (base64.Encode (data_bytes d))
             else "," +:+ Escape (data_bytes d)) = true).
  { by destruct (String.eqb (Encoding d) EncodingBase64). }
  rewrite lexFrom_type_subtype by (done || by apply starts_with_sep_params).
  rewrite at_sep_params by done.
  by destruct (String.eqb (Encoding d) EncodingBase64).
Qed.

(** ** Parsing what [String] wrote *)

Lemma parse_param (T S : string) (m : gmap string string) (enc a : string)
    (data : option (list ascii)) (r : option encodedDataReader)
    (k v : string) (rest : list item) :
  parse (mkParser (mkDataURL (mkMediaType T S m) enc data) a false r)
        (param_items (k, v) ++ rest)
  = parse (mkParser (mkDataURL (mkMediaType T S (<[k := v]> m)) enc data) k false r)
          rest.
Proof.
  unfold param_items. cbn [app parse parse_item t val fst snd du currentAttr
    unquoteParamVal encodedDataReaderFn MediaType_ Type_ Subtype Params
    Encoding Data set_du set_MediaType].
  by rewrite UnescapeToString_EscapeString.
Qed.

Lemma parse_params (kvs : list (string * string)) :
  forall (T S : string) (m : gmap string string) (enc a : string)
         (data : option (list ascii)) (r : option encodedDataReader)
         (rest : list item),
  exists a',
    parse (mkParser (mkDataURL (mkMediaType T S m) enc data) a false r)
          (concat (map param_items kvs) ++ rest)
    = parse (mkParser (mkDataURL
                         (mkMediaType T S (foldl (fun m kv => <[kv.1 := kv.2]> m) m kvs))
                         enc data) a' false r)
            rest.
Proof.
  induction kvs as [|[k v] kvs IH]; intros T S m enc a data r rest.
  - by exists a.
  - cbn [map concat foldl]. rewrite <- app_assoc, parse_param.
    apply IH.
Qed.

Lemma foldl_insert_list_to_map (kvs : list (string * string)) :
  foldl (fun (m : gmap string string) kv => <[kv.1 := kv.2]> m) ∅ kvs
  = list_to_map (reverse kvs).
Proof.
  induction kvs as [|[k v] kvs IH] using rev_ind; [done|].
  by rewrite foldl_app, reverse_app, IH.
Qed.

(** Inserting the entries of a map, in any order, into the empty map
    gives the map back. *)
Lemma foldl_insert_range (mt : MediaType) (kvs : list (string * string)) :
  range_order mt kvs ->
  foldl (fun (m : gmap string string) kv => <[kv.1 := kv.2]> m) ∅ kvs = Params mt.
Proof.
  unfold range_order. intros Hk. rewrite foldl_insert_list_to_map.
  rewrite <- (list_to_map_to_list (Params mt)).
  apply list_to_map_proper.
  - rewrite reverse_Permutation, Hk. apply NoDup_fst_map_to_list.
  - by rewrite reverse_Permutation.
Qed.

(** The end of the items: the comma, the payload and EOF. *)
Lemma parse_lexData (mt : MediaType) (enc a : string) (fn : encodedDataReader)
    (r : option encodedDataReader) (payload : string) (data : list ascii) :
  (r = None \/ r = Some fn) ->
  (r = None -> fn = asciiDataReader) ->
  read_data fn payload = (Some data, None) ->
  (payload = "" -> data = []) ->
  exists p,
    parse (mkParser (mkDataURL mt enc None) a false r) (lexData payload)
    = Returned p None
    /\ du p = mkDataURL mt enc (Some data).
Proof.
  intros Hr Hfn Hread Hempty. unfold lexData.
  destruct payload as [|c payload].
  - rewrite Hempty by done. destruct Hr as [-> | ->]; eexists; by split.
  - set (s := String c payload) in *.
    destruct Hr as [-> | ->].
    + rewrite Hfn in Hread by done. eexists.
      cbn [parse parse_item t val encodedDataReaderFn]. rewrite Hread.
      by split.
    + eexists. cbn [parse parse_item t val encodedDataReaderFn]. rewrite Hread.
      by split.
Qed.

(** ** The round trip *)

Lemma parse_type_subtype (T S : string) (rest : list item) :
  parse newParser
        (mkItem itemDataPrefix dataPrefix :: mkItem itemMediaType T
           :: mkItem itemMediaSep "/" :: mkItem itemMediaSubType S :: rest)
  = parse (mkParser (mkDataURL (mkMediaType T S ∅) EncodingASCII None) "" false None)
          rest.
Proof.
  cbn [parse].
  cbv beta iota zeta delta [parse_item set_du set_MediaType t val du currentAttr
    unquoteParamVal encodedDataReaderFn MediaType_ Type_ Subtype Params Encoding
    Data newParser defaultMediaType].
  by rewrite delete_singleton_eq.
Qed.

Lemma parse_Base64Enc (mt : MediaType) (enc a v w : string) (rest : list item) :
  parse (mkParser (mkDataURL mt enc None) a false None)
        (mkItem itemParamSemicolon v :: mkItem itemBase64Enc w :: rest)
  = parse (mkParser (mkDataURL mt EncodingBase64 None) a false (Some base64DataReader))
          rest.
Proof. reflexivity. Qed.

(** A well formed value is what [DecodeString] reads from its text,
    whatever the order in which the parameters were written. *)
Lemma DecodeString_DataURL_String (kvs : list (string * string)) (d : DataURL) :
  wf_DataURL d -> range_order (MediaType_ d) kvs ->
  DecodeString (DataURL_String kvs d) = Result (Some d) None.
Proof.
  intros Hwf Hk. unfold DecodeString. rewrite lex_DataURL_String by done.
  destruct Hwf as [_ _ _ HE [data HD]].
  destruct d as [[T S m] enc dat]. cbn [MediaType_ Type_ Subtype Params Encoding Data] in *.
  subst dat. unfold data_bytes. cbn [Data].
  change (default [] (Some data)) with data.
  unfold DecodeItems. rewrite parse_type_subtype.
  destruct (parse_params kvs T S ∅ EncodingASCII "" None None
              (if String.eqb enc EncodingBase64
               then mkItem itemParamSemicolon ";" :: mkItem itemBase64Enc "base64"
                      :: lexData (string_of_bytes (base64.Encode data))
               else lexData (Escape data))) as [a' ->].
  rewrite (foldl_insert_range (mkMediaType T S m) kvs Hk). cbn [Params].
  destruct HE as [-> | ->]; simpl String.eqb; cbv iota.
  - destruct (parse_lexData (mkMediaType T S m) EncodingASCII a' asciiDataReader
                None (Escape data) data) as (p & -> & Hp); try done.
    + by left.
    + unfold read_data. by rewrite Unescape_Escape.
    + apply Escape_empty.
    + by rewrite Hp.
  - rewrite parse_Base64Enc.
    destruct (parse_lexData (mkMediaType T S m) EncodingBase64 a' base64DataReader
                (Some base64DataReader) (string_of_bytes (base64.Encode data)) data)
      as (p & -> & Hp); try done.
    + by right.
    + unfold read_data. by rewrite base64_DecodeString_Encode.
    + intros H. apply Encode_empty. by destruct (base64.Encode data).
    + by rewrite Hp.
Qed.

(** C1. When [DecodeString] succeeds on an input, whether or not the
    input follows the grammar, writing its result with [String], in
    whatever order the parameters are ranged over, and parsing that text
    again succeeds with the same type, subtype, encoding and data and
    with the same parameters. The lexer is the one modelled from the
    specification. *)
Theorem DecodeString_String_roundtrip
    (x : string) (d : DataURL) (kvs : list (string * string)) :
  DecodeString x = Result (Some d) None ->
  range_order (MediaType_ d) kvs ->
  exists d',
    DecodeString (DataURL_String kvs d) = Result (Some d') None
    /\ Type_ (MediaType_ d') = Type_ (MediaType_ d)
    /\ Subtype (MediaType_ d') = Subtype (MediaType_ d)
    /\ Encoding d' = Encoding d
    /\ Data d' = Data d
    /\ (forall k, Params (MediaType_ d') !! k = Params (MediaType_ d) !! k).
Proof.
  intros Hx Hk. exists d. split_and!; try done.
  apply DecodeString_DataURL_String; [|done]. by apply (DecodeString_wf x).
Qed.

Lemma DecodeString_String_roundtrip_witness :
  exists d',
    DecodeString
      (DataURL_String [("foo", "b" +:+ dq +:+ "<@>" +:+ dq +:+ "r")]
         (mkDataURL
            (mkMediaType "text" "plain" {[ "foo" := "b" +:+ dq +:+ "<@>" +:+ dq +:+ "r" ]})
            EncodingASCII (Some (bytes_of_string "A brief note"))))
    = Result (Some d') None
    /\ Type_ (MediaType_ d') = "text"
    /\ Subtype (MediaType_ d') = "plain"
    /\ Encoding d' = EncodingASCII
    /\ Data d' = Some (bytes_of_string "A brief note")
    /\ (forall k, Params (MediaType_ d') !! k
                  = ({[ "foo" := "b" +:+ dq +:+ "<@>" +:+ dq +:+ "r" ]}
                       : gmap string string) !! k).
Proof.
  assert (Hx : DecodeString
                 ("data:text/plain;foo=" +:+ dq +:+ "b\" +:+ dq +:+ "<@>\" +:+ dq
                    +:+ "r" +:+ dq +:+ ",A%20brief%20note")
               = Result (Some (mkDataURL
                   (mkMediaType "text" "plain"
                      {[ "foo" := "b" +:+ dq +:+ "<@>" +:+ dq +:+ "r" ]})
                   EncodingASCII (Some (bytes_of_string "A brief note")))) None).
  { vm_compute. reflexivity. }
  assert (Hk : range_order
                 (mkMediaType "text" "plain"
                    {[ "foo" := "b" +:+ dq +:+ "<@>" +:+ dq +:+ "r" ]})
                 [("foo", "b" +:+ dq +:+ "<@>" +:+ dq +:+ "r")]).
  { unfold range_order. cbn [Params]. by rewrite map_to_list_singleton. }
  exact (DecodeString_String_roundtrip _ _ _ Hx Hk).
Defined.

(** ** The package's test table

    The items and values [TestLexDataURLs] and [TestDataURLs] expect, on
    the lexer modelled from the specification. *)

Example lex_base64_only :
  lex "data:;base64,aGV5YQ=="
  = [mkItem itemDataPrefix dataPrefix; mkItem itemParamSemicolon ";";
     mkItem itemBase64Enc "base64"; mkItem itemDataComma ",";
     mkItem itemData "aGV5YQ=="; mkItem itemEOF ""].
Proof. reflexivity. Qed.

Example lex_quoted_param :
  lex ("data:application/json;charset=utf-8;foo=" +:+ dq +:+ "b\" +:+ dq
         +:+ "<@>\" +:+ dq +:+ "r" +:+ dq
         +:+ ";style=unformatted%20json;base64,eyJtc2ciOiAiaGV5YSJ9")
  = [mkItem itemDataPrefix dataPrefix; mkItem itemMediaType "application";
     mkItem itemMediaSep "/"; mkItem itemMediaSubType "json";
     mkItem itemParamSemicolon ";"; mkItem itemParamAttr "charset";
     mkItem itemParamEqual "="; mkItem itemParamVal "utf-8";
     mkItem itemParamSemicolon ";"; mkItem itemParamAttr "foo";
     mkItem itemParamEqual "="; mkItem itemLeftStringQuote dq;
     mkItem itemParamVal ("b\" +:+ dq +:+ "<@>\" +:+ dq +:+ "r");
     mkItem itemRightStringQuote dq;
     mkItem itemParamSemicolon ";"; mkItem itemParamAttr "style";
     mkItem itemParamEqual "="; mkItem itemParamVal "unformatted%20json";
     mkItem itemParamSemicolon ";"; mkItem itemBase64Enc "base64";
     mkItem itemDataComma ","; mkItem itemData "eyJtc2ciOiAiaGV5YSJ9";
     mkItem itemEOF ""].
Proof. reflexivity. Qed.

Example lex_invalid_media_type :
  lex "data:xxx;base64,aGV5YQ=="
  = [mkItem itemDataPrefix dataPrefix;
     mkItem itemError "invalid character for media type"].
Proof. reflexivity. Qed.

Example lex_empty_data :
  lex "data:,"
  = [mkItem itemDataPrefix dataPrefix; mkItem itemDataComma ","; mkItem itemEOF ""].
Proof. reflexivity. Qed.

Example lex_ascii_data :
  lex "data:,A%20brief%20note"
  = [mkItem itemDataPrefix dataPrefix; mkItem itemDataComma ",";
     mkItem itemData "A%20brief%20note"; mkItem itemEOF ""].
Proof. reflexivity. Qed.

Example lex_subtype_charset :
  lex "data:image/svg+xml-im.a.fake;base64,cGllLXN0b2NrX1RoaXJ0eQ=="
  = [mkItem itemDataPrefix dataPrefix; mkItem itemMediaType "image";
     mkItem itemMediaSep "/"; mkItem itemMediaSubType "svg+xml-im.a.fake";
     mkItem itemParamSemicolon ";"; mkItem itemBase64Enc "base64";
     mkItem itemDataComma ","; mkItem itemData "cGllLXN0b2NrX1RoaXJ0eQ==";
     mkItem itemEOF ""].
Proof. reflexivity. Qed.

Example decode_default_media_type :
  DecodeString "data:;base64,aGV5YQ=="
  = Result (Some (mkDataURL defaultMediaType EncodingBase64
                    (Some (bytes_of_string "heya")))) None.
Proof. vm_compute. reflexivity. Qed.

Example decode_explicit_media_type :
  DecodeString "data:text/plain;base64,aGV5YQ=="
  = Result (Some (mkDataURL (mkMediaType "text" "plain" ∅) EncodingBase64
                    (Some (bytes_of_string "heya")))) None.
Proof. vm_compute. reflexivity. Qed.

Example decode_two_params :
  DecodeString "data:text/plain;charset=utf-8;foo=bar;base64,aGV5YQ=="
  = Result (Some (mkDataURL
                    (mkMediaType "text" "plain"
                       (<[ "charset" := "utf-8" ]> {[ "foo" := "bar" ]}))
                    EncodingBase64 (Some (bytes_of_string "heya")))) None.
Proof. vm_compute. reflexivity. Qed.

Example decode_quoted_param :
  DecodeString
    ("data:application/json;charset=utf-8;foo=" +:+ dq +:+ "b\" +:+ dq
       +:+ "<@>\" +:+ dq +:+ "r" +:+ dq
       +:+ ";style=unformatted%20json;base64,eyJtc2ciOiAiaGV5YSJ9")
  = Result (Some (mkDataURL
                    (mkMediaType "application" "json"
                       (<[ "charset" := "utf-8" ]>
                          (<[ "foo" := "b" +:+ dq +:+ "<@>" +:+ dq +:+ "r" ]>
                             {[ "style" := "unformatted json" ]})))
                    EncodingBase64
                    (Some (bytes_of_string
                             ("{" +:+ dq +:+ "msg" +:+ dq +:+ ": " +:+ dq
                                +:+ "heya" +:+ dq +:+ "}"))))) None.
Proof. vm_compute. reflexivity. Qed.

Example decode_ascii_data :
  DecodeString "data:,A%20brief%20note"
  = Result (Some (mkDataURL defaultMediaType EncodingASCII
                    (Some (bytes_of_string "A brief note")))) None.
Proof. vm_compute. reflexivity. Qed.

Example decode_subtype_charset :
  DecodeString "data:image/svg+xml-im.a.fake;base64,cGllLXN0b2NrX1RoaXJ0eQ=="
  = Result (Some (mkDataURL (mkMediaType "image" "svg+xml-im.a.fake" ∅) EncodingBase64
                    (Some (bytes_of_string "pie-stock_Thirty")))) None.
Proof. vm_compute. reflexivity. Qed.

Example lex_explicit_media_type :
  lex "data:text/plain;base64,aGV5YQ=="
  = [mkItem itemDataPrefix dataPrefix; mkItem itemMediaType "text";
     mkItem itemMediaSep "/"; mkItem itemMediaSubType "plain";
     mkItem itemParamSemicolon ";"; mkItem itemBase64Enc "base64";
     mkItem itemDataComma ","; mkItem itemData "aGV5YQ=="; mkItem itemEOF ""].
Proof. reflexivity. Qed.

Example lex_one_param :
  lex "data:text/plain;charset=utf-8;base64,aGV5YQ=="
  = [mkItem itemDataPrefix dataPrefix; mkItem itemMediaType "text";
     mkItem itemMediaSep "/"; mkItem itemMediaSubType "plain";
     mkItem itemParamSemicolon ";"; mkItem itemParamAttr "charset";
     mkItem itemParamEqual "="; mkItem itemParamVal "utf-8";
     mkItem itemParamSemicolon ";"; mkItem itemBase64Enc "base64";
     mkItem itemDataComma ","; mkItem itemData "aGV5YQ=="; mkItem itemEOF ""].
Proof. reflexivity. Qed.

Example lex_two_params :
  lex "data:text/plain;charset=utf-8;foo=bar;base64,aGV5YQ=="
  = [mkItem itemDataPrefix dataPrefix; mkItem itemMediaType "text";
     mkItem itemMediaSep "/"; mkItem itemMediaSubType "plain";
     mkItem itemParamSemicolon ";"; mkItem itemParamAttr "charset";
     mkItem itemParamEqual "="; mkItem itemParamVal "utf-8";
     mkItem itemParamSemicolon ";"; mkItem itemParamAttr "foo";
     mkItem itemParamEqual "="; mkItem itemParamVal "bar";
     mkItem itemParamSemicolon ";"; mkItem itemBase64Enc "base64";
     mkItem itemDataComma ","; mkItem itemData "aGV5YQ=="; mkItem itemEOF ""].
Proof. reflexivity. Qed.

Example decode_one_param :
  DecodeString "data:text/plain;charset=utf-8;base64,aGV5YQ=="
  = Result (Some (mkDataURL (mkMediaType "text" "plain" {[ "charset" := "utf-8" ]})
                    EncodingBase64 (Some (bytes_of_string "heya")))) None.
Proof. vm_compute. reflexivity. Qed.

(** * More of the package *)

(** ** The escaper, on every input *)

Lemma Escape_is_loop (x : list ascii) :
  Escape x = url.escape_loop (string_of_bytes x).
Proof. unfold Escape, url.PathEscape. apply escape_is_loop. Qed.

Lemma escape_loop_app (s u : string) :
  url.escape_loop (s ++ u) = (url.escape_loop s ++ url.escape_loop u)%string.
Proof.
  induction s as [|c s IH]; [done|]. rewrite append_String. cbn [url.escape_loop].
  rewrite IH. by destruct (url.shouldEscape c).
Qed.

Lemma length_escape_loop (s : string) :
  String.length (url.escape_loop s) = (String.length s + 2 * url.hexCount s)%nat.
Proof.
  induction s as [|c s IH]; [done|]. cbn [url.escape_loop url.hexCount].
  destruct (url.shouldEscape c); cbn [String.length]; rewrite IH; lia.
Qed.

Lemma hexCount_le (s : string) : (url.hexCount s <= String.length s)%nat.
Proof.
  induction s as [|c s IH]; [done|]. cbn [url.hexCount String.length].
  destruct (url.shouldEscape c); lia.
Qed.

Lemma length_string_of_bytes (x : list ascii) :
  String.length (string_of_bytes x) = length x.
Proof. induction x as [|c x IH]; [done|]. simpl. by rewrite IH. Qed.

Lemma escape_output_bytes (c : ascii) :
  (if url.shouldEscape c
   then escape_output_char (url.upperhex_at (N.shiftr (byte_val c) 4))
        && escape_output_char (url.upperhex_at (N.land (byte_val c) 15))
   else escape_output_char c) = true.
Proof. by_bytes c. Qed.

Lemma escape_output_ascii (c : ascii) :
  implb (escape_output_char c) (byteZ c <? 128) = true.
Proof. by_bytes c. Qed.

Lemma escape_output_kept (c : ascii) :
  Bool.eqb (negb (url.shouldEscape c))
           (escape_output_char c && negb (Ascii.eqb c "%")) = true.
Proof. by_bytes c. Qed.

(** X1. Unescaping what [Escape] wrote gives the bytes back, with no
    error, whatever the bytes are (not only ASCII text); the same holds
    of the string versions and of any mix of the two. *)
Theorem Unescape_inverts_Escape (data : list ascii) (s : string) :
  Unescape (Escape data) = (data, None)
  /\ UnescapeToString (EscapeString s) = (s, None)
  /\ Unescape (EscapeString s) = (bytes_of_string s, None)
  /\ UnescapeToString (Escape data) = (string_of_bytes data, None).
Proof.
  split_and!.
  - apply Unescape_Escape.
  - apply UnescapeToString_EscapeString.
  - unfold Unescape, EscapeString. by rewrite PathUnescape_PathEscape.
  - unfold UnescapeToString, Escape. by rewrite PathUnescape_PathEscape.
Qed.

(** X2. [Escape] works byte by byte: escaping a concatenation gives the
    concatenation of the escaped parts, and nothing escapes to nothing;
    the same holds of [EscapeString]. *)
Theorem Escape_app (x y : list ascii) (s u : string) :
  Escape (x ++ y) = (Escape x ++ Escape y)%string
  /\ EscapeString (s ++ u) = (EscapeString s ++ EscapeString u)%string
  /\ Escape [] = ""
  /\ EscapeString "" = "".
Proof.
  split_and!; try reflexivity.
  - rewrite !Escape_is_loop, string_of_bytes_app. apply escape_loop_app.
  - unfold EscapeString, url.PathEscape. rewrite !escape_is_loop.
    apply escape_loop_app.
Qed.

(** X3. The text [Escape] gives has the length of the input plus two for
    each byte that [shouldEscape] tells to escape: it is never shorter
    than the input and at most three times as long, and it has the
    length of the input only when it is the input. *)
Theorem Escape_length (x : list ascii) :
  String.length (Escape x)
  = (length x + 2 * url.hexCount (string_of_bytes x))%nat
  /\ (length x <= String.length (Escape x) <= 3 * length x)%nat
  /\ (String.length (Escape x) = length x <-> Escape x = string_of_bytes x).
Proof.
  rewrite Escape_is_loop, length_escape_loop, length_string_of_bytes.
  pose proof (hexCount_le (string_of_bytes x)) as H.
  rewrite length_string_of_bytes in H. split_and!; try lia.
  split; intros E.
  - apply escape_loop_id. lia.
  - rewrite <- (length_string_of_bytes x) at 2. rewrite <- E at 2.
    rewrite length_escape_loop, length_string_of_bytes. lia.
Qed.

(** X4. [Escape] writes only letters, digits and the characters
    [-_.~$&+:=@%]: its output is 7-bit ASCII with no space, no control
    character, no quote and none of [;,/?]. A byte is written as it is
    exactly when it is one of these characters other than [%]. *)
Theorem Escape_output_chars (x : list ascii) :
  all_chars escape_output_char (Escape x) = true
  /\ all_chars (fun c => byteZ c <? 128) (Escape x) = true
  /\ (forall c : ascii,
         Escape [c] = String c ""
         <-> escape_output_char c && negb (Ascii.eqb c "%") = true).
Proof.
  rewrite Escape_is_loop. split_and!.
  - induction x as [|c x IH]; [done|].
    change (string_of_bytes (c :: x)) with (String c (string_of_bytes x)).
    cbn [url.escape_loop]. pose proof (escape_output_bytes c) as H.
    destruct (url.shouldEscape c); cbn [all_chars].
    + apply andb_prop in H as [-> ->]. by rewrite IH.
    + by rewrite H, IH.
  - induction x as [|c x IH]; [done|].
    change (string_of_bytes (c :: x)) with (String c (string_of_bytes x)).
    cbn [url.escape_loop]. pose proof (escape_output_bytes c) as H.
    destruct (url.shouldEscape c); cbn [all_chars].
    + apply andb_prop in H as [H1 H2].
      pose proof (escape_output_ascii (url.upperhex_at (N.shiftr (byte_val c) 4))) as A1.
      pose proof (escape_output_ascii (url.upperhex_at (N.land (byte_val c) 15))) as A2.
      rewrite H1 in A1. rewrite H2 in A2. simpl in A1, A2. by rewrite A1, A2, IH.
    + pose proof (escape_output_ascii c) as A. rewrite H in A. simpl in A.
      by rewrite A, IH.
  - intros c. rewrite Escape_is_loop.
    change (string_of_bytes [c]) with (String c "").
    cbn [url.escape_loop]. pose proof (escape_output_kept c) as H.
    apply eqb_prop in H. rewrite <- H.
    destruct (url.shouldEscape c); split; try done.
Qed.

(** ** Unescaping, part by part *)

(** The first loop of [unescape] on a concatenation whose first part
    passes. *)
Lemma check_app (s u : string) :
  forall n m, url.check s n = inl m -> url.check (s ++ u) n = url.check u m.
Proof.
  induction s as [| c s Hc IH | a b s IH | | a] using percent_ind; intros n m.
  - by intros [= ->].
  - rewrite append_String. cbn [url.check]. rewrite Hc. apply IH.
  - rewrite !append_String. cbn [url.check].
    change (Ascii.eqb "%" "%") with true. cbv iota.
    destruct (url.ishex a && url.ishex b); [apply IH|done].
  - done.
  - done.
Qed.

(** The count the first loop starts from is added to its result. *)
Lemma check_shift (s : string) :
  forall n m, url.check s n = inl m ->
    forall k, url.check s (n + k) = inl (m + k)%nat.
Proof.
  induction s as [| c s Hc IH | a b s IH | | a] using percent_ind; intros n m.
  - by intros [= ->].
  - cbn [url.check]. rewrite Hc. apply IH.
  - cbn [url.check]. change (Ascii.eqb "%" "%") with true. cbv iota.
    destruct (url.ishex a && url.ishex b); [|done].
    intros H k. apply (IH _ _ H k).
  - done.
  - done.
Qed.

Lemma unescape_loop_app (s u : string) :
  forall n m, url.check s n = inl m ->
    url.unescape_loop (s ++ u) = (url.unescape_loop s ++ url.unescape_loop u)%string.
Proof.
  induction s as [| c s Hc IH | a b s IH | | a] using percent_ind; intros n m.
  - done.
  - rewrite append_String. cbn [url.check url.unescape_loop]. rewrite Hc.
    intros H. rewrite append_String. f_equal. by apply (IH n m).
  - rewrite !append_String. cbn [url.check url.unescape_loop].
    change (Ascii.eqb "%" "%") with true. cbv iota.
    destruct (url.ishex a && url.ishex b); [|done].
    intros H. rewrite append_String. f_equal. by apply (IH (S n) m).
  - done.
  - done.
Qed.

(** What the two loops of [unescape] count and build on an input that
    passes. *)
Lemma check_count (s : string) :
  forall n m, url.check s n = inl m ->
    m = (n + count_percent s)%nat
    /\ (String.length (url.unescape_loop s) + 2 * count_percent s
        = String.length s)%nat.
Proof.
  induction s as [| c s Hc IH | a b s IH | | a] using percent_ind; intros n m.
  - intros [= ->]. simpl. lia.
  - cbn [url.check url.unescape_loop count_percent String.length]. rewrite Hc.
    intros H. destruct (IH _ _ H) as [-> E]. cbn [String.length]. lia.
  - cbn [url.check url.unescape_loop count_percent String.length].
    change (Ascii.eqb "%" "%") with true. cbv iota.
    destruct (url.ishex a && url.ishex b) eqn:Hab; [|done].
    intros H. destruct (IH _ _ H) as [-> E].
    assert (Ha : Ascii.eqb a "%" = false).
    { apply andb_prop in Hab as [Ha _]. revert Ha. generalize a.
      intros c Hx. destruct (Ascii.eqb_spec c "%") as [->|]; done. }
    assert (Hb : Ascii.eqb b "%" = false).
    { apply andb_prop in Hab as [_ Hb]. revert Hb. generalize b.
      intros c Hx. destruct (Ascii.eqb_spec c "%") as [->|]; done. }
    rewrite Ha, Hb. cbn [String.length]. lia.
  - done.
  - done.
Qed.

(** [unescape] on an input that passes its first loop. *)
Lemma unescape_passes (s : string) (m : nat) :
  url.check s 0 = inl m -> url.unescape s = (url.unescape_loop s, None).
Proof.
  intros H. unfold url.unescape. rewrite H.
  destruct (Nat.eqb_spec m 0) as [->|]; [|done].
  pose proof (check_spec s 0) as Hs. rewrite H in Hs.
  destruct Hs as (_ & _ & _ & Hid). by rewrite Hid.
Qed.

Lemma Unescape_passes (s : string) (out : list ascii) :
  Unescape s = (out, None) ->
  exists m, url.check s 0 = inl m /\ out = bytes_of_string (url.unescape_loop s).
Proof.
  unfold Unescape, url.PathUnescape. destruct (url.check s 0) as [m|e] eqn:H.
  - rewrite (unescape_passes s m H). intros [= <-]. by exists m.
  - unfold url.unescape. by rewrite H.
Qed.

Lemma Unescape_no_error (s : string) :
  (Unescape s).2 = None -> exists m, url.check s 0 = inl m.
Proof.
  unfold Unescape, url.PathUnescape, url.unescape.
  destruct (url.check s 0) as [m|e]; [by exists m|done].
Qed.

Lemma bytes_of_string_app (s u : string) :
  bytes_of_string (s ++ u) = bytes_of_string s ++ bytes_of_string u.
Proof.
  rewrite <- (bytes_string_bytes (_ ++ _)).
  by rewrite string_of_bytes_app, !string_bytes_string.
Qed.

(** X5. When [Unescape] fails, its error names the first [%] that is not
    followed by two hex digits, with the (at most two) characters after
    it, and no bytes are returned: what decodes before that place is
    dropped. *)
Theorem Unescape_reports_first_bad_escape (pre post : string) :
  (Unescape pre).2 = None ->
  starts_two_hex post = false ->
  Unescape (pre ++ String "%" post)
  = ([], Some (EscapeError (url.first3 (String "%" post))))
  /\ UnescapeToString (pre ++ String "%" post)
     = ("", Some (EscapeError (url.first3 (String "%" post)))).
Proof.
  intros [m Hm]%Unescape_no_error Hp.
  assert (H : url.unescape (pre ++ String "%" post)
              = ("", Some (EscapeError (url.first3 (String "%" post))))).
  { unfold url.unescape. rewrite (check_app _ _ _ _ Hm).
    destruct post as [|a [|b post]]; try done.
    cbn [url.check starts_two_hex] in *.
    change (Ascii.eqb "%" "%") with true. cbv iota. by rewrite Hp. }
  unfold Unescape, UnescapeToString, url.PathUnescape. by rewrite H.
Qed.

Lemma Unescape_reports_first_bad_escape_witness :
  Unescape "a%20b%zzc%41" = ([], Some (EscapeError "%zz")).
Proof.
  exact (proj1 (Unescape_reports_first_bad_escape "a%20b" "zzc%41" eq_refl eq_refl)).
Defined.

(** X6. Unescaping works part by part: when two strings unescape without
    an error, so does their concatenation, to the concatenation of the
    two results. *)
Theorem Unescape_app (s u : string) (a b : list ascii) :
  Unescape s = (a, None) ->
  Unescape u = (b, None) ->
  Unescape (s ++ u) = (a ++ b, None).
Proof.
  intros (m & Hs & ->)%Unescape_passes (k & Hu & ->)%Unescape_passes.
  assert (Hc : url.check (s ++ u) 0 = inl (k + m)%nat).
  { rewrite (check_app _ _ _ _ Hs). apply (check_shift u 0 k Hu m). }
  unfold Unescape, url.PathUnescape. rewrite (unescape_passes _ _ Hc).
  by rewrite (unescape_loop_app _ _ _ _ Hs), bytes_of_string_app.
Qed.

Lemma Unescape_app_witness :
  Unescape ("a%20" ++ "%41b") = (bytes_of_string "a " ++ bytes_of_string "Ab", None).
Proof. exact (Unescape_app "a%20" "%41b" _ _ eq_refl eq_refl). Defined.

(** X7. [Unescape] never lengthens: when it succeeds, the result is
    shorter than its input by two bytes for each [%] of the input, and a
    string with no [%] is returned as it is. *)
Theorem Unescape_length (s : string) (out : list ascii) :
  Unescape s = (out, None) ->
  (length out + 2 * count_percent s = String.length s)%nat
  /\ (count_percent s = 0%nat -> out = bytes_of_string s).
Proof.
  intros (m & Hs & ->)%Unescape_passes.
  destruct (check_count _ _ _ Hs) as [-> E].
  rewrite length_bytes_of_string. split; [done|].
  intros H0. f_equal. pose proof (check_spec s 0) as H. rewrite Hs in H.
  destruct H as (_ & _ & _ & Hid). apply Hid. lia.
Qed.

Lemma Unescape_length_witness :
  (length (bytes_of_string "a b+c") + 2 * count_percent "a%20b%2Bc"
   = String.length "a%20b%2Bc")%nat.
Proof. exact (proj1 (Unescape_length "a%20b%2Bc" _ eq_refl)). Defined.

(** ** The parser: the encoding and the reader of the payload *)

(** What a round that goes on does to the encoding and to the reader. *)
Lemma parse_item_Next_reader (p p' : parser) (it : item) :
  parse_item p it = Next p' ->
  Encoding (du p')
  = (if is_kind itemBase64Enc it then EncodingBase64 else Encoding (du p))
  /\ encodedDataReaderFn p'
     = (if is_kind itemBase64Enc it then Some base64DataReader
        else if is_kind itemDataComma it
             then Some (default asciiDataReader (encodedDataReaderFn p))
             else encodedDataReaderFn p).
Proof. item_cases p it; intros [=]; by subst. Qed.

Lemma rounds_reader (pre : list item) :
  forall p q : parser,
    rounds p pre = Some q ->
    Encoding (du q)
    = (if existsb (is_kind itemBase64Enc) pre then EncodingBase64 else Encoding (du p))
    /\ encodedDataReaderFn q
       = (if existsb (is_kind itemBase64Enc) pre then Some base64DataReader
          else if existsb (is_kind itemDataComma) pre
               then Some (default asciiDataReader (encodedDataReaderFn p))
               else encodedDataReaderFn p).
Proof.
  induction pre as [|it pre IH]; intros p q; cbn [rounds existsb].
  - by intros [= ->].
  - destruct (parse_item p it) as [p1| |] eqn:E; try done. intros Hr.
    destruct (IH _ _ Hr) as [HE HF].
    destruct (parse_item_Next_reader _ _ _ E) as [HE1 HF1].
    rewrite HE, HF, HE1, HF1.
    destruct (is_kind itemBase64Enc it), (existsb (is_kind itemBase64Enc) pre),
      (is_kind itemDataComma it), (existsb (is_kind itemDataComma) pre),
      (encodedDataReaderFn p); done.
Qed.

Lemma rounds_newParser_reader (pre : list item) (q : parser) :
  rounds newParser pre = Some q ->
  Encoding (du q) = encoding_after pre /\ encodedDataReaderFn q = reader_after pre.
Proof. intros H. apply (rounds_reader _ _ _ H). Qed.

(** The encoding of a value [DecodeString] returns is one of the two
    constants. *)
Lemma DecodeItems_Encoding (items : list item) (d : DataURL) :
  DecodeItems items = Result (Some d) None ->
  Encoding d = EncodingASCII \/ Encoding d = EncodingBase64.
Proof.
  intros (p & Hp & ->)%DecodeItems_inv.
  destruct (parse_Returned _ _ _ _ Hp) as (pre & it & rest & q & -> & Hr & Hi).
  destruct (parse_item_Return_nil _ _ _ Hi) as (_ & _ & -> & _).
  destruct (rounds_newParser_reader _ _ Hr) as [-> _]. unfold encoding_after.
  destruct (existsb _ pre); auto.
Qed.

(** X8. The encoding [DecodeString] gives is [base64] exactly when a
    Base64Enc item came before the end, and [ascii] otherwise; the reader
    of the payload is the base64 one once a Base64Enc item came, whether
    the comma came before or after it, the ascii one after a comma alone
    and nil before both. No other encoding is ever returned. *)
Theorem Encoding_follows_Base64Enc :
  (forall (pre : list item) (q : parser),
      rounds newParser pre = Some q ->
      Encoding (du q) = encoding_after pre
      /\ encodedDataReaderFn q = reader_after pre)
  /\ (forall (items : list item) (d : DataURL),
         DecodeItems items = Result (Some d) None ->
         exists pre v rest,
           items = pre ++ mkItem itemEOF v :: rest
           /\ Encoding d = encoding_after pre
           /\ (Encoding d = EncodingASCII \/ Encoding d = EncodingBase64)).
Proof.
  split; [apply rounds_newParser_reader|].
  intros items d H. pose proof (DecodeItems_Encoding _ _ H) as HE.
  apply DecodeItems_inv in H as (p & Hp & ->).
  destruct (parse_Returned _ _ _ _ Hp) as (pre & [k v] & rest & q & -> & Hr & Hi).
  destruct (parse_item_Return_nil _ _ _ Hi) as (Hk & _ & HEq & _).
  simpl in Hk. subst k. exists pre, v, rest. split_and!; [done| |done].
  rewrite HEq. apply (rounds_newParser_reader _ _ Hr).
Qed.

Lemma Encoding_follows_Base64Enc_witness :
  encoding_after [mkItem itemDataPrefix "data:"; mkItem itemDataComma ",";
                  mkItem itemBase64Enc "base64"] = EncodingBase64
  /\ reader_after [mkItem itemDataPrefix "data:"; mkItem itemDataComma ",";
                   mkItem itemBase64Enc "base64"] = Some base64DataReader.
Proof.
  pose proof (proj1 Encoding_follows_Base64Enc
                [mkItem itemDataPrefix "data:"; mkItem itemDataComma ",";
                 mkItem itemBase64Enc "base64"] _ eq_refl) as [H1 H2].
  split; [exact (eq_sym H1)|exact (eq_sym H2)].
Defined.

(** X9. A Data item is decoded by the reader in force when it comes: by
    the base64 decoder when a Base64Enc item came before it, by
    [Unescape] otherwise. When the reader fails [parse] returns its
    error; otherwise the bytes become the data and the parse goes on. *)
Theorem Data_item_uses_reader_in_force
    (pre : list item) (q : parser) (v : string) (r : encodedDataReader) :
  rounds newParser pre = Some q ->
  reader_after pre = Some r ->
  r = (if existsb (is_kind itemBase64Enc) pre
       then base64DataReader else asciiDataReader)
  /\ parse_item q (mkItem itemData v)
     = match read_data r v with
       | (_, Some e) => Return q (Some e)
       | (data, None) =>
           Next (set_du q (mkDataURL (MediaType_ (du q)) (Encoding (du q)) data))
       end.
Proof.
  intros Hr Hf. destruct (rounds_newParser_reader _ _ Hr) as [_ Hq].
  rewrite Hf in Hq. split.
  - unfold reader_after in Hf. destruct (existsb (is_kind itemBase64Enc) pre).
    + by injection Hf as <-.
    + destruct (existsb (is_kind itemDataComma) pre); [by injection Hf as <-|done].
  - unfold parse_item. cbn [t val]. rewrite Hq.
    by destruct (read_data r v) as [data [e|]].
Qed.

Lemma Data_item_uses_reader_in_force_witness :
  parse_item (mkParser (mkDataURL defaultMediaType EncodingBase64 None) ""
                       false (Some base64DataReader))
             (mkItem itemData "aGV5YQ==")
  = Next (mkParser (mkDataURL defaultMediaType EncodingBase64
                              (Some (bytes_of_string "heya")))
                   "" false (Some base64DataReader)).
Proof.
  exact (proj2 (Data_item_uses_reader_in_force
                  [mkItem itemDataPrefix "data:"; mkItem itemParamSemicolon ";";
                   mkItem itemBase64Enc "base64"; mkItem itemDataComma ","]
                  _ "aGV5YQ==" base64DataReader eq_refl eq_refl)).
Defined.

(** X10. The payload [WriteTo] writes is the payload [parse] reads: after
    items that set the reader, a Data item that holds [Escape] of the
    bytes (no Base64Enc item came) or their base64 encoding (one came)
    followed by EOF gives a result whose data are the bytes, whatever
    they are. *)
Theorem payload_roundtrip_through_parse
    (pre rest : list item) (q : parser) (data : list ascii) (v : string) :
  rounds newParser pre = Some q ->
  existsb sets_reader pre = true ->
  let payload :=
    if existsb (is_kind itemBase64Enc) pre
    then string_of_bytes (base64.Encode data) else Escape data in
  DecodeItems (pre ++ mkItem itemData payload :: mkItem itemEOF v :: rest)
  = Result (Some (mkDataURL (MediaType_ (du q)) (Encoding (du q)) (Some data))) None.
Proof.
  intros Hr Hs payload. destruct (rounds_newParser_reader _ _ Hr) as [_ Hq].
  unfold DecodeItems. rewrite (parse_rounds _ _ _ _ Hr).
  cbn [parse]. unfold parse_item at 1. cbn [t val]. rewrite Hq.
  unfold reader_after, payload.
  destruct (existsb (is_kind itemBase64Enc) pre) eqn:HB.
  - unfold read_data. by rewrite base64_DecodeString_Encode.
  - assert (HC : existsb (is_kind itemDataComma) pre = true).
    { clear -Hs HB. induction pre as [|it pre IH]; [done|].
      cbn [existsb] in *. apply orb_false_elim in HB as [HB1 HB2].
      unfold sets_reader in Hs at 1. rewrite HB1, orb_false_r in Hs.
      destruct (is_kind itemDataComma it); [done|]. by apply IH. }
    rewrite HC. unfold read_data. by rewrite Unescape_Escape.
Qed.

Lemma payload_roundtrip_through_parse_witness :
  DecodeItems [mkItem itemDataPrefix "data:"; mkItem itemDataComma ",";
               mkItem itemData (Escape (bytes_of_string "a b;c"));
               mkItem itemEOF ""]
  = Result (Some (mkDataURL defaultMediaType EncodingASCII
                            (Some (bytes_of_string "a b;c")))) None.
Proof.
  exact (payload_roundtrip_through_parse
           [mkItem itemDataPrefix "data:"; mkItem itemDataComma ","] []
           _ (bytes_of_string "a b;c") "" eq_refl eq_refl).
Defined.

(** ** The parser: when it panics *)

Lemma rounds_no_reader (pre : list item) (q : parser) :
  rounds newParser pre = Some q ->
  existsb sets_reader pre = false ->
  encodedDataReaderFn q = None.
Proof.
  intros Hr Hs. destruct (rounds_newParser_reader _ _ Hr) as [_ ->].
  unfold reader_after.
  assert (existsb (is_kind itemBase64Enc) pre = false
          /\ existsb (is_kind itemDataComma) pre = false) as [-> ->]; [|done].
  clear -Hs. induction pre as [|it pre IH]; [done|].
  cbn [existsb] in *. apply orb_false_elim in Hs as [H1 H2].
  apply orb_false_elim in H1 as [-> ->]. by apply IH.
Qed.

(** X11. A Data item that comes before any DataComma or Base64Enc item
    finds a nil reader: calling it panics, whatever the value of the
    item and whatever follows. *)
Theorem Data_before_comma_panics
    (pre rest : list item) (q : parser) (v : string) :
  rounds newParser pre = Some q ->
  existsb sets_reader pre = false ->
  DecodeItems (pre ++ mkItem itemData v :: rest) = Panic nilDereference.
Proof.
  intros Hr Hs. unfold DecodeItems. rewrite (parse_rounds _ _ _ _ Hr).
  cbn [parse]. unfold parse_item. cbn [t val].
  by rewrite (rounds_no_reader _ _ Hr Hs).
Qed.

Lemma Data_before_comma_panics_witness :
  DecodeItems [mkItem itemDataPrefix "data:"; mkItem itemData "x"; mkItem itemEOF ""]
  = Panic nilDereference.
Proof.
  exact (Data_before_comma_panics [mkItem itemDataPrefix "data:"] [mkItem itemEOF ""]
           _ "x" eq_refl eq_refl).
Defined.

Lemma parse_item_ends (p : parser) (it : item) :
  ends_parse it = true -> exists p' e, parse_item p it = Return p' e.
Proof.
  destruct it as [k v]. unfold ends_parse, is_kind, parse_item. cbn [t val].
  destruct k; try done; intros _; [by eexists _, _|].
  destruct (Data (du p)); by eexists _, _.
Qed.

Lemma parse_guarded (items : list item) :
  forall p : parser,
    data_guarded (bool_decide (is_Some (encodedDataReaderFn p))) items = true ->
    existsb ends_parse items = true ->
    exists p' e, parse p items = Returned p' e.
Proof.
  induction items as [|it items IH]; intros p Hg He; [done|].
  cbn [parse]. cbn [existsb] in He. cbn [data_guarded] in Hg.
  destruct (ends_parse it) eqn:Hend.
  { destruct (parse_item_ends p it Hend) as (p' & e & ->). by exists p', e. }
  simpl in He.
  destruct (parse_item p it) as [p1|p1 e1|x] eqn:E.
  - apply IH; [|done].
    destruct (parse_item_Next_reader _ _ _ E) as [_ HF]. rewrite HF.
    unfold sets_reader in Hg.
    destruct (is_kind itemBase64Enc it) eqn:HB.
    + rewrite orb_true_r in Hg. by rewrite bool_decide_true by eauto.
    + rewrite orb_false_r in Hg. destruct (is_kind itemDataComma it) eqn:HC.
      * by rewrite bool_decide_true by eauto.
      * destruct (is_kind itemData it); [|done].
        by apply andb_prop in Hg as [_ Hg].
  - by exists p1, e1.
  - exfalso. revert E Hg. clear. destruct it as [k v].
    unfold parse_item. cbn [t val].
    destruct k; try done;
      repeat match goal with
        | |- context [if unquoteParamVal p then _ else _] =>
            destruct (unquoteParamVal p)
        | |- context [strconv.Unquote ?s] => destruct (strconv.Unquote s) as [? [?|]]
        | |- context [UnescapeToString ?s] => destruct (UnescapeToString s) as [? [?|]]
        | |- context [Data (du p)] => destruct (Data (du p))
        end; try done.
    + destruct (encodedDataReaderFn p); done.
    + destruct (encodedDataReaderFn p) as [fn|] eqn:F.
      * by destruct (read_data fn v) as [? [?|]].
      * intros _. unfold sets_reader, is_kind. simpl. done.
Qed.

(** X12. [DecodeString] returns, with a value or with an error, and does
    not panic, whenever the items hold an EOF or an Error item and every
    Data item comes after a DataComma or a Base64Enc item. *)
Theorem parse_returns_when_guarded (items : list item) :
  data_guarded false items = true ->
  existsb ends_parse items = true ->
  exists d e, DecodeItems items = Result d e.
Proof.
  intros Hg He. destruct (parse_guarded items newParser) as (p & e & H); try done.
  unfold DecodeItems. rewrite H. destruct e; by eexists _, _.
Qed.

Lemma parse_returns_when_guarded_witness :
  exists d e,
    DecodeItems [mkItem itemDataPrefix "data:"; mkItem itemDataComma ",";
                 mkItem itemData "%zz"; mkItem itemEOF ""] = Result d e.
Proof.
  exact (parse_returns_when_guarded
           [mkItem itemDataPrefix "data:"; mkItem itemDataComma ",";
            mkItem itemData "%zz"; mkItem itemEOF ""] eq_refl eq_refl).
Defined.

(** ** The parser: the parameters *)

Lemma rounds_param (p : parser) (k v : string) :
  unquoteParamVal p = false ->
  rounds p (param_items (k, v))
  = Some (mkParser
            (mkDataURL
               (mkMediaType (Type_ (MediaType_ (du p))) (Subtype (MediaType_ (du p)))
                            (<[k := v]> (params_of p)))
               (Encoding (du p)) (Data (du p)))
            k false (encodedDataReaderFn p)).
Proof.
  intros Hq. unfold param_items. cbn [rounds]. unfold parse_item at 1. cbn [t val].
  unfold parse_item at 1. cbn [t val fst snd].
  unfold parse_item at 1. cbn [t val currentAttr du unquoteParamVal encodedDataReaderFn].
  unfold parse_item at 1.
  cbn [t val currentAttr du unquoteParamVal encodedDataReaderFn].
  rewrite Hq. by rewrite UnescapeToString_EscapeString.
Qed.

Lemma rounds_params (kvs : list (string * string)) :
  forall p : parser,
    unquoteParamVal p = false ->
    exists q,
      rounds p (concat (map param_items kvs)) = Some q
      /\ params_of q = foldl (fun m kv => <[kv.1 := kv.2]> m) (params_of p) kvs
      /\ Type_ (MediaType_ (du q)) = Type_ (MediaType_ (du p))
      /\ Subtype (MediaType_ (du q)) = Subtype (MediaType_ (du p))
      /\ Encoding (du q) = Encoding (du p)
      /\ Data (du q) = Data (du p)
      /\ encodedDataReaderFn q = encodedDataReaderFn p
      /\ unquoteParamVal q = false.
Proof.
  induction kvs as [|[k v] kvs IH]; intros p Hq.
  - by exists p.
  - cbn [map concat foldl]. rewrite rounds_app, (rounds_param _ _ _ Hq).
    cbn [mbind option_bind].
    set (p1 := mkParser _ k false _).
    destruct (IH p1 eq_refl) as (q & Hr & HP & HT & HS & HE & HD & HF & HU).
    exists q. by rewrite Hr.
Qed.

Lemma foldl_insert_union (kvs : list (string * string)) (m : gmap string string) :
  foldl (fun m kv => <[kv.1 := kv.2]> m) m kvs
  = foldl (fun (m : gmap string string) kv => <[kv.1 := kv.2]> m) ∅ kvs ∪ m.
Proof.
  induction kvs as [|[k v] kvs IH] using rev_ind.
  - cbn [foldl]. by rewrite (left_id_L ∅ (∪)).
  - rewrite !foldl_app. cbn [foldl fst snd]. by rewrite IH, insert_union_l.
Qed.

(** X13. The parameters [MediaType.String] writes are the parameters
    [parse] reads: going through the items of [;name=value] for each
    parameter, the value escaped by [EscapeString], in whatever order
    the map was ranged over, stores every parameter with its value as it
    was, keeps the parameters of other names and leaves the rest of the
    result alone. *)
Theorem Params_roundtrip_through_parse
    (mt : MediaType) (kvs : list (string * string)) (p : parser) :
  range_order mt kvs ->
  unquoteParamVal p = false ->
  exists q,
    rounds p (concat (map param_items kvs)) = Some q
    /\ (forall k, params_of q !! k
                  = match Params mt !! k with
                    | Some v => Some v
                    | None => params_of p !! k
                    end)
    /\ Type_ (MediaType_ (du q)) = Type_ (MediaType_ (du p))
    /\ Subtype (MediaType_ (du q)) = Subtype (MediaType_ (du p))
    /\ Encoding (du q) = Encoding (du p)
    /\ Data (du q) = Data (du p).
Proof.
  intros Hk Hq.
  destruct (rounds_params kvs p Hq) as (q & Hr & HP & HT & HS & HE & HD & _).
  exists q. split_and!; try done.
  intros k. rewrite HP, foldl_insert_union, (foldl_insert_range mt kvs Hk).
  rewrite lookup_union. by destruct (Params mt !! k), (params_of p !! k).
Qed.

Lemma Params_roundtrip_through_parse_witness :
  exists q,
    rounds newParser
      (concat (map param_items [("name", "a b;c")])) = Some q
    /\ (forall k, params_of q !! k
                  = match ({[ "name" := "a b;c" ]} : gmap string string) !! k with
                    | Some v => Some v
                    | None => params_of newParser !! k
                    end)
    /\ Type_ (MediaType_ (du q)) = "text"
    /\ Subtype (MediaType_ (du q)) = "plain"
    /\ Encoding (du q) = EncodingASCII
    /\ Data (du q) = None.
Proof.
  assert (Hk : range_order (mkMediaType "text" "plain" {[ "name" := "a b;c" ]})
                 [("name", "a b;c")]).
  { unfold range_order. cbn [Params]. by rewrite map_to_list_singleton. }
  exact (Params_roundtrip_through_parse _ _ newParser Hk eq_refl).
Defined.

Lemma parse_item_keeps_param (p p' : parser) (it : item) (k : string) :
  parse_item p it = Next p' ->
  is_Some (params_of p !! k) ->
  k <> "charset" \/ is_kind itemMediaType it = false ->
  is_Some (params_of p' !! k).
Proof.
  intros HN Hk Hc. destruct (parse_item_Next_params _ _ _ HN) as [_ H].
  destruct it as [ty v]. cbn [t] in H. unfold is_kind in Hc. cbn [t] in Hc.
  destruct ty; try (by rewrite H).
  - rewrite H. destruct Hc as [Hc|Hc]; [|done]. by rewrite lookup_delete_ne.
  - destruct H as [us ->]. rewrite lookup_insert_is_Some.
    destruct (decide (currentAttr p = k)); auto.
Qed.

(** X14. [parse] removes no parameter but [charset], and that one only
    at a MediaType item: a parameter of another name, once stored, is in
    the result (its value may be replaced), and without a MediaType item
    the result keeps a [charset] parameter. *)
Theorem parse_keeps_parameters
    (items : list item) (p q : parser) (k : string) :
  rounds p items = Some q ->
  is_Some (params_of p !! k) ->
  k <> "charset" \/ has_MediaType items = false ->
  is_Some (params_of q !! k).
Proof.
  revert p. induction items as [|it items IH]; intros p; cbn [rounds].
  - by intros [= ->].
  - destruct (parse_item p it) as [p1| |] eqn:E; try done.
    intros Hr Hk Hc. apply (IH p1 Hr).
    + apply (parse_item_keeps_param _ _ _ _ E Hk).
      destruct Hc as [Hc|Hc]; [by left|right].
      unfold has_MediaType in Hc. cbn [existsb] in Hc.
      by apply orb_false_elim in Hc as [Hc _].
    + destruct Hc as [Hc|Hc]; [by left|right].
      unfold has_MediaType in Hc. cbn [existsb] in Hc.
      by apply orb_false_elim in Hc as [_ Hc].
Qed.

Lemma parse_keeps_parameters_witness :
  is_Some (params_of
             (mkParser
                (mkDataURL (mkMediaType "text" "plain"
                              (<["foo" := "bar"]> {[ "charset" := "US-ASCII" ]}))
                           EncodingASCII None) "foo" false None)
           !! "charset").
Proof.
  exact (parse_keeps_parameters
           [mkItem itemDataPrefix "data:"; mkItem itemParamSemicolon ";";
            mkItem itemParamAttr "foo"; mkItem itemParamEqual "=";
            mkItem itemParamVal "bar"]
           newParser _ "charset" eq_refl (mk_is_Some _ _ eq_refl)
           (or_intror eq_refl)).
Defined.

(** ** The serializer *)

(** X15. What [DecodeString] returns can be written: for every value it
    returns without an error, [WriteTo] into a buffer returns a nil
    error and [String] gives the prefix, the media type with its
    parameters, [;base64] when the encoding is [base64], the comma and
    the data, base64-encoded or escaped. *)
Theorem decoded_value_is_written_whole
    (items : list item) (d : DataURL) (kvs : list (string * string)) :
  DecodeItems items = Result (Some d) None ->
  exists data,
    Data d = Some data
    /\ (WriteTo Buffer_Write kvs d []).2.2 = None
    /\ DataURL_String kvs d
       = ("data:" ++ MediaType_String kvs (MediaType_ d)
          ++ (if String.eqb (Encoding d) EncodingBase64
              then ";base64," ++ string_of_bytes (base64.Encode data)
              else "," ++ Escape data))%string.
Proof.
  intros H. pose proof (DecodeItems_Encoding _ _ H) as HE.
  assert (HD : is_Some (Data d)).
  { apply DecodeItems_inv in H as (p & Hp & ->).
    destruct (parse_Returned _ _ _ _ Hp) as (pre & it & rest & q & -> & Hr & Hi).
    destruct (parse_item_Return_nil _ _ _ Hi) as (_ & _ & _ & ->). by eexists. }
  destruct HD as [data HD]. exists data. split_and!; [done| |].
  - rewrite WriteTo_Buffer. by destruct HE as [-> | ->].
  - rewrite (DataURL_String_text kvs d HE). unfold data_bytes. by rewrite HD.
Qed.

Lemma decoded_value_is_written_whole_witness :
  exists data,
    Some (bytes_of_string "heya") = Some data
    /\ (WriteTo Buffer_Write [("charset", "utf-8")]
          (mkDataURL (mkMediaType "text" "plain" {[ "charset" := "utf-8" ]})
                     EncodingBase64 (Some (bytes_of_string "heya"))) []).2.2 = None
    /\ DataURL_String [("charset", "utf-8")]
         (mkDataURL (mkMediaType "text" "plain" {[ "charset" := "utf-8" ]})
                    EncodingBase64 (Some (bytes_of_string "heya")))
       = ("data:" ++ MediaType_String [("charset", "utf-8")]
                       (mkMediaType "text" "plain" {[ "charset" := "utf-8" ]})
          ++ ";base64," ++ string_of_bytes (base64.Encode data))%string.
Proof.
  assert (H : DecodeItems
                [mkItem itemDataPrefix "data:"; mkItem itemMediaType "text";
                 mkItem itemMediaSep "/"; mkItem itemMediaSubType "plain";
                 mkItem itemParamSemicolon ";"; mkItem itemParamAttr "charset";
                 mkItem itemParamEqual "="; mkItem itemParamVal "utf-8";
                 mkItem itemParamSemicolon ";"; mkItem itemBase64Enc "base64";
                 mkItem itemDataComma ","; mkItem itemData "aGV5YQ==";
                 mkItem itemEOF ""]
              = Result (Some (mkDataURL
                                (mkMediaType "text" "plain" {[ "charset" := "utf-8" ]})
                                EncodingBase64 (Some (bytes_of_string "heya")))) None).
  { vm_compute. reflexivity. }
  exact (decoded_value_is_written_whole _ _ [("charset", "utf-8")] H).
Defined.

(** X16. With an encoding that is neither [ascii] nor [base64] (the empty
    string of a [DataURL] built without one, for instance) [WriteTo]
    reports the invalid-encoding error only after it has written the
    prefix, the media type and the comma, which it counts; [String],
    which drops the error, gives that text with no data. *)
Theorem String_with_unknown_encoding
    (kvs : list (string * string)) (d : DataURL) :
  Encoding d <> EncodingASCII ->
  Encoding d <> EncodingBase64 ->
  let header := ("data:" ++ MediaType_String kvs (MediaType_ d) ++ ",")%string in
  WriteTo Buffer_Write kvs d []
  = (bytes_of_string header,
     (int64 (Z.of_nat (String.length header)),
      Some (errorString ("dataurl: invalid encoding " ++ Encoding d)%string)))
  /\ DataURL_String kvs d = header.
Proof.
  intros Ha Hb header. unfold DataURL_String. rewrite WriteTo_Buffer.
  apply String.eqb_neq in Ha, Hb. rewrite Ha, Hb. cbn [fst].
  by rewrite string_bytes_string.
Qed.

Lemma String_with_unknown_encoding_witness :
  DataURL_String [] (mkDataURL (mkMediaType "text" "plain" ∅) ""
                               (Some (bytes_of_string "heya")))
  = "data:text/plain,".
Proof.
  assert (Ha : "" <> EncodingASCII) by done.
  assert (Hb : "" <> EncodingBase64) by done.
  exact (proj2 (String_with_unknown_encoding []
                  (mkDataURL (mkMediaType "text" "plain" ∅) ""
                             (Some (bytes_of_string "heya"))) Ha Hb)).
Defined.

Lemma length_params_String (kvs1 kvs2 : list (string * string)) :
  kvs1 ≡ₚ kvs2 ->
  String.length (params_String kvs1) = String.length (params_String kvs2).
Proof.
  induction 1 as [|[k v] l1 l2 _ IH|[k1 v1] [k2 v2] l|l1 l2 l3 _ IH1 _ IH2].
  - done.
  - cbn [params_String]. rewrite !length_append. by rewrite IH.
  - cbn [params_String]. rewrite !length_append. lia.
  - by rewrite IH1.
Qed.

Lemma name_before_equal (a b x y : string) :
  contains a "=" = false -> contains b "=" = false ->
  (a ++ String "=" x)%string = (b ++ String "=" y)%string -> a = b.
Proof.
  revert b. induction a as [|c a IH]; intros [|d b]; cbn [contains].
  - done.
  - intros _ [Hd _]%orb_false_elim. rewrite append_Empty, append_String.
    intros [= <- _]. done.
  - intros [Hc _]%orb_false_elim _. rewrite append_Empty, append_String.
    intros [= -> _]. done.
  - intros [_ Ha]%orb_false_elim [_ Hb]%orb_false_elim. rewrite !append_String.
    intros [= -> E]. f_equal. by apply IH.
Qed.

(** X17. The text [MediaType.String] gives depends on the order in which
    the map of parameters is ranged over, which Go leaves open: two
    orders give texts of the same length, and the same text when there
    is at most one parameter; exchanging the first two parameters
    ranged over changes the text, when their names hold no [=]. *)
Theorem MediaType_String_orders
    (mt : MediaType) (kvs1 kvs2 : list (string * string)) :
  range_order mt kvs1 ->
  range_order mt kvs2 ->
  String.length (MediaType_String kvs1 mt) = String.length (MediaType_String kvs2 mt)
  /\ ((size (Params mt) <= 1)%nat ->
      MediaType_String kvs1 mt = MediaType_String kvs2 mt)
  /\ (forall k1 v1 k2 v2 l,
         kvs1 = (k1, v1) :: (k2, v2) :: l ->
         kvs2 = (k2, v2) :: (k1, v1) :: l ->
         contains k1 "=" = false -> contains k2 "=" = false ->
         MediaType_String kvs1 mt <> MediaType_String kvs2 mt).
Proof.
  unfold range_order. intros H1 H2. split_and!.
  - unfold MediaType_String. rewrite !length_append. f_equal.
    apply length_params_String. by rewrite H1, H2.
  - intros Hs. rewrite <- length_map_to_list in Hs.
    assert (kvs1 = kvs2) as ->; [|done].
    destruct (map_to_list (Params mt)) as [|kv [|kv' l]].
    + apply Permutation_nil_r in H1, H2. by subst.
    + apply Permutation_singleton_r in H1, H2. by subst.
    + simpl in Hs. lia.
  - intros k1 v1 k2 v2 l -> -> Hk1 Hk2 E.
    assert (Hne : k1 <> k2).
    { intros ->. pose proof (NoDup_fst_map_to_list (Params mt)) as Hnd.
      rewrite <- H1 in Hnd. cbn [fmap list_fmap fst] in Hnd.
      apply NoDup_cons in Hnd as [Hnd _]. apply Hnd, elem_of_cons. by left. }
    unfold MediaType_String in E. apply Hne.
    assert (Happ : forall a b c : string, (a ++ b)%string = (a ++ c)%string -> b = c).
    { intros a b c. induction a as [|x a IH]; [done|].
      rewrite !append_String. intros [= H]. by apply IH. }
    apply Happ in E. cbn [params_String] in E.
    change (";" ++ ?x)%string with (String ";" x) in E.
    injection E as E.
    change ("=" ++ ?x)%string with (String "=" x) in E.
    by apply (name_before_equal _ _ _ _ Hk1 Hk2 E).
Qed.

Lemma MediaType_String_orders_witness :
  String.eqb
    (MediaType_String [("a", "1"); ("b", "2")]
       (mkMediaType "text" "plain" (<["a" := "1"]> {[ "b" := "2" ]})))
    (MediaType_String [("b", "2"); ("a", "1")]
       (mkMediaType "text" "plain" (<["a" := "1"]> {[ "b" := "2" ]})))
  = false.
Proof.
  assert (H1 : range_order (mkMediaType "text" "plain" (<["a" := "1"]> {[ "b" := "2" ]}))
                 [("a", "1"); ("b", "2")]).
  { unfold range_order. cbn [Params].
    rewrite map_to_list_insert by done. by rewrite map_to_list_singleton. }
  assert (H2 : range_order (mkMediaType "text" "plain" (<["a" := "1"]> {[ "b" := "2" ]}))
                 [("b", "2"); ("a", "1")]).
  { unfold range_order. cbn [Params].
    rewrite map_to_list_insert by done. rewrite map_to_list_singleton.
    apply Permutation_swap. }
  exact (proj2 (String.eqb_neq _ _)
           (proj2 (proj2 (MediaType_String_orders _ _ _ H1 H2))
              "a" "1" "b" "2" [] eq_refl eq_refl eq_refl eq_refl)).
Defined.

(** ** [Decode]: reading all of a reader *)

Lemma ReadAll_loop_strings (grow : nat -> nat) (x : string) :
  (forall c, c < grow c)%nat ->
  forall (fuel k : nat) (b : list ascii) (cap : nat),
    (k <= String.length x)%nat ->
    b = take k (bytes_of_string x) ->
    (length b < cap)%nat ->
    (String.length x - k < fuel)%nat ->
    ReadAll_loop strings.Read grow fuel (strings.mkReader x k) b cap
    = ReadAllReturns (bytes_of_string x) None.
Proof.
  intros Hgrow. induction fuel as [|fuel IH]; intros k b cap Hk Hb Hcap Hf; [lia|].
  pose proof (length_bytes_of_string x) as Hlen.
  cbn [ReadAll_loop]. unfold strings.Read. cbn [strings.s strings.i].
  destruct (Nat.leb_spec (String.length x) k) as [Hend|Hmore].
  - replace (cap - length b <? length [])%nat with false
      by (symmetry; apply Nat.ltb_ge; simpl; lia).
    rewrite app_nil_r. f_equal. rewrite Hb. apply take_ge. lia.
  - set (p := take (cap - length b) (drop k (bytes_of_string x))).
    assert (Hp : (length p <= cap - length b)%nat).
    { unfold p. rewrite length_take. lia. }
    assert (Hp1 : (1 <= length p)%nat).
    { unfold p. rewrite length_take, length_drop. lia. }
    assert (Hpk : (k + length p <= String.length x)%nat).
    { unfold p. rewrite length_take, length_drop. lia. }
    replace (cap - length b <? length p)%nat with false
      by (symmetry; apply Nat.ltb_ge; lia).
    apply IH.
    + done.
    + unfold p. rewrite Hb at 1. rewrite take_take_drop.
      rewrite length_take, length_drop.
      destruct (Nat.le_ge_cases (cap - length b)
                                (length (bytes_of_string x) - k)) as [H|H].
      * by rewrite Nat.min_l.
      * rewrite Nat.min_r by done. rewrite !take_ge; [done| |]; lia.
    + destruct (Nat.eqb_spec (length (b ++ p)) cap) as [E|E].
      * rewrite E. apply Hgrow.
      * rewrite length_app in *. lia.
    + lia.
Qed.

(** X18. [Decode] on a [strings.Reader] over a string is [DecodeString]
    on that string, as the package's tests use it: [ReadAll] reads all
    of the string, in at most as many rounds as it has bytes plus one,
    whatever capacity [append] picks when it grows the slice. When a
    reader fails at its first [Read] with an error other than [io.EOF],
    [Decode] returns that error and no value, whatever bytes came with
    the error. *)
Theorem Decode_reads_all
    (grow : nat -> nat) (x : string) (fuel : nat) :
  (forall c, c < grow c)%nat ->
  (String.length x < fuel)%nat ->
  Decode strings.Read grow fuel (strings.NewReader x) = Decoded (DecodeString x)
  /\ (forall (R : Type) (Read : R -> nat -> R * (list ascii * option readError))
             (r r' : R) (p : list ascii) (e : error),
         Read r 512%nat = (r', (p, Some (readFailure e))) ->
         (length p <= 512)%nat ->
         Decode Read grow fuel r = Decoded (Result None (Some e))).
Proof.
  intros Hgrow Hf. split.
  - unfold Decode, ReadAll, strings.NewReader.
    rewrite (ReadAll_loop_strings grow x Hgrow fuel 0 [] 512); try done; try lia.
    + by rewrite string_bytes_string.
    + simpl. lia.
  - intros R Read r r' p e HR Hp. unfold Decode, ReadAll.
    destruct fuel as [|fuel]; [lia|]. cbn [ReadAll_loop].
    change (512 - length [])%nat with 512%nat. rewrite HR.
    replace (512 <? length p)%nat with false by (symmetry; apply Nat.ltb_ge; lia).
    done.
Qed.

Lemma Decode_reads_all_witness :
  Decode strings.Read (fun c => S c) 23 (strings.NewReader "data:;base64,aGV5YQ==")
  = Decoded (DecodeString "data:;base64,aGV5YQ==").
Proof.
  assert (Hg : forall c, (c < S c)%nat) by (intros c; apply Nat.lt_succ_diag_r).
  assert (Hf : (String.length "data:;base64,aGV5YQ==" < 23)%nat).
  { apply Nat.ltb_lt. reflexivity. }
  exact (proj1 (Decode_reads_all (fun c => S c) "data:;base64,aGV5YQ==" 23 Hg Hf)).
Defined.

(** ** The base64 reader: what it refuses *)

(** [decodeQuantum] over characters of the alphabet that do not fill the
    quantum. *)
Lemma decodeQuantum_alphabet (rl : list ascii) :
  forall (dbuf : list Z) (tail : list ascii) (si : Z),
    forallb in_alphabet rl = true ->
    (length dbuf + length rl < 4)%nat ->
    base64.decodeQuantum (rl ++ tail) si dbuf
    = base64.decodeQuantum tail (si + Z.of_nat (length rl))
        (dbuf ++ map base64.decodeMap rl).
Proof.
  induction rl as [|c rl IH]; intros dbuf tail si Ha Hl.
  - cbn [app length map]. by rewrite Z.add_0_r, app_nil_r.
  - cbn [forallb] in Ha. apply andb_prop in Ha as [Hc Ha].
    cbn [app base64.decodeQuantum]. unfold in_alphabet in Hc. rewrite Hc.
    cbn [length] in Hl.
    replace (length (dbuf ++ [base64.decodeMap c]) =? 4)%nat with false
      by (symmetry; apply Nat.eqb_neq; rewrite length_app; simpl; lia).
    rewrite IH; [|done|rewrite length_app; simpl; lia].
    cbn [length map]. rewrite <- app_assoc. cbn [app]. f_equal. lia.
Qed.

(** [decodeQuantum] over four characters of the alphabet. *)
Lemma decodeQuantum_alphabet_4 (a b c d : ascii) (tail : list ascii) (si : Z) :
  forallb in_alphabet [a; b; c; d] = true ->
  exists out,
    base64.decodeQuantum (a :: b :: c :: d :: tail) si []
    = base64.Quantum tail (si + 4) out None.
Proof.
  intros Ha. cbn [forallb] in Ha.
  apply andb_prop in Ha as [Hd Ha]. apply andb_prop in Ha as [Hc' Ha].
  apply andb_prop in Ha as [Hb' Ha]. apply andb_prop in Ha as [Ha' _].
  change (a :: b :: c :: d :: tail) with ([a; b; c] ++ d :: tail).
  rewrite (decodeQuantum_alphabet [a; b; c] [] (d :: tail) si).
  - cbn [base64.decodeQuantum length map app]. unfold in_alphabet in Ha'.
    rewrite Ha'. cbn [length Nat.eqb]. eexists. f_equal. lia.
  - cbn [forallb]. by rewrite Hd, Hc', Hb'.
  - simpl. lia.
Qed.

Lemma forallb_all_chars (P : ascii -> bool) (s : string) :
  forallb P (bytes_of_string s) = all_chars P s.
Proof. induction s as [|c s IH]; [done|]. simpl. by rewrite IH. Qed.

(** The loop of [Decode] over whole quanta of the alphabet. *)
Lemma Decode_alphabet (q : nat) :
  forall (pre tail : list ascii) (fuel : nat) (si : Z) (dst : list ascii),
    forallb in_alphabet pre = true ->
    length pre = (4 * q)%nat ->
    tail <> [] ->
    exists out,
      base64.Decode (q + fuel) (pre ++ tail) si dst
      = base64.Decode fuel tail (si + 4 * Z.of_nat q) (dst ++ out).
Proof.
  induction q as [|q IH]; intros pre tail fuel si dst Ha Hl Ht.
  - destruct pre; [|done]. exists []. by rewrite Z.add_0_r, app_nil_r.
  - destruct pre as [|a [|b [|c [|d pre]]]]; try (simpl in Hl; lia).
    cbn [forallb] in Ha.
    apply andb_prop in Ha as [Ha1 Ha]. apply andb_prop in Ha as [Ha2 Ha].
    apply andb_prop in Ha as [Ha3 Ha]. apply andb_prop in Ha as [Ha4 Ha].
    destruct (decodeQuantum_alphabet_4 a b c d (pre ++ tail) si) as [out Hq].
    { cbn [forallb]. by rewrite Ha1, Ha2, Ha3, Ha4. }
    cbn [Nat.add base64.Decode app]. rewrite Hq.
    cbn [base64.q_err base64.q_out base64.q_rest base64.q_nsi].
    destruct (IH pre tail fuel (si + 4) (dst ++ out) Ha) as [out' ->]; [|done|].
    + simpl in Hl. lia.
    + exists (out ++ out'). rewrite <- app_assoc.
      by replace (si + 4 + 4 * Z.of_nat q) with (si + 4 * Z.of_nat (S q)) by lia.
Qed.

Lemma drop_mod4 (l : list ascii) :
  let q := (length l / 4)%nat in
  l = take (4 * q) l ++ drop (4 * q) l
  /\ length (take (4 * q) l) = (4 * q)%nat
  /\ length (drop (4 * q) l) = (length l mod 4)%nat.
Proof.
  cbv zeta. rewrite take_drop, length_take, length_drop.
  split_and!; [done|natmod|natmod].
Qed.

(** The loop of [Decode] on whole quanta followed by an incomplete one. *)
Lemma Decode_incomplete (q : nat) (pre rl : list ascii) (fuel : nat) :
  forallb in_alphabet pre = true ->
  length pre = (4 * q)%nat ->
  forallb in_alphabet rl = true ->
  (0 < length rl < 4)%nat ->
  (q < fuel)%nat ->
  exists out,
    base64.Decode fuel (pre ++ rl) 0 []
    = (out, Some (CorruptInputError (4 * Z.of_nat q))).
Proof.
  intros Hapre Hpre Harl Hrl Hf.
  assert (Hne : rl <> []) by (intros ->; simpl in Hrl; lia).
  replace fuel with (q + S (fuel - S q))%nat by lia.
  destruct (Decode_alphabet q pre rl (S (fuel - S q)) 0 [] Hapre Hpre Hne) as [out ->].
  assert (Hq : forall si,
             base64.decodeQuantum rl si []
             = base64.Quantum [] (si + Z.of_nat (length rl)) []
                 (Some (CorruptInputError si))).
  { intros si. pose proof (decodeQuantum_alphabet rl [] [] si Harl) as H.
    rewrite app_nil_r in H. rewrite H by (simpl; lia).
    cbn [base64.decodeQuantum app]. destruct rl as [|c rl']; [done|].
    cbn [map]. do 3 f_equal. cbn [length]. rewrite length_map. lia. }
  cbn [base64.Decode]. rewrite Hq. destruct rl as [|c rl']; [done|].
  cbn [base64.q_err base64.q_out]. eexists. do 3 f_equal.
Qed.

(** The loop of [Decode] on whole quanta followed by an incomplete one
    that a foreign character ends. *)
Lemma Decode_foreign (q : nat) (pre rl tl : list ascii) (c : ascii) (fuel : nat) :
  forallb in_alphabet pre = true ->
  length pre = (4 * q)%nat ->
  forallb in_alphabet rl = true ->
  (length rl < 4)%nat ->
  in_alphabet c = false ->
  base64.is_newline c = false ->
  c <> base64.padChar ->
  (q < fuel)%nat ->
  exists out,
    base64.Decode fuel (pre ++ rl ++ c :: tl) 0 []
    = (out, Some (CorruptInputError (4 * Z.of_nat q + Z.of_nat (length rl)))).
Proof.
  intros Hapre Hpre Harl Hrl Hc Hn Hp Hf.
  assert (Hne : rl ++ c :: tl <> []) by by destruct rl.
  replace fuel with (q + S (fuel - S q))%nat by lia.
  destruct (Decode_alphabet q pre (rl ++ c :: tl) (S (fuel - S q)) 0 []
              Hapre Hpre Hne) as [out ->].
  cbn [base64.Decode].
  destruct (rl ++ c :: tl) as [|x xs] eqn:E; [done|]. rewrite <- E.
  rewrite (decodeQuantum_alphabet rl [] (c :: tl) _ Harl) by (simpl; lia).
  cbn [base64.decodeQuantum app]. unfold in_alphabet in Hc. rewrite Hc, Hn.
  assert (Hpc : Ascii.eqb c base64.padChar = false) by by apply Ascii.eqb_neq.
  rewrite Hpc. cbn [negb base64.q_err base64.q_out]. eexists. do 3 f_equal. lia.
Qed.

(** X19. The base64 reader refuses a payload of characters of the
    alphabet whose length is not a multiple of four (the padding is
    missing): no data is returned and the error is a
    [CorruptInputError] at the start of the incomplete group. *)
Theorem base64_reader_refuses_missing_padding (payload : string) :
  all_chars in_alphabet payload = true ->
  (String.length payload mod 4 <> 0)%nat ->
  read_data base64DataReader payload
  = (None,
     Some (CorruptInputError
             (Z.of_nat (String.length payload - String.length payload mod 4)))).
Proof.
  intros Ha Hm. unfold read_data, base64.DecodeString.
  rewrite <- forallb_all_chars in Ha.
  rewrite <- (length_bytes_of_string payload) in *.
  generalize dependent (bytes_of_string payload). intros l Ha Hm.
  destruct (drop_mod4 l) as (El & Hpre & Hrest). cbv zeta in *.
  assert (Hall : forallb in_alphabet (take (4 * (length l / 4)) l) = true
                 /\ forallb in_alphabet (drop (4 * (length l / 4)) l) = true).
  { rewrite <- (take_drop (4 * (length l / 4)) l) in Ha at 1.
    rewrite forallb_app in Ha. by apply andb_prop in Ha. }
  destruct Hall as [Hapre Harl].
  destruct (Decode_incomplete (length l / 4) _ _ (length l) Hapre Hpre Harl)
    as [out Hd].
  - rewrite Hrest. split; [lia|]. apply Nat.mod_upper_bound. lia.
  - natmod.
  - rewrite take_drop in Hd. rewrite Hd. do 3 f_equal. natmod.
Qed.

Lemma base64_reader_refuses_missing_padding_witness :
  read_data base64DataReader "aGV5YQ" = (None, Some (CorruptInputError 4)).
Proof.
  assert (Hm : (String.length "aGV5YQ" mod 4 <> 0)%nat) by (simpl; lia).
  exact (base64_reader_refuses_missing_padding "aGV5YQ" eq_refl Hm).
Defined.

(** X20. The base64 reader refuses a character that is neither of the
    alphabet, nor the padding [=], nor a newline (a space, a [%], the
    [-] and [_] of the URL alphabet), whatever follows it: after
    characters of the alphabet, no data is returned and the error is a
    [CorruptInputError] at the place of that character. *)
Theorem base64_reader_refuses_foreign_character
    (pre post : string) (c : ascii) :
  all_chars in_alphabet pre = true ->
  in_alphabet c = false ->
  base64.is_newline c = false ->
  c <> base64.padChar ->
  read_data base64DataReader (pre ++ String c post)
  = (None, Some (CorruptInputError (Z.of_nat (String.length pre)))).
Proof.
  intros Ha Hc Hn Hp. unfold read_data, base64.DecodeString.
  rewrite <- forallb_all_chars in Ha.
  rewrite bytes_of_string_app, length_append.
  change (bytes_of_string (String c post)) with (c :: bytes_of_string post).
  cbn [String.length]. rewrite <- (length_bytes_of_string pre).
  generalize dependent (bytes_of_string pre). intros l Ha.
  destruct (drop_mod4 l) as (El & Hpre & Hrest). cbv zeta in *.
  assert (Hall : forallb in_alphabet (take (4 * (length l / 4)) l) = true
                 /\ forallb in_alphabet (drop (4 * (length l / 4)) l) = true).
  { rewrite <- (take_drop (4 * (length l / 4)) l) in Ha at 1.
    rewrite forallb_app in Ha. by apply andb_prop in Ha. }
  destruct Hall as [Hapre Harl].
  destruct (Decode_foreign (length l / 4) _ _ (bytes_of_string post) c
              (length l + S (String.length post)) Hapre Hpre Harl) as [out Hd];
    try done.
  - rewrite Hrest. apply Nat.mod_upper_bound. lia.
  - natmod.
  - rewrite app_assoc, take_drop in Hd. rewrite Hd. do 3 f_equal.
    rewrite Hrest. natmod.
Qed.

Lemma base64_reader_refuses_foreign_character_witness :
  read_data base64DataReader "aGV5 YQ==" = (None, Some (CorruptInputError 4)).
Proof.
  assert (Hp : " "%char <> base64.padChar) by done.
  exact (base64_reader_refuses_foreign_character "aGV5" "YQ==" " " eq_refl eq_refl
           eq_refl Hp).
Defined.

(** ** Quoted values with nothing to unquote *)

Lemma contains_app (s u : string) (c : ascii) :
  contains (s ++ u) c = contains s c || contains u c.
Proof.
  induction s as [|d s IH]; [done|]. rewrite append_String. cbn [contains].
  by rewrite IH, orb_assoc.
Qed.

Lemma index_not_contains (v rest : string) (c : ascii) :
  contains v c = false ->
  index (v ++ String c rest) c = Some (String.length v).
Proof.
  induction v as [|d v IH]; cbn [contains].
  - intros _. rewrite append_Empty. cbn [index]. by rewrite Ascii.eqb_refl.
  - intros [Hd Hv]%orb_false_elim. rewrite append_String. cbn [index String.length].
    rewrite Hd, (IH Hv). done.
Qed.

(** The quick way of [unquote]: a quoted body with nothing to unquote is
    returned as it is. *)
Lemma Unquote_plain (v : string) :
  plain_quoted v = true -> strconv.Unquote (dq ++ v ++ dq) = (v, None).
Proof.
  unfold plain_quoted. intros [[[Hb Hq]%andb_prop Hn]%andb_prop Hu]%andb_prop.
  apply negb_true_iff in Hb, Hq, Hn.
  unfold dq at 1. rewrite append_String, append_Empty.
  pose proof (index_not_contains v "" dquote Hq) as He. fold dq in He.
  unfold strconv.Unquote, strconv.unquote.
  destruct (v +:+ dq) as [|c0 in0] eqn:Ein.
  { destruct v; discriminate. }
  rewrite He. change (Ascii.eqb dquote "`") with false.
  change (Ascii.eqb dquote dquote || Ascii.eqb dquote "'") with true.
  change (Ascii.eqb dquote dquote) with true. cbv iota.
  replace (String.length v + 2)%nat with (S (S (String.length v))) by lia.
  rewrite (str_take_S (S (String.length v)) dquote).
  cbn [contains]. change (Ascii.eqb dquote "\") with false.
  change (Ascii.eqb dquote "010") with false. cbn [orb].
  rewrite <- Ein in *.
  assert (Hall : str_take (S (String.length v)) (v +:+ dq) = v +:+ dq).
  { replace (S (String.length v)) with (String.length (v +:+ dq))
      by (rewrite length_append; simpl; lia).
    rewrite <- (append_Empty_r (v +:+ dq)) at 2. apply str_take_app. }
  rewrite Hall, !contains_app, Hb, Hn, str_take_app, Hu.
  change (contains dq "\") with false. change (contains dq "010") with false.
  cbn [orb negb andb]. rewrite str_drop_S.
  replace (S (String.length v)) with (String.length (v +:+ dq))
    by (rewrite length_append; simpl; lia).
  by rewrite str_drop_all.
Qed.

(** X21. A quoted value with no backslash, no double quote and no newline
    that is valid UTF-8, ASCII or not, is stored as it is under the
    current attribute, and the next value is taken as unquoted again. *)
Theorem quoted_value_without_escapes (p : parser) (v : string) :
  unquoteParamVal p = true ->
  plain_quoted v = true ->
  parse_item p (mkItem itemParamVal v)
  = Next (mkParser
            (mkDataURL
               (mkMediaType (Type_ (MediaType_ (du p))) (Subtype (MediaType_ (du p)))
                            (<[currentAttr p := v]> (params_of p)))
               (Encoding (du p)) (Data (du p)))
            (currentAttr p) false (encodedDataReaderFn p)).
Proof.
  intros Hq Hv. unfold parse_item. cbn [t val]. rewrite Hq.
  by rewrite (Unquote_plain v Hv).
Qed.

Lemma quoted_value_without_escapes_witness :
  parse_item (mkParser (mkDataURL defaultMediaType EncodingASCII None) "name" true None)
             (mkItem itemParamVal (String "c" (String "195" (String "169" "!"))))
  = Next (mkParser
            (mkDataURL
               (mkMediaType "text" "plain"
                  (<["name" := String "c" (String "195" (String "169" "!"))]>
                     {[ "charset" := "US-ASCII" ]}))
               EncodingASCII None)
            "name" false None).
Proof.
  exact (quoted_value_without_escapes
           (mkParser (mkDataURL defaultMediaType EncodingASCII None) "name" true None)
           (String "c" (String "195" (String "169" "!"))) eq_refl eq_refl).
Defined.

(** ** The parser: the media type *)

Lemma parse_item_Next_type (p p' : parser) (it : item) :
  parse_item p it = Next p' ->
  Type_ (MediaType_ (du p'))
  = (if is_kind itemMediaType it then val it else Type_ (MediaType_ (du p)))
  /\ Subtype (MediaType_ (du p'))
     = (if is_kind itemMediaSubType it then val it else Subtype (MediaType_ (du p))).
Proof. item_cases p it; intros [=]; by subst. Qed.

Lemma rounds_type (pre : list item) :
  forall p q : parser,
    rounds p pre = Some q ->
    Type_ (MediaType_ (du q)) = last_val itemMediaType (Type_ (MediaType_ (du p))) pre
    /\ Subtype (MediaType_ (du q))
       = last_val itemMediaSubType (Subtype (MediaType_ (du p))) pre.
Proof.
  induction pre as [|it pre IH]; intros p q; cbn [rounds last_val].
  - by intros [= ->].
  - destruct (parse_item p it) as [p1| |] eqn:E; try done. intros Hr.
    destruct (IH _ _ Hr) as [HT HS].
    destruct (parse_item_Next_type _ _ _ E) as [HT1 HS1].
    by rewrite HT, HS, HT1, HS1.
Qed.

Lemma rounds_params_kept (pre : list item) :
  forall p q : parser,
    rounds p pre = Some q ->
    has_MediaType pre = false ->
    existsb (is_kind itemParamVal) pre = false ->
    params_of q = params_of p.
Proof.
  induction pre as [|it pre IH]; intros p q; cbn [rounds].
  - by intros [= ->].
  - destruct (parse_item p it) as [p1| |] eqn:E; try done. intros Hr HM HV.
    unfold has_MediaType in HM. cbn [existsb] in HM, HV.
    apply orb_false_elim in HM as [HM1 HM], HV as [HV1 HV].
    rewrite (IH _ _ Hr HM HV).
    destruct (parse_item_Next_params _ _ _ E) as [_ H].
    unfold is_kind in HM1, HV1. destruct it as [k v]. cbn [t] in *.
    destruct k; try done.
Qed.

(** X22. The media type [DecodeString] gives: its type is the value of
    the last MediaType item and its subtype that of the last
    MediaSubType item, [text] and [plain] when there is none; and when
    the items hold no MediaType and no ParamVal item the parameters are
    the default ones, [charset=US-ASCII] alone. *)
Theorem media_type_from_items (pre : list item) (q : parser) :
  rounds newParser pre = Some q ->
  Type_ (MediaType_ (du q)) = last_val itemMediaType "text" pre
  /\ Subtype (MediaType_ (du q)) = last_val itemMediaSubType "plain" pre
  /\ (has_MediaType pre = false ->
      existsb (is_kind itemParamVal) pre = false ->
      Params (MediaType_ (du q)) = {[ "charset" := "US-ASCII" ]}).
Proof.
  intros Hr. destruct (rounds_type _ _ _ Hr) as [HT HS]. split_and!; [done|done|].
  intros HM HV. apply (rounds_params_kept _ _ _ Hr HM HV).
Qed.

Lemma media_type_from_items_witness :
  Type_ (MediaType_ (mkDataURL (mkMediaType "image" "png" ∅) EncodingBase64 None))
  = last_val itemMediaType "text"
      [mkItem itemDataPrefix "data:"; mkItem itemMediaType "image";
       mkItem itemMediaSep "/"; mkItem itemMediaSubType "png";
       mkItem itemParamSemicolon ";"; mkItem itemBase64Enc "base64"].
Proof.
  exact (proj1 (media_type_from_items
                  [mkItem itemDataPrefix "data:"; mkItem itemMediaType "image";
                   mkItem itemMediaSep "/"; mkItem itemMediaSubType "png";
                   mkItem itemParamSemicolon ";"; mkItem itemBase64Enc "base64"]
                  (mkParser (mkDataURL (mkMediaType "image" "png" ∅)
                                       EncodingBase64 None)
                            "" false (Some base64DataReader))
                  eq_refl)).
Defined.

(** ** The base64 reader: line breaks *)

Lemma newline_not_in_alphabet (c : ascii) :
  implb (base64.is_newline c) (base64.decodeMap c =? 255) = true.
Proof. by_bytes c. Qed.

(** [decodeQuantum] skips the newlines it meets. *)
Lemma decodeQuantum_newlines (nl : list ascii) :
  forall (tail : list ascii) (si : Z) (dbuf : list Z),
    forallb base64.is_newline nl = true ->
    base64.decodeQuantum (nl ++ tail) si dbuf
    = base64.decodeQuantum tail (si + Z.of_nat (length nl)) dbuf.
Proof.
  induction nl as [|c nl IH]; intros tail si dbuf Hn.
  - cbn [app length]. by rewrite Z.add_0_r.
  - cbn [forallb] in Hn. apply andb_prop in Hn as [Hc Hn].
    pose proof (newline_not_in_alphabet c) as H255. rewrite Hc in H255.
    cbn [implb] in H255. cbn [app base64.decodeQuantum]. rewrite H255, Hc.
    cbn [negb]. rewrite (IH _ _ _ Hn). f_equal. cbn [length]. lia.
Qed.

(** The loop of [Decode] on newlines followed by more input. *)
Lemma Decode_newlines (nl l : list ascii) (fuel : nat) (si : Z) (dst : list ascii) :
  forallb base64.is_newline nl = true ->
  l <> [] ->
  base64.Decode fuel (nl ++ l) si dst
  = base64.Decode fuel l (si + Z.of_nat (length nl)) dst.
Proof.
  intros Hn Hl. destruct fuel as [|fuel]; [done|]. cbn [base64.Decode].
  rewrite <- (decodeQuantum_newlines nl l si [] Hn).
  destruct l as [|x l]; [done|].
  destruct (nl ++ x :: l) as [|z zs] eqn:E; [by destruct nl|done].
Qed.

(** The loop of [Decode] on newlines alone. *)
Lemma Decode_only_newlines (nl : list ascii) (fuel : nat) (si : Z) (dst : list ascii) :
  forallb base64.is_newline nl = true ->
  base64.Decode fuel nl si dst = (dst, None).
Proof.
  intros Hn. destruct fuel as [|fuel]; [done|]. cbn [base64.Decode].
  pose proof (decodeQuantum_newlines nl [] si [] Hn) as H.
  rewrite app_nil_r in H. rewrite H. destruct nl as [|c nl']; [done|].
  cbn [base64.decodeQuantum base64.q_err base64.q_out base64.q_rest base64.q_nsi].
  rewrite app_nil_r. by destruct fuel.
Qed.

(** The loop of [Decode] on the encoding of whole triples, followed by
    more input. *)
Lemma Decode_Encode_then (x : list ascii) :
  (length x mod 3 = 0)%nat ->
  forall (tail : list ascii) (fuel : nat) (si : Z) (dst : list ascii),
  exists (fuel' : nat) (si' : Z),
    (fuel <= fuel')%nat
    /\ base64.Decode (length x + fuel) (base64.Encode x ++ tail) si dst
       = base64.Decode fuel' tail si' (dst ++ x).
Proof.
  induction x as [|a|a b|a b c x IH] using list_ind3; intros Hm tail fuel si dst.
  - exists fuel, si. by rewrite app_nil_r.
  - done.
  - done.
  - cbn [length] in Hm.
    assert (Hx : (length x mod 3 = 0)%nat) by natmod.
    cbn [length Nat.add].
    replace (S (S (length x + fuel))) with (length x + S (S fuel))%nat by lia.
    set (f := (length x + S (S fuel))%nat).
    cbn [base64.Encode app base64.Decode]. rewrite decodeQuantum_4.
    cbn [base64.q_err base64.q_out base64.q_rest base64.q_nsi].
    rewrite convert_4. destruct (sextets_bytes a b c) as (-> & -> & ->).
    subst f.
    destruct (IH Hx tail (S (S fuel)) (si + 1 + 1 + 1 + 1) (dst ++ [a; b; c]))
      as (fuel' & si' & Hf & ->).
    exists fuel', si'. split; [lia|]. by rewrite <- app_assoc.
Qed.

(** X23. The base64 reader skips line breaks between groups of four
    characters: the encoding of whole triples of bytes, then any number
    of [\r] and [\n], then the encoding of more bytes is read as the
    bytes of both parts, with no error. *)
Theorem base64_reader_skips_line_breaks (x y nl : list ascii) :
  (length x mod 3 = 0)%nat ->
  forallb base64.is_newline nl = true ->
  read_data base64DataReader
    (string_of_bytes (base64.Encode x ++ nl ++ base64.Encode y))
  = (Some (x ++ y), None).
Proof.
  intros Hm Hn. unfold read_data, base64.DecodeString.
  rewrite bytes_string_bytes, length_string_of_bytes, !length_app.
  pose proof (length_Encode x) as Hx. pose proof (length_Encode y) as Hy.
  set (fuel := (length (base64.Encode x)
                + (length nl + length (base64.Encode y)))%nat).
  replace fuel with (length x + (fuel - length x))%nat by (unfold fuel; lia).
  destruct (Decode_Encode_then x Hm (nl ++ base64.Encode y)
              (fuel - length x) 0 []) as (fuel' & si' & Hf & ->).
  assert (Hy' : (length y <= fuel')%nat) by (unfold fuel in Hf; lia).
  destruct (base64.Encode y) as [|e es] eqn:Ey.
  - assert (y = []) as ->.
    { destruct y as [|a [|b [|c y]]]; try done. }
    rewrite !app_nil_r. by rewrite (Decode_only_newlines nl _ _ _ Hn).
  - rewrite (Decode_newlines nl (e :: es) _ _ _ Hn) by done. rewrite <- Ey.
    by rewrite (Decode_Encode y _ _ _ Hy').
Qed.

Lemma base64_reader_skips_line_breaks_witness :
  read_data base64DataReader
    (string_of_bytes (base64.Encode (bytes_of_string "hey")
                      ++ ["013"%char; "010"%char]
                      ++ base64.Encode (bytes_of_string "a")))
  = (Some (bytes_of_string "hey" ++ bytes_of_string "a"), None).
Proof.
  exact (base64_reader_skips_line_breaks (bytes_of_string "hey")
           (bytes_of_string "a") ["013"%char; "010"%char] eq_refl eq_refl).
Defined.

(** ** The parser: items it does not look at, and the end of the items *)

Lemma parse_item_punctuation (p : parser) (it : item) :
  is_punctuation it = true -> parse_item p it = Next p.
Proof.
  destruct it as [k v]. unfold is_punctuation, is_kind, parse_item. cbn [t val].
  by destruct k.
Qed.

Lemma parse_without_punctuation (items : list item) :
  forall p : parser,
    parse p (filter (fun it => is_punctuation it = false) items) = parse p items.
Proof.
  induction items as [|it items IH]; intros p; [done|].
  destruct (is_punctuation it) eqn:Hk.
  - rewrite filter_cons_False by (rewrite Hk; done).
    cbn [parse]. rewrite (parse_item_punctuation p it Hk). apply IH.
  - rewrite filter_cons_True by done. cbn [parse].
    destruct (parse_item p it); [apply IH|done|done].
Qed.

(** X24. [parse] does not look at the prefix, the separators ([/], [;],
    [=]) and the closing quote: taking these items out of the sequence,
    wherever they stand, changes nothing to what [DecodeString] returns,
    value, error or panic. *)
Theorem parse_ignores_punctuation (items : list item) :
  DecodeItems (filter (fun it => is_punctuation it = false) items)
  = DecodeItems items.
Proof. unfold DecodeItems. by rewrite parse_without_punctuation. Qed.

Lemma parse_item_goes_on (p : parser) (it : item) :
  ends_parse it = false ->
  is_kind itemData it = false ->
  is_kind itemParamVal it = false ->
  exists p', parse_item p it = Next p'.
Proof.
  destruct it as [k v]. unfold ends_parse, is_kind, parse_item. cbn [t val].
  destruct k; try done; intros _ _ _; try (by eexists).
  destruct (encodedDataReaderFn p); by eexists.
Qed.

(** X25. When the items run out with no EOF and no Error item among
    them, and none of them is a value or a payload (which the decoders
    may refuse), [parse] panics with "EOF not found": it never returns,
    neither a value nor an error. *)
Theorem parse_panics_without_EOF (items : list item) :
  existsb ends_parse items = false ->
  existsb (is_kind itemData) items = false ->
  existsb (is_kind itemParamVal) items = false ->
  DecodeItems items = Panic EOFNotFound.
Proof.
  intros He Hd Hv. unfold DecodeItems.
  assert (H : forall p, parse p items = Panicked EOFNotFound); [|by rewrite H].
  induction items as [|it items IH]; intros p; [done|].
  cbn [existsb] in He, Hd, Hv.
  apply orb_false_elim in He as [He1 He], Hd as [Hd1 Hd], Hv as [Hv1 Hv].
  cbn [parse]. destruct (parse_item_goes_on p it He1 Hd1 Hv1) as [p' ->].
  by apply IH.
Qed.

Lemma parse_panics_without_EOF_witness :
  DecodeItems [mkItem itemDataPrefix "data:"; mkItem itemMediaType "text";
               mkItem itemMediaSep "/"; mkItem itemMediaSubType "plain"]
  = Panic EOFNotFound.
Proof.
  exact (parse_panics_without_EOF
           [mkItem itemDataPrefix "data:"; mkItem itemMediaType "text";
            mkItem itemMediaSep "/"; mkItem itemMediaSubType "plain"]
           eq_refl eq_refl eq_refl).
Defined.
